(** * The namespaced snapshot metadata layer of containerd

    A shallow embedding of [metadata/snapshot.go]: the facade that puts
    per-namespace names, labels, timestamps and lineage in front of a
    snapshot driver, and its mark-and-sweep garbage collector.

    - Go maps are [gmap]; a nil map is [None].
    - The bolt store is a finite map of snapshotter buckets; a transaction
      is a computation in a small state-and-error monad, rolled back when
      its body fails.
    - The backing driver and the wall clock form the "world" [W], a state
      outside the store that no rollback restores.
    - Pointers to tree nodes of the collector are the keys of its [nodes]
      map, so aliasing between [roots], [children] and [nodes] is kept. *)

From Stdlib Require Import ZArith NArith Lia String Ascii List.
From stdpp Require Import base gmap sets list strings pretty sorting relations.

Local Open Scope string_scope.
Local Open Scope list_scope.

(** ** Errors

    Errors are kept up to their cause: [errors.Wrapf] adds a message and
    keeps the cause that [errdefs.IsNotFound] and friends test. *)

Inductive error : Type :=
| ErrUnknown
| ErrInvalidArgument
| ErrNotFound
| ErrAlreadyExists
| ErrFailedPrecondition
| ErrBucketExists
| ErrOther (msg : string).

Global Instance error_eq_dec : EqDecision error.
Proof. solve_decision. Defined.

Definition IsNotFound (e : error) : bool := bool_decide (e = ErrNotFound).
Definition IsFailedPrecondition (e : error) : bool :=
  bool_decide (e = ErrFailedPrecondition).

Inductive result (A : Type) : Type :=
| Ok (a : A)
| Err (e : error).
Arguments Ok {A} a.
Arguments Err {A} e.

(** ** snapshots.Info

    [Labels] is a Go map: [None] is the nil map, [Some ∅] an empty one.
    Times are instants on a discrete clock, the zero [time.Time] being 0.
    [Kind] is the driver's own field, never touched by this layer. *)

Record Info : Type := mkInfo {
  Kind : N;
  Name : string;
  Parent : string;
  Labels : option (gmap string string);
  Created : Z;
  Updated : Z
}.

Definition emptyInfo : Info :=
  {| Kind := 0%N; Name := ""; Parent := ""; Labels := None;
     Created := 0%Z; Updated := 0%Z |}.

Global Instance Info_eq_dec : EqDecision Info.
Proof. solve_decision. Defined.

(** snapshots.Opt: a function that edits the Info under construction. *)
Definition Opt : Type := Info -> result Info.

Record Mount : Type := mkMount {
  m_Type : string;
  m_Source : string;
  m_Options : list string
}.

(** ** Key translator *)

(** [fmt.Sprintf("%s/%d/%s", namespace, id, key)] *)
Definition createKey (id : N) (namespace key : string) : string :=
  namespace +:+ "/" +:+ pretty id +:+ "/" +:+ key.

(** A string without the separator "/" of [createKey]. *)
Fixpoint no_slash (s : string) : bool :=
  match s with
  | EmptyString => true
  | String c s' => if Ascii.eqb c "/" then false else no_slash s'
  end.

(** ** Overlay of the local record on the driver's info *)

(** The loop [for k, v := range m { m[k] = v }] on a Go map. *)
Definition range_assign_self (m : gmap string string) : gmap string string :=
  map_fold (fun k v acc => <[k := v]> acc) m m.

(** [overlayInfo(info, overlay)]: the returned Info, and the label map of
    [overlay] as the call leaves it (the loop writes into that map). *)
Definition overlayInfo (info overlay : Info)
  : Info * option (gmap string string) :=
  let info1 := {| Kind := Kind info; Name := Name overlay;
                  Parent := Parent overlay; Labels := Labels info;
                  Created := Created overlay; Updated := Updated overlay |} in
  match Labels info with
  | None =>
      ({| Kind := Kind info1; Name := Name info1; Parent := Parent info1;
          Labels := Labels overlay;
          Created := Created info1; Updated := Updated info1 |},
       Labels overlay)
  | Some _ =>
      (info1, range_assign_self <$> Labels overlay)
  end.

(** The overlay as the specification words it: every local label is in the
    result, the local value winning on a shared key. *)
Definition merge_labels_spec (driver local : option (gmap string string))
  : option (gmap string string) :=
  match driver with
  | None => local
  | Some d => Some (default ∅ local ∪ d)
  end.

(** ** The record store

    One record sub-bucket per snapshot name.  The keys of a sub-bucket are
    fields: [bucketKeyName] (the backend key), [bucketKeyParent], the
    [bucketKeyChildren] sub-bucket (absent until first created), the two
    timestamps and the labels.  [Get] on an absent key gives the empty byte
    string, so an absent name or parent is [""]. *)

Record record : Type := mkRecord {
  r_name : string;
  r_parent : string;
  r_children : option (gset string);
  r_created : Z;
  r_updated : Z;
  r_labels : option (gmap string string)
}.

Definition emptyRecord : record :=
  {| r_name := ""; r_parent := ""; r_children := None;
     r_created := 0%Z; r_updated := 0%Z; r_labels := None |}.

(** The bucket of one (namespace, snapshotter name): its sequence counter
    and its records by user-visible name. *)
Record SnapshotterBucket : Type := mkBucket {
  sequence : N;
  records : gmap string record
}.

Definition emptyBucket : SnapshotterBucket :=
  {| sequence := 0%N; records := ∅ |}.

(** What a transaction sees and what its rollback restores: the buckets
    at path v1/<namespace>/snapshots/<snapshotter>, and the lease
    bookkeeping [L] kept in the same database. *)
Record Store (L : Type) : Type := mkStore {
  buckets : gmap (string * string) SnapshotterBucket;
  leases : L
}.
Arguments mkStore {L} _ _.
Arguments buckets {L} _.
Arguments leases {L} _.

(** The whole state: the store, the world outside it (driver and clock)
    and the in-memory set of dirty snapshotters of the DB object. *)
Record St (L W : Type) : Type := mkSt {
  st_db : Store L;
  st_world : W;
  st_dirty : gset string
}.
Arguments mkSt {L W} _ _ _.
Arguments st_db {L W} _.
Arguments st_world {L W} _.
Arguments st_dirty {L W} _.

(** The ambient call context: the namespace and the lease it carries. *)
Record Ctx : Type := mkCtx {
  ctx_namespace : option string;
  ctx_lease : option string
}.

(** ** Collaborators, by the interface this layer uses *)

(** snapshots.Snapshotter, acting on the world; [drv_Walk] gives the infos
    the driver hands to the visitor and the error it ends with;
    [drv_Cleanup] is the optional [cleaner] capability. *)
Class Snapshotter (W : Type) : Type := {
  drv_Stat : string -> W -> result Info * W;
  drv_Prepare : string -> string -> list Opt -> W -> result (list Mount) * W;
  drv_View : string -> string -> list Opt -> W -> result (list Mount) * W;
  drv_Commit : string -> string -> W -> option error * W;
  drv_Remove : string -> W -> option error * W;
  drv_Walk : W -> (list Info * option error) * W;
  drv_Cleanup : option (W -> option error * W)
}.

(** [time.Now()] reads the wall clock of the world. *)
Class Clock (W : Type) : Type := now : W -> Z.

(** addSnapshotLease / removeSnapshotLease on the lease bookkeeping. *)
Class Leases (L : Type) : Type := {
  addSnapshotLease : Ctx -> string -> string -> L -> result L;
  removeSnapshotLease : Ctx -> string -> string -> L -> result L
}.

(** labels.Validate *)
Class LabelValidator : Type := labels_Validate : string -> string -> option error.

(** ** The transaction monad *)

Definition M (S A : Type) : Type := S -> result A * S.

Global Instance M_ret {S} : MRet (M S) := fun A a s => (Ok a, s).
Global Instance M_bind {S} : MBind (M S) := fun A B f m s =>
  match m s with
  | (Ok a, s') => f a s'
  | (Err e, s') => (Err e, s')
  end.

Definition fail {S A} (e : error) : M S A := fun s => (Err e, s).

Definition lift_result {S A} (r : result A) : M S A := fun s => (r, s).

(** [if err != nil { return err }] on a call that only yields an error. *)
Definition lift_err {S} (o : option error) : M S unit :=
  fun s => match o with Some e => (Err e, s) | None => (Ok tt, s) end.

(** The [if err == bolt.ErrBucketExists] rewrite after [CreateBucket]. *)
Definition exists_to_AlreadyExists {S A} (m : M S A) : M S A := fun s =>
  match m s with
  | (Err ErrBucketExists, s') => (Err ErrAlreadyExists, s')
  | r => r
  end.

(** [strings.HasPrefix] together with [strings.TrimPrefix]. *)
Fixpoint strip_prefix (p s : string) : option string :=
  match p with
  | EmptyString => Some s
  | String a p' =>
      match s with
      | EmptyString => None
      | String b s' => if Ascii.eqb a b then strip_prefix p' s' else None
      end
  end.

(** The field-path loop of Update on [local.Labels]. *)
Fixpoint apply_fieldpaths (paths : list string)
    (info_labels local : option (gmap string string))
  : result (option (gmap string string)) :=
  match paths with
  | [] => Ok local
  | path :: rest =>
      match strip_prefix "labels." path with
      | Some key =>
          let v := default "" (info_labels ≫= fun m => m !! key) in
          apply_fieldpaths rest info_labels
            (Some (<[key := v]> (default ∅ local)))
      | None =>
          if decide (path = "labels")
          then apply_fieldpaths rest info_labels info_labels
          else Err ErrInvalidArgument
      end
  end.

(** [if len(fieldpaths) > 0 { ... } else { local.Labels = info.Labels }] *)
Definition update_labels (paths : list string)
    (info_labels local : option (gmap string string))
  : result (option (gmap string string)) :=
  match paths with
  | [] => Ok info_labels
  | _ => apply_fieldpaths paths info_labels local
  end.

Fixpoint apply_opts (opts : list Opt) (base : Info) : result Info :=
  match opts with
  | [] => Ok base
  | opt :: rest =>
      match opt base with
      | Ok base' => apply_opts rest base'
      | Err e => Err e
      end
  end.

Fixpoint first_error (l : list (option error)) : option error :=
  match l with
  | [] => None
  | Some e :: _ => Some e
  | None :: rest => first_error rest
  end.

(** [validateSnapshot]: the first label the validator rejects, in the
    order the map is ranged over. *)
Definition validateSnapshot `{LabelValidator} (info : Info) : option error :=
  match Labels info with
  | None => None
  | Some m => first_error ((fun kv => labels_Validate kv.1 kv.2) <$> map_to_list m)
  end.

(** Modelled from the spec: namespaces.NamespaceRequired is not in this
    file; every operation requires a non-empty namespace resolved from the
    context, and its absence is a precondition error. *)
Definition NamespaceRequired {S} (ctx : Ctx) : M S string :=
  match ctx_namespace ctx with
  | None => fail ErrFailedPrecondition
  | Some ns => if decide (ns = "") then fail ErrFailedPrecondition else mret ns
  end.

(** ** The facade *)

Section facade.
Context {L W : Type}.
Context `{!Leases L, !Snapshotter W, !Clock W, !LabelValidator}.

Abbreviation state := (St L W).

Definition set_buckets (s : state)
    (b : gmap (string * string) SnapshotterBucket) : state :=
  mkSt (mkStore b (leases (st_db s))) (st_world s) (st_dirty s).

Definition with_db (s : state) (db : Store L) : state :=
  mkSt db (st_world s) (st_dirty s).

Definition with_world (s : state) (w : W) : state :=
  mkSt (st_db s) w (st_dirty s).

Definition with_leases (s : state) (l : L) : state :=
  mkSt (mkStore (buckets (st_db s)) l) (st_world s) (st_dirty s).

(** Modelled from the spec: the [update] helper and bolt's transactions
    are not in this file; a store transaction that fails is aborted
    atomically and no partial write survives.  What the body did to the
    world (the driver) stays. *)
Definition update {A} (fn : M state A) : M state A := fun s =>
  match fn s with
  | (Ok a, s') => (Ok a, s')
  | (Err e, s') => (Err e, with_db s' (st_db s))
  end.

(** Modelled from the spec: the [view] helper, a read-only transaction. *)
Definition view {A} (fn : M state A) : M state A := fun s =>
  match fn s with
  | (r, s') => (r, with_db s' (st_db s))
  end.

(** A call into the driver, made on the world. *)
Definition driver {A} (f : W -> result A * W) : M state A := fun s =>
  match f (st_world s) with
  | (r, w') => (r, with_world s w')
  end.

Definition driver_err (f : W -> option error * W) : M state unit := fun s =>
  match f (st_world s) with
  | (Some e, w') => (Err e, with_world s w')
  | (None, w') => (Ok tt, with_world s w')
  end.

(** A call into the lease bookkeeping of the transaction. *)
Definition lease (f : L -> result L) : M state unit := fun s =>
  match f (leases (st_db s)) with
  | Ok l' => (Ok tt, with_leases s l')
  | Err e => (Err e, s)
  end.

(** [time.Now().UTC()] *)
Definition time_Now : M state Z := fun s => (Ok (now (st_world s)), s).

(** *** Bucket primitives

    Modelled from the spec: bolt is not in this file; the store offers
    hierarchical named buckets with create, createIfAbsent, delete, get,
    put and a monotonic per-bucket sequence.  A bucket handle is the
    path of its bucket; every handle the source writes through was
    returned non-nil earlier in the same transaction. *)

Definition getSnapshotterBucket (ns name : string)
  : M state (option SnapshotterBucket) :=
  fun s => (Ok (buckets (st_db s) !! (ns, name)), s).

(** The bucket behind the handle of (ns, name), and a write through it. *)
Definition the_bucket (s : state) (ns name : string) : SnapshotterBucket :=
  default emptyBucket (buckets (st_db s) !! (ns, name)).

Definition set_bucket (s : state) (ns name : string) (b : SnapshotterBucket)
  : state :=
  set_buckets s (<[(ns, name) := b]> (buckets (st_db s))).

Definition createSnapshotterBucket (ns name : string) : M state unit :=
  fun s =>
    match buckets (st_db s) !! (ns, name) with
    | Some _ => (Ok tt, s)
    | None => (Ok tt, set_bucket s ns name emptyBucket)
    end.

(** [bkt.Bucket(key)] *)
Definition bkt_Bucket (ns name key : string) : M state (option record) :=
  fun s => (Ok (records (the_bucket s ns name) !! key), s).

(** [bkt.CreateBucket(key)] *)
Definition bkt_CreateBucket (ns name key : string) : M state unit :=
  fun s =>
    let b := the_bucket s ns name in
    match records b !! key with
    | Some _ => (Err ErrBucketExists, s)
    | None =>
        (Ok tt, set_bucket s ns name
                  (mkBucket (sequence b) (<[key := emptyRecord]> (records b))))
    end.

(** [bkt.DeleteBucket(key)] *)
Definition bkt_DeleteBucket (ns name key : string) : M state unit :=
  fun s =>
    let b := the_bucket s ns name in
    match records b !! key with
    | None => (Err (ErrOther "bucket not found"), s)
    | Some _ =>
        (Ok tt, set_bucket s ns name
                  (mkBucket (sequence b) (delete key (records b))))
    end.

(** [bkt.NextSequence()] *)
Definition bkt_NextSequence (ns name : string) : M state N :=
  fun s =>
    let b := the_bucket s ns name in
    (Ok (sequence b + 1)%N,
     set_bucket s ns name (mkBucket (sequence b + 1)%N (records b))).

(** A write through the handle of the record sub-bucket [key]. *)
Definition rec_update (ns name key : string) (f : record -> record)
  : M state unit :=
  fun s =>
    let b := the_bucket s ns name in
    (Ok tt, set_bucket s ns name
              (mkBucket (sequence b) (alter f key (records b)))).

Definition put_name (v : string) (r : record) : record :=
  mkRecord v (r_parent r) (r_children r) (r_created r) (r_updated r) (r_labels r).

Definition put_parent (v : string) (r : record) : record :=
  mkRecord (r_name r) v (r_children r) (r_created r) (r_updated r) (r_labels r).

(** [CreateBucketIfNotExists(bucketKeyChildren)] then [Put(key, nil)] *)
Definition children_put (key : string) (r : record) : record :=
  mkRecord (r_name r) (r_parent r) (Some ({[key]} ∪ default ∅ (r_children r)))
    (r_created r) (r_updated r) (r_labels r).

(** [CreateBucketIfNotExists(bucketKeyChildren)] then [Delete(key)] *)
Definition children_create_delete (key : string) (r : record) : record :=
  mkRecord (r_name r) (r_parent r) (Some (default ∅ (r_children r) ∖ {[key]}))
    (r_created r) (r_updated r) (r_labels r).

(** [Bucket(bucketKeyChildren)] and, when it is there, [Delete(key)] *)
Definition children_delete (key : string) (r : record) : record :=
  mkRecord (r_name r) (r_parent r) ((fun c => c ∖ {[key]}) <$> r_children r)
    (r_created r) (r_updated r) (r_labels r).

(** Modelled from the spec: boltutil is not in this file; a record holds
    its timestamp pair and its label map, written and read back as
    given. *)
Definition WriteTimestamps (created updated : Z) (r : record) : record :=
  mkRecord (r_name r) (r_parent r) (r_children r) created updated (r_labels r).

Definition WriteLabels (labels : option (gmap string string)) (r : record)
  : record :=
  mkRecord (r_name r) (r_parent r) (r_children r) (r_created r) (r_updated r)
    labels.

Definition ReadLabels (r : record) : result (option (gmap string string)) :=
  Ok (r_labels r).

Definition ReadTimestamps (r : record) : result (Z * Z) :=
  Ok (r_created r, r_updated r).

(** *** getKey, resolveKey *)

Definition getKey (s : state) (ns name key : string) : string :=
  match buckets (st_db s) !! (ns, name) with
  | None => ""
  | Some bkt =>
      match records bkt !! key with
      | None => ""
      | Some r => r_name r
      end
  end.

Definition resolveKey (sname : string) (ctx : Ctx) (key : string)
  : M state string :=
  ns ← NamespaceRequired ctx;
  view (fun s =>
    let id := getKey s ns sname key in
    if decide (id = "") then (Err ErrNotFound, s) else (Ok id, s)).

(** *** Stat *)

(** The body of the transaction in Stat and Update that reads the local
    record: the backend key and the local Info. *)
Definition read_local (key : string) (sbkt : record) : result (string * Info) :=
  match ReadLabels sbkt with
  | Err e => Err e
  | Ok labels =>
      match ReadTimestamps sbkt with
      | Err e => Err e
      | Ok (created, updated) =>
          Ok (r_name sbkt,
              {| Kind := 0%N; Name := key; Parent := r_parent sbkt;
                 Labels := labels; Created := created; Updated := updated |})
      end
  end.

Definition Stat (sname : string) (ctx : Ctx) (key : string) : M state Info :=
  ns ← NamespaceRequired ctx;
  p ← view (
    bkt ← getSnapshotterBucket ns sname;
    match bkt with
    | None => fail ErrNotFound
    | Some bkt =>
        match records bkt !! key with
        | None => fail ErrNotFound
        | Some sbkt => lift_result (read_local key sbkt)
        end
    end);
  info ← driver (drv_Stat p.1);
  mret (overlayInfo info p.2).1.

(** *** Update *)

Definition Update (sname : string) (ctx : Ctx) (info : Info)
    (fieldpaths : list string) : M state Info :=
  ns ← NamespaceRequired ctx;
  if decide (Name info = "") then fail ErrInvalidArgument else
  p ← update (
    bkt ← getSnapshotterBucket ns sname;
    match bkt with
    | None => fail ErrNotFound
    | Some bkt =>
        match records bkt !! Name info with
        | None => fail ErrNotFound
        | Some sbkt =>
            labels0 ← lift_result (ReadLabels sbkt);
            ts0 ← lift_result (ReadTimestamps sbkt);
            labels ← lift_result (update_labels fieldpaths (Labels info) labels0);
            let local := {| Kind := 0%N; Name := Name info; Parent := "";
                            Labels := labels;
                            Created := ts0.1; Updated := ts0.2 |} in
            lift_err (validateSnapshot local);;
            updated ← time_Now;
            rec_update ns sname (Name info) (WriteTimestamps ts0.1 updated);;
            rec_update ns sname (Name info) (WriteLabels labels);;
            mret (r_name sbkt,
                  {| Kind := 0%N; Name := Name info; Parent := r_parent sbkt;
                     Labels := labels;
                     Created := ts0.1; Updated := updated |})
        end
    end);
  info' ← driver (drv_Stat p.1);
  mret (overlayInfo info' p.2).1.

(** *** Prepare, View *)

Definition createSnapshot (sname : string) (ctx : Ctx) (key parent : string)
    (readonly : bool) (opts : list Opt) : M state (list Mount) :=
  ns ← NamespaceRequired ctx;
  base ← lift_result (apply_opts opts emptyInfo);
  lift_err (validateSnapshot base);;
  update (
    createSnapshotterBucket ns sname;;
    exists_to_AlreadyExists (bkt_CreateBucket ns sname key);;
    lease (addSnapshotLease ctx sname key);;
    bparent ← (if decide (parent = "") then mret "" else
      pbkt ← bkt_Bucket ns sname parent;
      match pbkt with
      | None => fail ErrNotFound
      | Some pb =>
          rec_update ns sname parent (children_put key);;
          rec_update ns sname key (put_parent parent);;
          mret (r_name pb)
      end);
    sid ← bkt_NextSequence ns sname;
    let bkey := createKey sid ns key in
    rec_update ns sname key (put_name bkey);;
    ts ← time_Now;
    rec_update ns sname key (WriteTimestamps ts ts);;
    rec_update ns sname key (WriteLabels (Labels base));;
    if readonly
    then driver (drv_View bkey bparent opts)
    else driver (drv_Prepare bkey bparent opts)).

Definition Prepare (sname : string) (ctx : Ctx) (key parent : string)
    (opts : list Opt) : M state (list Mount) :=
  createSnapshot sname ctx key parent false opts.

Definition View (sname : string) (ctx : Ctx) (key parent : string)
    (opts : list Opt) : M state (list Mount) :=
  createSnapshot sname ctx key parent true opts.

(** *** Commit *)

Definition Commit (sname : string) (ctx : Ctx) (name key : string)
    (opts : list Opt) : M state unit :=
  ns ← NamespaceRequired ctx;
  base ← lift_result (apply_opts opts emptyInfo);
  lift_err (validateSnapshot base);;
  update (
    bkt ← getSnapshotterBucket ns sname;
    match bkt with
    | None => fail ErrNotFound
    | Some _ =>
        exists_to_AlreadyExists (bkt_CreateBucket ns sname name);;
        lease (addSnapshotLease ctx sname name);;
        obkt ← bkt_Bucket ns sname key;
        match obkt with
        | None => fail ErrNotFound
        | Some ob =>
            let bkey := r_name ob in
            sid ← bkt_NextSequence ns sname;
            let nameKey := createKey sid ns name in
            rec_update ns sname name (put_name nameKey);;
            let parent := r_parent ob in
            (if decide (parent = "") then mret tt else
               pbkt ← bkt_Bucket ns sname parent;
               match pbkt with
               | None => fail ErrNotFound
               | Some _ =>
                   rec_update ns sname parent (children_create_delete key);;
                   rec_update ns sname parent (children_put name);;
                   rec_update ns sname name (put_parent parent)
               end);;
            ts ← time_Now;
            rec_update ns sname name (WriteTimestamps ts ts);;
            rec_update ns sname name (WriteLabels (Labels base));;
            bkt_DeleteBucket ns sname key;;
            lease (removeSnapshotLease ctx sname key);;
            driver_err (drv_Commit nameKey bkey)
        end
    end).

(** *** Remove *)

Definition mark_dirty (sname : string) : M state unit := fun s =>
  (Ok tt, mkSt (st_db s) (st_world s) ({[sname]} ∪ st_dirty s)).

Definition Remove (sname : string) (ctx : Ctx) (key : string) : M state unit :=
  ns ← NamespaceRequired ctx;
  update (
    bkt ← getSnapshotterBucket ns sname;
    match bkt ≫= fun b => records b !! key with
    | None => fail ErrNotFound
    | Some sbkt =>
        (match r_children sbkt with
         | Some c => if decide (c = ∅) then mret tt else fail ErrFailedPrecondition
         | None => mret tt
         end);;
        let parent := r_parent sbkt in
        (if decide (parent = "") then mret tt else
           pbkt ← bkt_Bucket ns sname parent;
           match pbkt with
           | None => fail ErrNotFound
           | Some _ => rec_update ns sname parent (children_delete key)
           end);;
        bkt_DeleteBucket ns sname key;;
        lease (removeSnapshotLease ctx sname key);;
        mark_dirty sname
    end).
End facade.

(** ** Walk *)

Record infoPair : Type := mkPair {
  bkey : string;
  pinfo : Info
}.

Definition batchSize : nat := 100.

(** The byte order of a bolt cursor on the keys of a bucket. *)
Definition key_le (x y : string * record) : Prop := String.le x.1 y.1.

Global Instance key_le_dec : RelDecision key_le.
Proof. intros x y. unfold key_le. apply _. Defined.

(** The entries a cursor on the snapshotter bucket runs through, from
    [First()] on.  Every key of the bucket is a record sub-bucket, so the
    [v == nil] test of the loop holds at each entry. *)
Definition cursor_entries (b : SnapshotterBucket) : list (string * record) :=
  merge_sort key_le (map_to_list (records b)).

(** [c.Seek(lastKey)]: the entries from the first key not below [lastKey]. *)
Fixpoint seek (lastKey : string) (cur : list (string * record))
  : list (string * record) :=
  match cur with
  | [] => []
  | e :: rest =>
      if decide (String.le lastKey e.1) then cur else seek lastKey rest
  end.

Definition pair_of (k : string) (sbkt : record) (ts : Z * Z)
    (labels : option (gmap string string)) : infoPair :=
  {| bkey := r_name sbkt;
     pinfo := {| Kind := 0%N; Name := k; Parent := r_parent sbkt;
                 Labels := labels; Created := ts.1; Updated := ts.2 |} |}.

Section walk.
Context {L W : Type}.
Context `{!Leases L, !Snapshotter W, !Clock W, !LabelValidator}.

(** The [for k != nil] loop of one transaction: the pairs collected and
    the key the cursor stopped on ([""] when it ran off the end). *)
Fixpoint collect (pairs : list infoPair) (cur : list (string * record))
  : result (list infoPair * string) :=
  match cur with
  | [] => Ok (pairs, "")
  | (k, sbkt) :: rest =>
      if decide (batchSize <= length pairs) then Ok (pairs, k)
      else
        match ReadTimestamps sbkt with
        | Err e => Err e
        | Ok ts =>
            match ReadLabels sbkt with
            | Err e => Err e
            | Ok labels => collect (pairs ++ [pair_of k sbkt ts labels]) rest
            end
        end
  end.

(** The [for _, pair := range pairs] loop, outside any transaction; the
    visitor [fn] runs on a state [V] of its own. *)
Fixpoint visit_pairs {V} (fn : Info -> V -> option error * V)
    (pairs : list infoPair) (w : W) (v : V) : option error * W * V :=
  match pairs with
  | [] => (None, w, v)
  | pr :: rest =>
      match drv_Stat (bkey pr) w with
      | (Err e, w') =>
          if IsNotFound e then visit_pairs fn rest w' v else (Some e, w', v)
      | (Ok info, w') =>
          match fn (overlayInfo info (pinfo pr)).1 v with
          | (Some e, v') => (Some e, w', v')
          | (None, v') => visit_pairs fn rest w' v'
          end
      end
  end.

(** The outer [for { ... }] of Walk; [None] when the fuel runs out before
    the loop breaks.  Each round reads the bucket in a read-only
    transaction of its own, then visits the pairs outside of it. *)
Fixpoint Walk_loop {V} (fuel : nat) (sname ns : string)
    (fn : Info -> V -> option error * V) (lastKey : string)
    (s : St L W) (v : V) : option (option error * St L W * V) :=
  match fuel with
  | O => None
  | S fuel' =>
      match buckets (st_db s) !! (ns, sname) with
      | None =>
          if decide (lastKey = "") then Some (None, s, v)
          else Walk_loop fuel' sname ns fn lastKey s v
      | Some bkt =>
          let cur := if decide (lastKey = "") then cursor_entries bkt
                     else seek lastKey (cursor_entries bkt) in
          match collect [] cur with
          | Err e => Some (Some e, s, v)
          | Ok (pairs, lastKey') =>
              match visit_pairs fn pairs (st_world s) v with
              | (Some e, w', v') => Some (Some e, with_world s w', v')
              | (None, w', v') =>
                  let s' := with_world s w' in
                  if decide (lastKey' = "") then Some (None, s', v')
                  else Walk_loop fuel' sname ns fn lastKey' s' v'
              end
          end
      end
  end.

Definition Walk {V} (fuel : nat) (sname : string) (ctx : Ctx)
    (fn : Info -> V -> option error * V) (s : St L W) (v : V)
  : option (option error * St L W * V) :=
  match NamespaceRequired ctx s with
  | (Err e, _) => Some (Some e, s, v)
  | (Ok ns, _) => Walk_loop fuel sname ns fn "" s v
  end.

(** Walk as the specification words it: the records of the bucket in the
    byte order of their names, each looked up at the driver by its backend
    key; NotFound skips the record silently, any other error of that Stat
    and any error of the visitor end the walk with that error; otherwise
    the visitor gets the driver's info under the local record. *)
Fixpoint walk_entries_spec {V} (fn : Info -> V -> option error * V)
    (entries : list (string * record)) (w : W) (v : V) : option error * W * V :=
  match entries with
  | [] => (None, w, v)
  | (name, r) :: rest =>
      match drv_Stat (r_name r) w with
      | (Err e, w') =>
          if decide (e = ErrNotFound) then walk_entries_spec fn rest w' v
          else (Some e, w', v)
      | (Ok info, w') =>
          let local := mkInfo 0%N name (r_parent r) (r_labels r)
                         (r_created r) (r_updated r) in
          match fn (overlayInfo info local).1 v with
          | (Some e, v') => (Some e, w', v')
          | (None, v') => walk_entries_spec fn rest w' v'
          end
      end
  end.
End walk.

(** ** Garbage collection *)

Record treeNode : Type := mkNode {
  node_info : Info;
  node_remove : bool;
  node_children : list string
}.

(** [&treeNode{}] *)
Definition emptyNode : treeNode :=
  {| node_info := emptyInfo; node_remove := false; node_children := [] |}.

(** A [*treeNode] is the key under which [nodes] holds the node: each key
    gets one node, allocated when the key is first met and never replaced. *)
Definition lookup_or_new (nodes : gmap string treeNode) (k : string)
  : gmap string treeNode :=
  match nodes !! k with
  | Some _ => nodes
  | None => <[k := emptyNode]> nodes
  end.

(** The visitor that walkTree hands to the driver's Walk. *)
Definition walkTree_fn (seen : gset string)
    (acc : list string * gmap string treeNode) (i : Info)
  : list string * gmap string treeNode :=
  let '(roots, nodes) := acc in
  let isSeen := bool_decide (Name i ∈ seen) in
  let nodes1 := lookup_or_new nodes (Name i) in
  let nodes2 :=
    alter (fun n => mkNode i (negb isSeen) (node_children n)) (Name i) nodes1 in
  if decide (Parent i = "") then (roots ++ [Name i], nodes2)
  else
    let nodes3 := lookup_or_new nodes2 (Parent i) in
    (roots,
     alter (fun p => mkNode (node_info p) (node_remove p)
                       (node_children p ++ [Name i])) (Parent i) nodes3).

Inductive outcome : Type :=
| Finished (err : option error)
| NilNode
| OutOfFuel.

(** The live set of the mark phase: the non-empty backend keys of the
    records of every namespace, for the snapshotter [sname]. *)
Definition mark {L} (db : Store L) (sname : string) : gset string :=
  list_to_set
    (kb ← map_to_list (buckets db);
     if decide (kb.1.2 = sname)
     then filter (fun k => k ≠ "") (r_name <$> (map_to_list (records kb.2)).*2)
     else []).

Section gc.
Context {L W : Type}.
Context `{!Leases L, !Snapshotter W, !Clock W, !LabelValidator}.

Definition walkTree (seen : gset string) (w : W)
  : result (list string * gmap string treeNode) * W :=
  match drv_Walk w with
  | ((_, Some e), w') => (Err e, w')
  | ((infos, None), w') => (Ok (foldl (walkTree_fn seen) ([], ∅) infos), w')
  end.

(** [for _, n := range ns { if err := pruneBranch(n); err != nil { return err } }],
    the loop over [node.children] and over [roots]. *)
Fixpoint prune_each
    (prune : string -> W * list string -> outcome * (W * list string))
    (ns : list string) (st : W * list string) : outcome * (W * list string) :=
  match ns with
  | [] => (Finished None, st)
  | n :: rest =>
      match prune n st with
      | (Finished None, st') => prune_each prune rest st'
      | r => r
      end
  end.

(** The driver's Remove on one node, with the log of the names Remove was
    called on. *)
Definition remove_node (name : string) (st : W * list string)
  : outcome * (W * list string) :=
  match drv_Remove name st.1 with
  | (Some e, w') =>
      if IsFailedPrecondition e then (Finished None, (w', st.2 ++ [name]))
      else (Finished (Some e), (w', st.2 ++ [name]))
  | (None, w') => (Finished None, (w', st.2 ++ [name]))
  end.

Fixpoint pruneBranch (fuel : nat) (nodes : gmap string treeNode) (p : string)
    (st : W * list string) : outcome * (W * list string) :=
  match fuel with
  | O => (OutOfFuel, st)
  | S fuel' =>
      match nodes !! p with
      | None => (NilNode, st)
      | Some node =>
          match prune_each (pruneBranch fuel' nodes) (node_children node) st with
          | (Finished None, st') =>
              if node_remove node
              then remove_node (Name (node_info node)) st'
              else (Finished None, st')
          | r => r
          end
      end
  end.

(** [garbageCollect]: the returned pair [(d, err)] ([None] when the sweep
    does not return), the state it leaves, and the log of Remove calls. *)
Definition garbageCollect (fuel : nat) (sname : string) (s : St L W)
  : option (Z * option error) * St L W * list string :=
  let t1 := now (st_world s) in
  let seen := mark (st_db s) sname in
  let leave w := with_world s w in
  match walkTree seen (st_world s) with
  | (Err e, w1) => (Some (0%Z, Some e), leave w1, [])
  | (Ok (roots, nodes), w1) =>
      match prune_each (pruneBranch fuel nodes) roots (w1, []) with
      | (Finished (Some e), (w2, log)) => (Some (0%Z, Some e), leave w2, log)
      | (Finished None, (w2, log)) =>
          match drv_Cleanup with
          | Some cleanup =>
              match cleanup w2 with
              | (Some e, w3) => (Some (0%Z, Some e), leave w3, log)
              | (None, w3) => (Some ((now w3 - t1)%Z, None), leave w3, log)
              end
          | None => (Some ((now w2 - t1)%Z, None), leave w2, log)
          end
      | (_, (w2, log)) => (None, leave w2, log)
      end
  end.
End gc.

(** ** The sweep and the forest, as the specification words them *)

Section gc_spec.
Context {W : Type} `{!Snapshotter W}.

(** Remove on each name in turn: a FailedPrecondition is tolerated and
    the sweep goes on, any other error ends it with that error. *)
Fixpoint sweep_spec (names : list string) (w : W) (log : list string)
  : option error * W * list string :=
  match names with
  | [] => (None, w, log)
  | k :: rest =>
      match drv_Remove k w with
      | (None, w') => sweep_spec rest w' (log ++ [k])
      | (Some e, w') =>
          if decide (e = ErrFailedPrecondition)
          then sweep_spec rest w' (log ++ [k])
          else (Some e, w', log ++ [k])
      end
  end.
End gc_spec.

Fixpoint postorder_each (po : string -> option (list string)) (ns : list string)
  : option (list string) :=
  match ns with
  | [] => Some []
  | n :: rest =>
      match po n, postorder_each po rest with
      | Some a, Some b => Some (a ++ b)
      | _, _ => None
      end
  end.

(** Post-order of the subtree under the node [p]: the subtrees of the
    children, in order, then [p] itself. *)
Fixpoint postorder (fuel : nat) (nodes : gmap string treeNode) (p : string)
  : option (list string) :=
  match fuel with
  | O => None
  | S fuel' =>
      match nodes !! p with
      | None => None
      | Some node =>
          match postorder_each (postorder fuel' nodes) (node_children node) with
          | Some l => Some (l ++ [p])
          | None => None
          end
      end
  end.

(** The names Remove is due on: those of the nodes marked removable. *)
Definition removable (nodes : gmap string treeNode) (ps : list string)
  : list string :=
  p ← ps;
  match nodes !! p with
  | Some n => if node_remove n then [Name (node_info n)] else []
  | None => []
  end.

(** The parent relation of a driver-reported node list, and its being
    free of cycles: no node is its own ancestor. *)
Definition parent_of (infos : list Info) (c p : string) : Prop :=
  ∃ i, i ∈ infos ∧ Name i = c ∧ Parent i = p ∧ p ≠ "".

Definition acyclic (infos : list Info) : Prop :=
  ∀ x, ¬ tc (parent_of infos) x x.

(** A backend key referenced by a live record of some namespace. *)
Definition referenced {L} (db : Store L) (sname k : string) : Prop :=
  k ≠ "" ∧
  ∃ ns b key r, buckets db !! (ns, sname) = Some b ∧
                records b !! key = Some r ∧ r_name r = k.

(** ** An in-memory driver, for running the facade on examples *)

Record memWorld : Type := mkWorld {
  mw_nodes : list Info;
  mw_clock : Z
}.

Fixpoint mem_find (key : string) (l : list Info) : option Info :=
  match l with
  | [] => None
  | i :: rest => if decide (Name i = key) then Some i else mem_find key rest
  end.

Definition mem_tick (n : Z) (w : memWorld) : memWorld :=
  mkWorld (mw_nodes w) (mw_clock w + n).

Definition mem_Stat (key : string) (w : memWorld) : result Info * memWorld :=
  (match mem_find key (mw_nodes w) with
   | Some i => Ok i
   | None => Err ErrNotFound
   end, mem_tick 1 w).

Definition mem_create (kind : N) (key parent : string) (opts : list Opt)
    (w : memWorld) : result (list Mount) * memWorld :=
  match mem_find key (mw_nodes w) with
  | Some _ => (Err ErrAlreadyExists, mem_tick 1 w)
  | None =>
      match apply_opts opts emptyInfo with
      | Err e => (Err e, mem_tick 1 w)
      | Ok base =>
          (Ok [mkMount "bind" key []],
           mkWorld (mw_nodes w ++
                      [mkInfo kind key parent (Labels base)
                         (mw_clock w) (mw_clock w)])
                   (mw_clock w + 1))
      end
  end.

Definition mem_Commit (name key : string) (w : memWorld)
  : option error * memWorld :=
  match mem_find key (mw_nodes w) with
  | None => (Some ErrNotFound, mem_tick 1 w)
  | Some _ =>
      (None,
       mkWorld ((fun i => if decide (Name i = key)
                          then mkInfo 3%N name (Parent i) (Labels i)
                                 (Created i) (mw_clock w)
                          else i) <$> mw_nodes w)
               (mw_clock w + 1))
  end.

Definition mem_delete (key : string) (w : memWorld) : memWorld :=
  mkWorld (filter (fun i => Name i ≠ key) (mw_nodes w)) (mw_clock w + 1).

(** Remove that refuses a node other nodes still name as their parent. *)
Definition mem_Remove (key : string) (w : memWorld) : option error * memWorld :=
  match mem_find key (mw_nodes w) with
  | None => (Some ErrNotFound, mem_tick 1 w)
  | Some _ =>
      if decide (Exists (fun i => Parent i = key) (mw_nodes w))
      then (Some ErrFailedPrecondition, mem_tick 1 w)
      else (None, mem_delete key w)
  end.

(** Remove that deletes whatever it is asked to. *)
Definition mem_Remove_eager (key : string) (w : memWorld)
  : option error * memWorld :=
  match mem_find key (mw_nodes w) with
  | None => (Some ErrNotFound, mem_tick 1 w)
  | Some _ => (None, mem_delete key w)
  end.

Definition mem_Walk (w : memWorld) : (list Info * option error) * memWorld :=
  ((mw_nodes w, None), mem_tick 1 w).

Definition memDriver : Snapshotter memWorld :=
  {| drv_Stat := mem_Stat;
     drv_Prepare := mem_create 2%N;
     drv_View := mem_create 1%N;
     drv_Commit := mem_Commit;
     drv_Remove := mem_Remove;
     drv_Walk := mem_Walk;
     drv_Cleanup := None |}.

Definition eagerDriver : Snapshotter memWorld :=
  {| drv_Stat := mem_Stat;
     drv_Prepare := mem_create 2%N;
     drv_View := mem_create 1%N;
     drv_Commit := mem_Commit;
     drv_Remove := mem_Remove_eager;
     drv_Walk := mem_Walk;
     drv_Cleanup := None |}.

(** The in-memory driver with a deferred cleanup that takes five ticks. *)
Definition cleaningDriver : Snapshotter memWorld :=
  {| drv_Stat := mem_Stat;
     drv_Prepare := mem_create 2%N;
     drv_View := mem_create 1%N;
     drv_Commit := mem_Commit;
     drv_Remove := mem_Remove;
     drv_Walk := mem_Walk;
     drv_Cleanup := Some (fun w => (None, mem_tick 5 w)) |}.

Definition memClock : Clock memWorld := mw_clock.

Definition noLeases : Leases unit :=
  {| addSnapshotLease := fun _ _ _ l => Ok l;
     removeSnapshotLease := fun _ _ _ l => Ok l |}.

Definition anyLabel : LabelValidator := fun _ _ => None.

Definition emptySt (w : memWorld) : St unit memWorld :=
  mkSt (mkStore ∅ tt) w ∅.

Definition inNamespace (ns : string) : Ctx := mkCtx (Some ns) None.

(** snapshots.WithLabels *)
Definition WithLabels (labels : gmap string string) : Opt :=
  fun i => Ok (mkInfo (Kind i) (Name i) (Parent i) (Some labels)
                 (Created i) (Updated i)).


(** ** Invariants of the collector's forest *)

(** A node marked removable carries a name outside the live set. *)
Definition marks_ok (seen : gset string) (nodes : gmap string treeNode) : Prop :=
  ∀ p n, nodes !! p = Some n → node_remove n = true → Name (node_info n) ∉ seen.

(** Every child pointer and every root points into [nodes], and a child
    edge is an edge of the driver's parent relation. *)
Definition forest_ok (infos : list Info)
    (acc : list string * gmap string treeNode) : Prop :=
  (∀ r, r ∈ acc.1 → is_Some (acc.2 !! r)) ∧
  (∀ p n c, acc.2 !! p = Some n → c ∈ node_children n →
            parent_of infos c p ∧ is_Some (acc.2 !! c)).

Definition child_edge (nodes : gmap string treeNode) (p c : string) : Prop :=
  ∃ n, nodes !! p = Some n ∧ c ∈ node_children n.

(** The result of the specification's sweep, as an outcome of the loop. *)
Definition as_outcome {W} (r : option error * W * list string)
  : outcome * (W * list string) :=
  (Finished r.1.1, (r.1.2, r.2)).

Section gc_phases.
Context {L W : Type}.
Context `{!Snapshotter W}.

(** The world as mark, discovery and sweep leave it, before any deferred
    cleanup. *)
Definition sweep_world (fuel : nat) (sname : string) (s : St L W) : W :=
  match walkTree (mark (st_db s) sname) (st_world s) with
  | (Err _, w1) => w1
  | (Ok (roots, nodes), w1) =>
      (prune_each (pruneBranch fuel nodes) roots (w1, [])).2.1
  end.
End gc_phases.

(** ** Example states *)

(** The lineage A (root) <- B <- C as the driver reports it. *)
Definition lineage : list Info :=
  [mkInfo 3%N "A" "" None 0%Z 0%Z;
   mkInfo 3%N "B" "A" None 0%Z 0%Z;
   mkInfo 3%N "C" "B" None 0%Z 0%Z].

(** No namespace holds a record of the lineage. *)
Definition unreferenced_st : St unit memWorld :=
  emptySt (mkWorld lineage 0%Z).

(** Namespace "ns2" holds one record, named "other", whose backend key
    is B. *)
Definition ns2_keeps_B : St unit memWorld :=
  mkSt (mkStore {[ ("ns2", "ovl") :=
                     mkBucket 1%N
                       {[ "other" := mkRecord "B" "" None 0%Z 0%Z None ]} ]} tt)
       (mkWorld lineage 0%Z) ∅.

(** A node list in which A is reported twice, the second time as its
    own parent. *)
Definition self_parent : list Info :=
  [mkInfo 3%N "A" "" None 0%Z 0%Z; mkInfo 3%N "A" "A" None 0%Z 0%Z].

Definition lineage_rank (s : string) : nat :=
  if decide (s = "A") then 0 else if decide (s = "B") then 1 else 2.

(** ** Sequences of calls on snapshotters that share the database *)

(** A [*snapshotter]: its name and the driver it embeds. *)
Record receiver (W : Type) : Type := mkReceiver {
  rc_name : string;
  rc_driver : Snapshotter W
}.
Arguments mkReceiver {W} _ _.
Arguments rc_name {W} _.
Arguments rc_driver {W} _.

Inductive call (W : Type) : Type :=
| CallCreate (rc : receiver W) (ctx : Ctx) (key parent : string)
    (readonly : bool) (opts : list Opt)
| CallCommit (rc : receiver W) (ctx : Ctx) (name key : string) (opts : list Opt)
| CallRemove (rc : receiver W) (ctx : Ctx) (key : string)
| CallUpdate (rc : receiver W) (ctx : Ctx) (info : Info) (paths : list string).
Arguments CallCreate {W} _ _ _ _ _ _.
Arguments CallCommit {W} _ _ _ _ _.
Arguments CallRemove {W} _ _ _.
Arguments CallUpdate {W} _ _ _ _.

Definition call_ctx {W} (c : call W) : Ctx :=
  match c with
  | CallCreate _ ctx _ _ _ _ => ctx
  | CallCommit _ ctx _ _ _ => ctx
  | CallRemove _ ctx _ => ctx
  | CallUpdate _ ctx _ _ => ctx
  end.

Definition call_namespace {W} (c : call W) : string :=
  default "" (ctx_namespace (call_ctx c)).

Section calls.
Context {L W : Type}.
Context `{!Leases L, !Clock W, !LabelValidator}.

(** One call; a Prepare or View that succeeds adds to the log the
    snapshotter name and the backend key its new record received. *)
Definition run_call (acc : St L W * list (string * string)) (c : call W)
  : St L W * list (string * string) :=
  match c with
  | CallCreate rc ctx key parent readonly opts =>
      match createSnapshot (Snapshotter0 := rc_driver rc)
              (rc_name rc) ctx key parent readonly opts acc.1 with
      | (Ok _, s') =>
          (s', acc.2 ++ [(rc_name rc,
                          getKey s' (default "" (ctx_namespace ctx))
                            (rc_name rc) key)])
      | (Err _, s') => (s', acc.2)
      end
  | CallCommit rc ctx name key opts =>
      ((Commit (Snapshotter0 := rc_driver rc) (rc_name rc) ctx name key opts acc.1).2,
       acc.2)
  | CallRemove rc ctx key =>
      ((Remove (rc_name rc) ctx key acc.1).2, acc.2)
  | CallUpdate rc ctx info paths =>
      ((Update (Snapshotter0 := rc_driver rc) (rc_name rc) ctx info paths acc.1).2,
       acc.2)
  end.

Definition run_calls (cs : list (call W)) (s : St L W)
  : St L W * list (string * string) :=
  foldl run_call (s, []) cs.

(** No sequence counter of the store went down. *)
Definition seq_le (s s' : St L W) : Prop :=
  ∀ ns name, (sequence (the_bucket s ns name) <= sequence (the_bucket s' ns name))%N.

Definition mono {A} (m : M (St L W) A) : Prop := ∀ s, seq_le s (m s).2.

(** Every logged key was derived from a sequence number its bucket has
    reached, in a namespace without the separator. *)
Definition issued_ok (s : St L W) (log : list (string * string)) : Prop :=
  NoDup log ∧
  ∀ sn bk, (sn, bk) ∈ log →
    ∃ ns id key, bk = createKey id ns key ∧ no_slash ns = true ∧
                 (id <= sequence (the_bucket s ns sn))%N.
End calls.

(** ** Two drivers side by side *)

Definition on_fst {A} (f : memWorld -> A * memWorld)
    (w : memWorld * memWorld) : A * (memWorld * memWorld) :=
  match f w.1 with (a, w1) => (a, (w1, w.2)) end.

Definition on_snd {A} (f : memWorld -> A * memWorld)
    (w : memWorld * memWorld) : A * (memWorld * memWorld) :=
  match f w.2 with (a, w2) => (a, (w.1, w2)) end.

Definition leftDriver : Snapshotter (memWorld * memWorld) :=
  {| drv_Stat := fun k => on_fst (mem_Stat k);
     drv_Prepare := fun k p o => on_fst (mem_create 2%N k p o);
     drv_View := fun k p o => on_fst (mem_create 1%N k p o);
     drv_Commit := fun n k => on_fst (mem_Commit n k);
     drv_Remove := fun k => on_fst (mem_Remove k);
     drv_Walk := on_fst mem_Walk;
     drv_Cleanup := None |}.

Definition rightDriver : Snapshotter (memWorld * memWorld) :=
  {| drv_Stat := fun k => on_snd (mem_Stat k);
     drv_Prepare := fun k p o => on_snd (mem_create 2%N k p o);
     drv_View := fun k p o => on_snd (mem_create 1%N k p o);
     drv_Commit := fun n k => on_snd (mem_Commit n k);
     drv_Remove := fun k => on_snd (mem_Remove k);
     drv_Walk := on_snd mem_Walk;
     drv_Cleanup := None |}.

Definition pairClock : Clock (memWorld * memWorld) := fun w => mw_clock w.1.

Definition overlayfs : receiver (memWorld * memWorld) :=
  mkReceiver "overlayfs" leftDriver.

Definition native : receiver (memWorld * memWorld) :=
  mkReceiver "native" rightDriver.

Definition two_drivers : St unit (memWorld * memWorld) :=
  mkSt (mkStore ∅ tt) (mkWorld [] 0%Z, mkWorld [] 0%Z) ∅.

Definition ns1 : Ctx := inNamespace "ns1".

(** ** Example runs of the facade on the in-memory driver *)

Section example_runs.
Local Existing Instances memDriver memClock noLeases anyLabel.

(** Prepare "active" at time 10, then Update replaces its labels at 11. *)
Definition active_prepared : St unit memWorld :=
  (Prepare "ovl" ns1 "active" "" [] (emptySt (mkWorld [] 10%Z))).2.

Definition active_updated : St unit memWorld :=
  (Update "ovl" ns1 (mkInfo 0%N "active" "" (Some {["env" := "prod"]}) 0%Z 0%Z)
     [] active_prepared).2.

Definition release_committed : St unit memWorld :=
  (Commit "ovl" ns1 "release" "active" [] active_updated).2.

(** A record "s1" with the label k=v. *)
Definition s1_labelled : St unit memWorld :=
  (Prepare "ovl" ns1 "s1" "" [WithLabels {["k" := "v"]}]
     (emptySt (mkWorld [] 10%Z))).2.

(** A driver that already holds the key the next Prepare derives. *)
Definition driver_has_key : St unit memWorld :=
  emptySt (mkWorld [mkInfo 2%N "ns1/1/s1" "" None 0%Z 0%Z] 10%Z).
End example_runs.

(** The pair the Walk transaction collects for an entry of the cursor. *)
Definition entry_pair (e : string * record) : infoPair :=
  pair_of e.1 e.2 (r_created e.2, r_updated e.2) (r_labels e.2).

(** The key a cursor stands on: [""] when it ran off the end. *)
Definition next_key (cur : list (string * record)) : string :=
  match cur with
  | [] => ""
  | e :: _ => e.1
  end.

(** A visitor that notes the names it is shown. *)
Definition note_name (i : Info) (seen : list string) : option error * list string :=
  (None, seen ++ [Name i]).

Section many_records.
Local Existing Instances memDriver memClock noLeases anyLabel.

(** Prepare of the names s0, s1, ..., in that order. *)
Fixpoint prepare_many (n : nat) (s : St unit memWorld) : St unit memWorld :=
  match n with
  | O => s
  | S n' =>
      let s' := prepare_many n' s in
      (Prepare "ovl" ns1 ("s" +:+ pretty n') "" [] s').2
  end.

Definition many_records : St unit memWorld :=
  prepare_many 120 (emptySt (mkWorld [] 0%Z)).
End many_records.

(** The labels of the record [key], as the store holds them. *)
Definition record_labels {L W} (s : St L W) (ns sname key : string)
  : option (gmap string string) :=
  buckets (st_db s) !! (ns, sname) ≫= fun b =>
  records b !! key ≫= r_labels.

(** ** Usage and Mounts *)

Module snapshots.
(** snapshots.Usage *)
Record Usage : Type := mkUsage {
  Inodes : Z;
  Size : Z
}.
End snapshots.

(** The methods of snapshots.Snapshotter that the facade only forwards. *)
Class SnapshotterQuery (W : Type) : Type := {
  drv_Usage : string -> W -> result snapshots.Usage * W;
  drv_Mounts : string -> W -> result (list Mount) * W
}.

Section forwarded.
Context {L W : Type}.
Context `{!SnapshotterQuery W}.

Definition Usage (sname : string) (ctx : Ctx) (key : string)
  : M (St L W) snapshots.Usage :=
  bkey ← resolveKey sname ctx key;
  driver (drv_Usage bkey).

Definition Mounts (sname : string) (ctx : Ctx) (key : string)
  : M (St L W) (list Mount) :=
  bkey ← resolveKey sname ctx key;
  driver (drv_Mounts bkey).
End forwarded.

(** ** The records a transaction leaves *)

(** The records of the bucket after the writes of createSnapshot. *)
Definition create_records (recs : gmap string record) (key parent bkey : string)
    (ts : Z) (labels : option (gmap string string)) : gmap string record :=
  let r0 := <[key := emptyRecord]> recs in
  let r1 := if decide (parent = "") then r0
            else alter (put_parent parent) key (alter (children_put key) parent r0) in
  alter (WriteLabels labels) key
    (alter (WriteTimestamps ts ts) key (alter (put_name bkey) key r1)).

(** The records of the bucket after the writes of Remove. *)
Definition remove_records (recs : gmap string record) (key parent : string)
  : gmap string record :=
  delete key (if decide (parent = "") then recs
              else alter (children_delete key) parent recs).

(** The records of the bucket after the writes of Commit. *)
Definition commit_records (recs : gmap string record) (name key parent nameKey : string)
    (ts : Z) (labels : option (gmap string string)) : gmap string record :=
  let r0 := alter (put_name nameKey) name (<[name := emptyRecord]> recs) in
  let r1 := if decide (parent = "") then r0
            else alter (put_parent parent) name
                   (alter (children_put name) parent
                      (alter (children_create_delete key) parent r0)) in
  delete key
    (alter (WriteLabels labels) name (alter (WriteTimestamps ts ts) name r1)).

(** ** Invariants of the lineage links of a bucket *)

(** Every entry of a children sub-bucket names an existing record whose
    parent is the owner of that sub-bucket. *)
Definition children_sound (recs : gmap string record) : Prop :=
  ∀ p rp c k, recs !! p = Some rp → r_children rp = Some c → k ∈ c →
    p ≠ "" ∧ ∃ r, recs !! k = Some r ∧ r_parent r = p.

Definition store_children_sound {L W} (s : St L W) : Prop :=
  ∀ p b, buckets (st_db s) !! p = Some b → children_sound (records b).

(** Every record of a bucket carries the key derived from the namespace
    of the bucket, its own name and a sequence number the bucket has
    reached. *)
Definition records_named (ns : string) (seq : N) (recs : gmap string record)
  : Prop :=
  ∀ k r, recs !! k = Some r →
    ∃ id, r_name r = createKey id ns k ∧ (0 < id <= seq)%N.

Definition store_named {L W} (s : St L W) : Prop :=
  ∀ ns sn b, buckets (st_db s) !! (ns, sn) = Some b →
    records_named ns (sequence b) (records b).

(** A name whose chain of reported parents ends in a reported root. *)
Definition rooted (infos : list Info) (k : string) : Prop :=
  ∃ r, rtc (parent_of infos) k r ∧
       ∃ i, i ∈ infos ∧ Name i = r ∧ Parent i = "".

(** ** More of the in-memory driver, and more example runs *)

Definition mem_Usage (key : string) (w : memWorld)
  : result snapshots.Usage * memWorld :=
  (match mem_find key (mw_nodes w) with
   | Some _ => Ok (snapshots.mkUsage 1%Z 4096%Z)
   | None => Err ErrNotFound
   end, mem_tick 1 w).

Definition mem_Mounts (key : string) (w : memWorld)
  : result (list Mount) * memWorld :=
  (match mem_find key (mw_nodes w) with
   | Some _ => Ok [mkMount "bind" key []]
   | None => Err ErrNotFound
   end, mem_tick 1 w).

Definition memQuery : SnapshotterQuery memWorld :=
  {| drv_Usage := mem_Usage; drv_Mounts := mem_Mounts |}.

Section more_example_runs.
Local Existing Instances memDriver memClock noLeases anyLabel.

(** Prepare "child" on top of "active". *)
Definition child_prepared : St unit memWorld :=
  (Prepare "ovl" ns1 "child" "active" [] active_prepared).2.

(** Prepare "loop" with itself as its parent. *)
Definition loop_prepared : St unit memWorld :=
  (Prepare "ovl" ns1 "loop" "loop" [] (emptySt (mkWorld [] 10%Z))).2.

(** Remove "child" again. *)
Definition child_removed : St unit memWorld :=
  (Remove "ovl" ns1 "child" child_prepared).2.
End more_example_runs.

(** A driver whose Walk fails after it showed two infos. *)
Definition brokenWalkDriver : Snapshotter memWorld :=
  {| drv_Stat := mem_Stat;
     drv_Prepare := mem_create 2%N;
     drv_View := mem_create 1%N;
     drv_Commit := mem_Commit;
     drv_Remove := mem_Remove;
     drv_Walk := fun w => ((take 2 (mw_nodes w), Some ErrUnknown), mem_tick 1 w);
     drv_Cleanup := Some (fun w => (None, mem_tick 5 w)) |}.
(** * Properties *)

(** ** overlayInfo *)

Lemma range_assign_self_id (m : gmap string string) : range_assign_self m = m.
Proof.
  unfold range_assign_self.
  enough (H : ∀ m0 : gmap string string,
             m ⊆ m0 → map_fold (fun k v acc => <[k := v]> acc) m0 m = m0)
    by (apply H; done).
  intros m0.
  apply (map_fold_weak_ind
           (fun r (m' : gmap string string) => m' ⊆ m0 → r = m0)).
  - done.
  - intros i x m' r Hi IH Hsub.
    rewrite IH.
    + apply insert_id. eapply lookup_weaken; [|exact Hsub].
      apply lookup_insert_eq.
    + etrans; [|exact Hsub]. by apply insert_subseteq.
Qed.

(** The overlay leaves the local label map as it found it. *)
Lemma overlayInfo_overlay_labels (info overlay : Info) :
  (overlayInfo info overlay).2 = Labels overlay.
Proof.
  unfold overlayInfo. destruct (Labels info); [|done].
  destruct (Labels overlay) as [m|]; [|done].
  simpl. by rewrite range_assign_self_id.
Qed.

Lemma overlayInfo_fields (info overlay : Info) :
  let r := (overlayInfo info overlay).1 in
  Kind r = Kind info ∧ Name r = Name overlay ∧ Parent r = Parent overlay ∧
  Created r = Created overlay ∧ Updated r = Updated overlay.
Proof. unfold overlayInfo. by destruct (Labels info). Qed.

(** The labels the code returns: the driver's own map whenever the driver
    has one, the local map otherwise. *)
Lemma overlayInfo_labels (info overlay : Info) :
  Labels (overlayInfo info overlay).1 =
  match Labels info with
  | None => Labels overlay
  | Some d => Some d
  end.
Proof. unfold overlayInfo. by destruct (Labels info). Qed.

Lemma overlayInfo_nil_labels (info overlay : Info) :
  Labels info = None →
  Labels (overlayInfo info overlay).1 = Labels overlay.
Proof. intros H. by rewrite overlayInfo_labels, H. Qed.

Section overlay_examples.
Local Existing Instances memDriver memClock noLeases anyLabel.

(** C1, at a driver info that has labels: the overlay takes name, parent
    and both timestamps from the local record, but the labels it returns
    are the driver's alone; the local label "b" is not in the result, which
    therefore differs from the key-by-key merge; Stat on such a record
    returns the same. *)
Theorem C1_overlay_drops_local_labels :
  let drv := mkInfo 2%N "ns1/1/s1" "" (Some {["a" := "1"]}) 5%Z 5%Z in
  let loc := mkInfo 0%N "s1" "p" (Some {["b" := "2"]}) 7%Z 9%Z in
  let st := mkSt (mkStore
                    {[ ("ns1", "ovl") :=
                         mkBucket 1%N
                           {[ "s1" := mkRecord "ns1/1/s1" "p" None 7%Z 9%Z
                                        (Some {["b" := "2"]}) ]} ]} tt)
                 (mkWorld [drv] 20%Z) ∅ in
  (overlayInfo drv loc).1 = mkInfo 2%N "s1" "p" (Some {["a" := "1"]}) 7%Z 9%Z ∧
  (Labels (overlayInfo drv loc).1 ≫= fun m => m !! "b") = None ∧
  (merge_labels_spec (Labels drv) (Labels loc) ≫= fun m => m !! "b") = Some "2" ∧
  (Stat "ovl" (inNamespace "ns1") "s1" st).1
    = Ok (mkInfo 2%N "s1" "p" (Some {["a" := "1"]}) 7%Z 9%Z).
Proof. vm_compute. done. Qed.
End overlay_examples.

(** ** The forest of walkTree *)

Lemma foldl_invariant {A B} (P : A → Prop) (f : A → B → A) (l : list B) (a : A) :
  P a → (∀ a' b, b ∈ l → P a' → P (f a' b)) → P (foldl f a l).
Proof.
  revert a. induction l as [|b l IH]; intros a Ha Hstep; simpl; [done|].
  apply IH.
  - apply Hstep; [left|done].
  - intros a' b' Hb'. apply Hstep. by right.
Qed.

Lemma lookup_or_new_Some (nodes : gmap string treeNode) (k p : string) n :
  lookup_or_new nodes k !! p = Some n →
  nodes !! p = Some n ∨ (nodes !! p = None ∧ p = k ∧ n = emptyNode).
Proof.
  unfold lookup_or_new. destruct (nodes !! k) as [n0|] eqn:Hk; [by left|].
  rewrite lookup_insert. case_decide; subst.
  - intros [= <-]. by right.
  - by left.
Qed.

Lemma lookup_or_new_mono (nodes : gmap string treeNode) (k p : string) :
  is_Some (nodes !! p) → is_Some (lookup_or_new nodes k !! p).
Proof.
  unfold lookup_or_new. destruct (nodes !! k) eqn:Hk; [done|].
  intros [n Hn]. rewrite lookup_insert_ne; [eauto|]. congruence.
Qed.

Lemma lookup_or_new_is_Some (nodes : gmap string treeNode) (k : string) :
  is_Some (lookup_or_new nodes k !! k).
Proof.
  unfold lookup_or_new. destruct (nodes !! k) eqn:Hk; [by rewrite Hk|].
  rewrite lookup_insert_eq. eauto.
Qed.

Lemma alter_is_Some (f : treeNode → treeNode) (nodes : gmap string treeNode) k p :
  is_Some (alter f k nodes !! p) ↔ is_Some (nodes !! p).
Proof.
  rewrite lookup_alter. case_decide; subst; [|done].
  by rewrite fmap_is_Some.
Qed.

Lemma marks_ok_lookup_or_new seen nodes k :
  marks_ok seen nodes → marks_ok seen (lookup_or_new nodes k).
Proof.
  intros Hok p n [Hn|(_ & _ & ->)]%lookup_or_new_Some; [by apply (Hok p)|done].
Qed.

Lemma marks_ok_alter seen nodes (f : treeNode → treeNode) k :
  (∀ n, (node_remove n = true → Name (node_info n) ∉ seen) →
        node_remove (f n) = true → Name (node_info (f n)) ∉ seen) →
  marks_ok seen nodes → marks_ok seen (alter f k nodes).
Proof.
  intros Hf Hok p n. rewrite lookup_alter. case_decide; subst.
  - intros (n0 & Hn0 & ->)%fmap_Some. apply Hf. by apply (Hok p).
  - apply Hok.
Qed.

Lemma walkTree_fn_marks_ok seen roots nodes i :
  marks_ok seen nodes → marks_ok seen (walkTree_fn seen (roots, nodes) i).2.
Proof.
  intros Hok. unfold walkTree_fn. cbv zeta.
  assert (H2 : marks_ok seen
            (alter (fun n => mkNode i (negb (bool_decide (Name i ∈ seen)))
                               (node_children n)) (Name i)
               (lookup_or_new nodes (Name i)))).
  { apply marks_ok_alter; [|by apply marks_ok_lookup_or_new].
    intros n _. simpl. by intros ?%negb_true_iff%bool_decide_eq_false. }
  destruct (decide (Parent i = "")); [exact H2|]. cbn [snd].
  apply marks_ok_alter; [by intros n0|]. by apply marks_ok_lookup_or_new.
Qed.

Lemma walkTree_marks_ok seen (infos : list Info) :
  marks_ok seen (foldl (walkTree_fn seen) ([], ∅) infos).2.
Proof.
  apply (foldl_invariant (fun acc => marks_ok seen acc.2)).
  - intros p n. simpl. by rewrite lookup_empty.
  - intros [roots nodes] i _. apply walkTree_fn_marks_ok.
Qed.

Lemma walkTree_fn_forest_ok seen infos acc i :
  i ∈ infos → forest_ok infos acc → forest_ok infos (walkTree_fn seen acc i).
Proof.
  intros Hi. destruct acc as [roots nodes]. intros [Hroots Hedges].
  unfold walkTree_fn. cbv zeta.
  set (nodes1 := lookup_or_new nodes (Name i)).
  set (f2 := fun n => mkNode i (negb (bool_decide (Name i ∈ seen))) (node_children n)).
  set (nodes2 := alter f2 (Name i) nodes1).
  assert (Hmono : ∀ p, is_Some (nodes !! p) → is_Some (nodes2 !! p)).
  { intros p Hp. apply alter_is_Some. by apply lookup_or_new_mono. }
  assert (Hself : is_Some (nodes2 !! Name i)).
  { apply alter_is_Some, lookup_or_new_is_Some. }
  assert (Hedges2 : ∀ p n c, nodes2 !! p = Some n → c ∈ node_children n →
                             parent_of infos c p ∧ is_Some (nodes2 !! c)).
  { intros p n c. unfold nodes2. rewrite lookup_alter.
    assert (Hn1 : ∀ n1, nodes1 !! p = Some n1 → c ∈ node_children n1 →
                        parent_of infos c p ∧ is_Some (nodes2 !! c)).
    { intros n1 [Hn1|(_ & _ & ->)]%lookup_or_new_Some Hc.
      - destruct (Hedges p n1 c Hn1 Hc) as [? ?]. split; [done|by apply Hmono].
      - by apply elem_of_nil in Hc. }
    case_decide; subst.
    - intros (n1 & Hl & ->)%fmap_Some. simpl. by apply Hn1.
    - apply Hn1. }
  destruct (decide (Parent i = "")) as [Hpar|Hpar]; unfold forest_ok; cbn [fst snd].
  - split; [|done].
    intros r [Hr| ->%list_elem_of_singleton]%elem_of_app; [|done].
    by apply Hmono, Hroots.
  - set (f4 := fun p => mkNode (node_info p) (node_remove p)
                          (node_children p ++ [Name i])).
    assert (Hmono3 : ∀ p, is_Some (nodes2 !! p) →
              is_Some (alter f4 (Parent i) (lookup_or_new nodes2 (Parent i)) !! p)).
    { intros p Hp. apply alter_is_Some. by apply lookup_or_new_mono. }
    split.
    + intros r Hr. by apply Hmono3, Hmono, Hroots.
    + intros p n c. rewrite lookup_alter.
      assert (Hn3 : ∀ n3, lookup_or_new nodes2 (Parent i) !! p = Some n3 →
                c ∈ node_children n3 →
                parent_of infos c p ∧
                is_Some (alter f4 (Parent i) (lookup_or_new nodes2 (Parent i)) !! c)).
      { intros n3 [Hl|(_ & _ & ->)]%lookup_or_new_Some Hc.
        - destruct (Hedges2 p n3 c Hl Hc) as [? ?]. split; [done|by apply Hmono3].
        - by apply elem_of_nil in Hc. }
      case_decide; subst.
      * intros (n3 & Hl & ->)%fmap_Some. simpl.
        intros [Hc| ->%list_elem_of_singleton]%elem_of_app; [by apply (Hn3 n3)|].
        split; [|by apply Hmono3].
        exists i. done.
      * apply Hn3.
Qed.

Lemma walkTree_forest_ok seen (infos : list Info) :
  forest_ok infos (foldl (walkTree_fn seen) ([], ∅) infos).
Proof.
  apply (foldl_invariant (forest_ok infos)).
  - split.
    + intros r Hr. by apply elem_of_nil in Hr.
    + intros p n c. simpl. by rewrite lookup_empty.
  - intros acc i Hi. by apply walkTree_fn_forest_ok.
Qed.

(** ** The mark phase *)

Lemma elem_of_mark {L} (db : Store L) (sname k : string) :
  k ∈ mark db sname ↔ referenced db sname k.
Proof.
  unfold mark, referenced. rewrite elem_of_list_to_set, list_elem_of_bind.
  split.
  - intros ([[ns n] b] & Hk & Hb%elem_of_map_to_list). simpl in Hk.
    case_decide; [subst n|by apply elem_of_nil in Hk].
    apply list_elem_of_filter in Hk as [Hne Hk].
    apply list_elem_of_fmap in Hk as (r & -> & Hr).
    apply list_elem_of_fmap in Hr as ([key r'] & -> & Hr%elem_of_map_to_list).
    split; [done|]. by exists ns, b, key, r'.
  - intros (Hne & ns & b & key & r & Hb & Hr & <-).
    exists ((ns, sname), b). split; [|by apply elem_of_map_to_list].
    simpl. rewrite decide_True by done.
    apply list_elem_of_filter. split; [done|].
    apply list_elem_of_fmap. exists r. split; [done|].
    apply list_elem_of_fmap. exists (key, r). split; [done|].
    by apply elem_of_map_to_list.
Qed.

(** ** The sweep *)

Section sweep_props.
Context {L W : Type}.
Context `{!Leases L, !Snapshotter W, !Clock W, !LabelValidator}.

Lemma prune_each_invariant (Q : W * list string → Prop)
    (prune : string → W * list string → outcome * (W * list string))
    (ns : list string) (st : W * list string) :
  (∀ n st, n ∈ ns → Q st → Q (prune n st).2) →
  Q st → Q (prune_each prune ns st).2.
Proof.
  revert st. induction ns as [|n ns IH]; intros st Hq Hst; simpl; [done|].
  pose proof (Hq n st ltac:(left) Hst) as Hn.
  destruct (prune n st) as [[[e|]| |] st']; simpl in *; try done.
  apply IH; [|done]. intros n' st'' Hn'. apply Hq. by right.
Qed.

Lemma remove_node_log (name : string) (st : W * list string) :
  (remove_node name st).2.2 = st.2 ++ [name].
Proof.
  unfold remove_node. destruct (drv_Remove name st.1) as [[e|] w']; [|done].
  by destruct (IsFailedPrecondition e).
Qed.

Lemma remove_node_finishes (name : string) (st : W * list string) :
  ∃ e, (remove_node name st).1 = Finished e.
Proof.
  unfold remove_node. destruct (drv_Remove name st.1) as [[e|] w']; [|by eexists].
  destruct (IsFailedPrecondition e); by eexists.
Qed.

(** Remove is only ever called on names outside the live set. *)
Lemma pruneBranch_log_ok (seen : gset string) (nodes : gmap string treeNode) :
  marks_ok seen nodes →
  ∀ fuel p st, Forall (fun k => k ∉ seen) st.2 →
               Forall (fun k => k ∉ seen) (pruneBranch fuel nodes p st).2.2.
Proof.
  intros Hok. induction fuel as [|fuel IH]; intros p st Hst; simpl; [done|].
  destruct (nodes !! p) as [node|] eqn:Hnode; [|done].
  pose proof (prune_each_invariant (fun st => Forall (fun k => k ∉ seen) st.2)
                (pruneBranch fuel nodes) (node_children node) st
                (fun n st _ => IH n st) Hst) as Hc.
  destruct (prune_each _ _ st) as [[[e|]| |] st']; simpl in *; try done.
  destruct (node_remove node) eqn:Hrm; [|done].
  rewrite remove_node_log. apply Forall_app. split; [done|].
  apply Forall_singleton. by apply (Hok p).
Qed.

Lemma garbageCollect_log_ok (fuel : nat) (sname : string) (s : St L W) :
  Forall (fun k => k ∉ mark (st_db s) sname) (garbageCollect fuel sname s).2.
Proof.
  unfold garbageCollect, walkTree.
  destruct (drv_Walk (st_world s)) as [[infos [e|]] w1]; [by constructor|].
  pose proof (walkTree_marks_ok (mark (st_db s) sname) infos) as Hok.
  destruct (foldl _ _ infos) as [roots nodes]. simpl in Hok.
  pose proof (prune_each_invariant
                (fun st => Forall (fun k => k ∉ mark (st_db s) sname) st.2)
                (pruneBranch fuel nodes) roots (w1, [])
                (fun n st _ => pruneBranch_log_ok _ _ Hok fuel n st)
                ltac:(by constructor)) as Hlog.
  destruct (prune_each _ _ _) as [[[e|]| |] [w2 log]]; simpl in *; try done.
  destruct drv_Cleanup as [cleanup|]; [|done].
  by destruct (cleanup w2) as [[e|] w3].
Qed.
End sweep_props.

(** ** The sweep is the post-order sweep of the specification *)

Section sweep_spec_props.
Context {L W : Type}.
Context `{!Leases L, !Snapshotter W, !Clock W, !LabelValidator}.

Lemma sweep_spec_app (a b : list string) (w : W) (log : list string) :
  sweep_spec (a ++ b) w log =
  match sweep_spec a w log with
  | (None, w', log') => sweep_spec b w' log'
  | r => r
  end.
Proof.
  revert w log. induction a as [|k a IH]; intros w log; simpl; [done|].
  destruct (drv_Remove k w) as [[e|] w']; [|apply IH].
  case_decide; [apply IH|done].
Qed.

Lemma remove_node_spec (k : string) (st : W * list string) :
  remove_node k st = as_outcome (sweep_spec [k] st.1 st.2).
Proof.
  unfold remove_node, as_outcome. simpl.
  destruct (drv_Remove k st.1) as [[e|] w']; [|done].
  unfold IsFailedPrecondition. destruct (decide (e = ErrFailedPrecondition)).
  - by rewrite bool_decide_eq_true_2.
  - by rewrite bool_decide_eq_false_2.
Qed.

Lemma removable_app nodes (a b : list string) :
  removable nodes (a ++ b) = removable nodes a ++ removable nodes b.
Proof. unfold removable. apply bind_app. Qed.

Lemma prune_each_spec nodes
    (prune : string → W * list string → outcome * (W * list string))
    (po : string → option (list string)) (ns : list string) :
  (∀ n order st, n ∈ ns → po n = Some order →
     prune n st = as_outcome (sweep_spec (removable nodes order) st.1 st.2)) →
  ∀ order st, postorder_each po ns = Some order →
    prune_each prune ns st
    = as_outcome (sweep_spec (removable nodes order) st.1 st.2).
Proof.
  induction ns as [|n ns IH]; intros Hn order st; simpl.
  - intros [= <-]. by destruct st.
  - destruct (po n) as [a|] eqn:Ha; [|done].
    destruct (postorder_each po ns) as [b|] eqn:Hb; [|done].
    intros [= <-]. rewrite removable_app, sweep_spec_app.
    rewrite (Hn n a st ltac:(left) Ha). unfold as_outcome at 1.
    destruct (sweep_spec (removable nodes a) st.1 st.2) as [[[e|] w'] log'];
      simpl; [done|].
    rewrite (IH (fun n' o' st' Hn' => Hn n' o' st' ltac:(by right)) b (w', log') eq_refl).
    done.
Qed.

Lemma pruneBranch_spec nodes (fuel : nat) :
  ∀ p order st, postorder fuel nodes p = Some order →
    pruneBranch fuel nodes p st
    = as_outcome (sweep_spec (removable nodes order) st.1 st.2).
Proof.
  induction fuel as [|fuel IH]; intros p order st; simpl; [done|].
  destruct (nodes !! p) as [node|] eqn:Hnode; [|done].
  destruct (postorder_each _ _) as [l|] eqn:Hl; [|done].
  intros [= <-].
  rewrite (prune_each_spec nodes _ _ _ (fun n o st' _ => IH n o st') l st Hl).
  rewrite removable_app, sweep_spec_app. unfold as_outcome at 1.
  destruct (sweep_spec (removable nodes l) st.1 st.2) as [[[e|] w'] log'];
    simpl; [done|].
  rewrite Hnode, app_nil_r.
  destruct (node_remove node); [by rewrite remove_node_spec|done].
Qed.
End sweep_spec_props.

(** ** Termination on an acyclic forest *)

Lemma tc_flip {A} (R R' : relation A) (x y : A) :
  (∀ a b, R a b → R' b a) → tc R x y → tc R' y x.
Proof.
  intros HR. induction 1 as [x y Hxy|x y z Hxy _ IH].
  - apply tc_once. by apply HR.
  - eapply tc_r; [exact IH|]. by apply HR.
Qed.

Lemma NoDup_keys_length (nodes : gmap string treeNode) (l : list string) :
  NoDup l → (∀ q, q ∈ l → is_Some (nodes !! q)) → (length l ≤ size nodes)%nat.
Proof.
  intros Hnd Hin.
  rewrite <-length_map_to_list, <-(length_fmap fst).
  apply submseteq_length, NoDup_submseteq; [done|].
  intros q [n Hn]%Hin. apply list_elem_of_fmap. exists (q, n).
  split; [done|]. by apply elem_of_map_to_list.
Qed.

Section termination.
Context {L W : Type}.
Context `{!Leases L, !Snapshotter W, !Clock W, !LabelValidator}.

Lemma prune_each_finishes
    (prune : string → W * list string → outcome * (W * list string))
    (ns : list string) :
  (∀ n st, n ∈ ns → ∃ e, (prune n st).1 = Finished e) →
  ∀ st, ∃ e, (prune_each prune ns st).1 = Finished e.
Proof.
  induction ns as [|n ns IH]; intros Hn st; simpl; [by eexists|].
  destruct (Hn n st ltac:(left)) as [e He].
  destruct (prune n st) as [o st']. simpl in He. subst o.
  destruct e as [e|]; [by eexists|].
  apply IH. intros n' st'' Hn'. apply Hn. by right.
Qed.

Lemma pruneBranch_finishes (nodes : gmap string treeNode) :
  (∀ x, ¬ tc (child_edge nodes) x x) →
  (∀ p n c, nodes !! p = Some n → c ∈ node_children n → is_Some (nodes !! c)) →
  ∀ fuel path p st,
    NoDup (p :: path) →
    (∀ q, q ∈ path → tc (child_edge nodes) q p) →
    (∀ q, q ∈ p :: path → is_Some (nodes !! q)) →
    (size nodes ≤ fuel + length path)%nat →
    ∃ e, (pruneBranch fuel nodes p st).1 = Finished e.
Proof.
  intros Hacyc Hclosed.
  induction fuel as [|fuel IH]; intros path p st Hnd Hanc Hdom Hsize.
  - pose proof (NoDup_keys_length nodes (p :: path) Hnd Hdom) as Hlen.
    simpl in *. lia.
  - simpl. destruct (Hdom p ltac:(left)) as [node Hnode]. rewrite Hnode.
    assert (Hchildren : ∀ c st', c ∈ node_children node →
              ∃ e, (pruneBranch fuel nodes c st').1 = Finished e).
    { intros c st' Hc.
      assert (Hpc : child_edge nodes p c) by (by exists node).
      assert (Hall : ∀ q, q ∈ p :: path → tc (child_edge nodes) q c).
      { intros q [->|Hq]%elem_of_cons; [by apply tc_once|].
        eapply tc_r; [by apply Hanc|done]. }
      apply (IH (p :: path)).
      - apply NoDup_cons. split; [|done].
        intros Hin. apply (Hacyc c). by apply Hall.
      - done.
      - intros q [->|Hq]%elem_of_cons; [by eapply Hclosed|by apply Hdom].
      - simpl. lia. }
    destruct (prune_each_finishes (pruneBranch fuel nodes) (node_children node)
                (fun c st' Hc => Hchildren c st' Hc) st) as [e He].
    destruct (prune_each _ _ st) as [o st']. simpl in He. subst o.
    destruct e as [e|]; [by eexists|].
    destruct (node_remove node); [apply remove_node_finishes|by eexists].
Qed.

(** On the forest of an acyclic node list the whole sweep returns. *)
Lemma sweep_finishes (seen : gset string) (infos : list Info) :
  acyclic infos →
  let acc := foldl (walkTree_fn seen) ([], ∅) infos in
  ∀ fuel st, (size acc.2 ≤ fuel)%nat →
    ∃ e, (prune_each (pruneBranch fuel acc.2) acc.1 st).1 = Finished e.
Proof.
  intros Hacyc acc fuel st Hfuel.
  destruct (walkTree_forest_ok seen infos) as [Hroots Hedges].
  fold acc in Hroots, Hedges.
  apply prune_each_finishes. intros r st' Hr.
  apply (pruneBranch_finishes acc.2) with (path := []).
  - intros x Hx. apply (Hacyc x).
    apply (tc_flip (child_edge acc.2)); [|done].
    intros a b (n & Hn & Hb). by apply (Hedges a n b).
  - intros p n c Hn Hc. by apply (Hedges p n c).
  - apply NoDup_singleton.
  - intros q Hq. by apply elem_of_nil in Hq.
  - intros q ->%list_elem_of_singleton. by apply Hroots.
  - simpl. lia.
Qed.
End termination.

(** ** The collector: what a pass removes, in which order, and that it returns *)

Lemma acyclic_by_rank (rank : string → nat) (infos : list Info) :
  Forall (fun i => Parent i ≠ "" → rank (Parent i) < rank (Name i)) infos →
  acyclic infos.
Proof.
  intros Hrank.
  assert (Hlt : ∀ x y, tc (parent_of infos) x y → rank y < rank x).
  { assert (Hstep : ∀ x y, parent_of infos x y → rank y < rank x).
    { intros x y (i & Hi & <- & <- & Hne).
      rewrite Forall_forall in Hrank. by apply Hrank. }
    induction 1 as [x y Hxy|x y z Hxy _ IH]; [by apply Hstep|].
    apply Hstep in Hxy. lia. }
  intros x Hx%Hlt. lia.
Qed.

Section gc_claims.
Context {L W : Type}.
Context `{!Snapshotter W, !Clock W}.

Lemma garbageCollect_spares_live (fuel : nat) (sname : string) (s : St L W) :
  Forall (fun k => ¬ referenced (st_db s) sname k) (garbageCollect fuel sname s).2.
Proof.
  eapply Forall_impl; [apply garbageCollect_log_ok|].
  intros k Hk Href. by apply Hk, elem_of_mark.
Qed.

Lemma garbageCollect_sweep (fuel : nat) (sname : string) (s : St L W)
    infos w1 roots nodes order :
  drv_Walk (st_world s) = ((infos, None), w1) →
  foldl (walkTree_fn (mark (st_db s) sname)) ([], ∅) infos = (roots, nodes) →
  postorder_each (postorder fuel nodes) roots = Some order →
  let sw := sweep_spec (removable nodes order) w1 [] in
  prune_each (pruneBranch fuel nodes) roots (w1, []) = as_outcome sw ∧
  (garbageCollect fuel sname s).2 = sw.2 ∧
  (∀ e, sw.1.1 = Some e →
        (garbageCollect fuel sname s).1.1 = Some (0%Z, Some e)).
Proof.
  intros Hwalk Hforest Horder sw.
  assert (Hsweep : prune_each (pruneBranch fuel nodes) roots (w1, [])
                   = as_outcome sw).
  { apply (prune_each_spec nodes _ (postorder fuel nodes)); [|done].
    intros n o st _. apply pruneBranch_spec. }
  split; [done|].
  unfold garbageCollect, walkTree. rewrite Hwalk, Hforest, Hsweep.
  unfold as_outcome. destruct sw as [[[e|] w2] log]; simpl.
  - split; [done|]. by intros ? [= <-].
  - split; [|done].
    destruct drv_Cleanup as [cleanup|]; [|done].
    by destruct (cleanup w2) as [[e|] w3].
Qed.

(** C9: on a driver-reported node list whose parent relation has no
    cycle, garbage collection returns: there is a bound on the depth of the
    recursive pruning beyond which every run ends with a duration and an
    error value; the forest construction is a fold over the list. *)
Theorem C9_gc_returns_on_acyclic_forest (sname : string) (s : St L W) :
  acyclic (drv_Walk (st_world s)).1.1 →
  ∃ bound, ∀ fuel, bound <= fuel →
    ∃ d err, (garbageCollect fuel sname s).1.1 = Some (d, err).
Proof.
  intros Hacyc. unfold garbageCollect, walkTree.
  destruct (drv_Walk (st_world s)) as [[infos [e|]] w1]; simpl in Hacyc.
  { exists 0. intros fuel _. by eexists _, _. }
  pose proof (sweep_finishes (mark (st_db s) sname) infos Hacyc) as Hfin.
  destruct (foldl _ _ infos) as [roots nodes]. simpl in Hfin.
  exists (size nodes). intros fuel Hfuel.
  destruct (Hfin fuel (w1, []) Hfuel) as [e He].
  destruct (prune_each _ _ _) as [o [w2 log]]. simpl in He. subst o.
  destruct e as [e|]; [by eexists _, _|].
  destruct drv_Cleanup as [cleanup|]; [|by eexists _, _].
  destruct (cleanup w2) as [[e|] w3]; by eexists _, _.
Qed.

(** C4 (amended): when garbageCollect returns without error, the duration
    is the wall-clock time from its start to the end of the whole call,
    the driver's deferred Cleanup included when the driver has one; when
    it returns an error the duration is zero. *)
Theorem C4_duration_runs_through_cleanup (fuel : nat) (sname : string)
    (s s' : St L W) (d : Z) (err : option error) (log : list string) :
  garbageCollect fuel sname s = (Some (d, err), s', log) →
  match err with
  | Some _ => d = 0%Z
  | None =>
      d = (now (st_world s') - now (st_world s))%Z ∧
      st_world s' = match drv_Cleanup with
                    | Some cleanup => (cleanup (sweep_world fuel sname s)).2
                    | None => sweep_world fuel sname s
                    end
  end.
Proof.
  unfold garbageCollect, sweep_world.
  destruct (walkTree _ _) as [[[roots nodes]|e] w1]; [|by intros [= <- <- <- <-]].
  destruct (prune_each _ _ _) as [[[e|]| |] [w2 log']]; simpl;
    [by intros [= <- <- <- <-]| |done..].
  destruct drv_Cleanup as [cleanup|]; [|by intros [= <- <- <- <-]].
  destruct (cleanup w2) as [[e|] w3]; by intros [= <- <- <- <-].
Qed.
End gc_claims.

Section gc_examples.
Local Existing Instances memClock noLeases anyLabel.

(** C3: the sweep of a pass is the post-order sweep: with [order] the
    post-order of the subtrees under the roots, the loop over the roots
    calls Remove on exactly the removable nodes of [order], in that order,
    going on after a FailedPrecondition and ending with the error on any
    other one, which garbageCollect then returns with a zero duration;
    the unreferenced lineage A <- B <- C loses C, then B, then A. *)
Theorem C3_sweep_is_postorder :
  (∀ (L W : Type) (HS : Snapshotter W) (HC : Clock W)
     (fuel : nat) (sname : string) (s : St L W) infos w1 roots nodes order,
     drv_Walk (st_world s) = ((infos, None), w1) →
     foldl (walkTree_fn (mark (st_db s) sname)) ([], ∅) infos = (roots, nodes) →
     postorder_each (postorder fuel nodes) roots = Some order →
     let sw := sweep_spec (removable nodes order) w1 [] in
     prune_each (pruneBranch fuel nodes) roots (w1, []) = as_outcome sw ∧
     (garbageCollect fuel sname s).2 = sw.2 ∧
     (∀ e, sw.1.1 = Some e →
           (garbageCollect fuel sname s).1.1 = Some (0%Z, Some e))) ∧
  (∀ (W : Type) (HS : Snapshotter W) k rest (w w' : W) log,
     drv_Remove k w = (Some ErrFailedPrecondition, w') →
     sweep_spec (k :: rest) w log = sweep_spec rest w' (log ++ [k])) ∧
  (∀ (W : Type) (HS : Snapshotter W) k rest (w w' : W) log e,
     drv_Remove k w = (Some e, w') → e ≠ ErrFailedPrecondition →
     sweep_spec (k :: rest) w log = (Some e, w', log ++ [k])) ∧
  (let r := garbageCollect (Snapshotter0 := memDriver) 4 "ovl" unreferenced_st in
   r.2 = ["C"; "B"; "A"] ∧ mw_nodes (st_world r.1.2) = [] ∧
   ∃ d, r.1.1 = Some (d, None)).
Proof.
  split; [|split; [|split]].
  - intros. by apply garbageCollect_sweep with infos.
  - intros W HS k rest w w' log Hk. simpl. rewrite Hk. by rewrite decide_True.
  - intros W HS k rest w w' log e Hk Hne. simpl. rewrite Hk.
    by rewrite decide_False.
  - vm_compute. split; [done|]. split; [done|]. by eexists.
Qed.

Lemma C3_sweep_is_postorder_witness :
  let s := unreferenced_st in
  let nodes := (foldl (walkTree_fn (mark (st_db s) "ovl")) ([], ∅) lineage).2 in
  let sw := sweep_spec (Snapshotter0 := memDriver)
              (removable nodes ["C"; "B"; "A"]) (mkWorld lineage 1%Z) [] in
  prune_each (pruneBranch (Snapshotter0 := memDriver) 4 nodes) ["A"]
    (mkWorld lineage 1%Z, []) = as_outcome sw ∧
  (garbageCollect (Snapshotter0 := memDriver) 4 "ovl" s).2 = sw.2 ∧
  (∀ e, sw.1.1 = Some e →
        (garbageCollect (Snapshotter0 := memDriver) 4 "ovl" s).1.1
        = Some (0%Z, Some e)).
Proof.
  exact (proj1 C3_sweep_is_postorder unit memWorld memDriver memClock 4 "ovl"
           unreferenced_st lineage (mkWorld lineage 1%Z) ["A"] _ ["C"; "B"; "A"]
           eq_refl eq_refl eq_refl).
Defined.

Lemma C9_gc_returns_on_acyclic_forest_witness :
  ∃ bound, ∀ fuel, bound <= fuel →
    ∃ d err, (garbageCollect (Snapshotter0 := memDriver) fuel "ovl"
                unreferenced_st).1.1 = Some (d, err).
Proof.
  apply (C9_gc_returns_on_acyclic_forest (Snapshotter0 := memDriver)).
  apply (acyclic_by_rank lineage_rank).
  unfold lineage.
  repeat (apply Forall_cons; split); [..|by apply Forall_nil];
    intros Hne; cbn in Hne; try done; vm_compute; lia.
Defined.

(** Without the hypothesis the sweep need not return: on a forest in
    which a root is its own child the pruning runs out of any fuel. *)
Example sweep_of_cyclic_forest_never_returns (fuel : nat) :
  (garbageCollect (Snapshotter0 := memDriver) fuel "ovl"
     (emptySt (mkWorld self_parent 0%Z))).1.1 = None.
Proof.
  unfold garbageCollect, walkTree.
  cbn [drv_Walk memDriver mem_Walk emptySt st_world mw_nodes].
  set (acc := foldl _ _ self_parent).
  assert (Hacc : ∃ n, acc = (["A"], {["A" := n]}) ∧ node_children n = ["A"]).
  { eexists. split; [by vm_compute|done]. }
  destruct Hacc as (n & -> & Hn).
  assert (Hloop : ∀ f st, (pruneBranch (Snapshotter0 := memDriver) f
                             {["A" := n]} "A" st).1 = OutOfFuel).
  { induction f as [|f IH]; intros st; [done|].
    cbn [pruneBranch]. rewrite lookup_singleton_eq, Hn. cbn [prune_each].
    specialize (IH st).
    by destruct (pruneBranch f {["A" := n]} "A" st) as [[] st']. }
  cbn [prune_each]. specialize (Hloop fuel (mem_tick 1 (mkWorld self_parent 0%Z), [])).
  by destruct (pruneBranch fuel {["A" := n]} "A" _) as [[] [w2 log]].
Qed.

(** C2 (claim as stated fails): with only B referenced, the pass calls
    Remove on C and then on A, the unreferenced ancestor of B; a driver
    that does as it is told is left with B alone. *)
Lemma C2_counterexample_ancestor_removed :
  let strict := garbageCollect (Snapshotter0 := memDriver) 4 "ovl" ns2_keeps_B in
  let eager := garbageCollect (Snapshotter0 := eagerDriver) 4 "ovl" ns2_keeps_B in
  referenced (st_db ns2_keeps_B) "ovl" "B" ∧
  strict.2 = ["C"; "A"] ∧ eager.2 = ["C"; "A"] ∧
  (Name <$> mw_nodes (st_world eager.1.2)) = ["B"] ∧
  ¬ (("B" ∉ snd strict) ∧ ("A" ∉ snd strict)).
Proof.
  split.
  { split; [done|]. eexists "ns2", _, "other", _. split; [|split]; reflexivity. }
  split; [by vm_compute|]. split; [by vm_compute|]. split; [by vm_compute|].
  intros [_ HA]. apply HA.
  assert (Hlog : (garbageCollect (Snapshotter0 := memDriver) 4 "ovl" ns2_keeps_B).2
                 = ["C"; "A"]) by (by vm_compute).
  cbv zeta. rewrite Hlog. apply list_elem_of_In. simpl. tauto.
Qed.

(** C2 (amended): a pass never calls the driver's Remove on a backend key
    that a record of any namespace references.  With only B referenced in
    "ns2", Remove is called on C and on A and never on B; A, the
    unreferenced ancestor of B, stays because the driver refuses to remove
    a node that still has a child, a refusal the pass tolerates: it ends
    without error, C gone, A and B kept. *)
Theorem C2_gc_spares_referenced_keys :
  (∀ (L W : Type) (HS : Snapshotter W) (HC : Clock W)
     (fuel : nat) (sname : string) (s : St L W),
     Forall (fun k => ¬ referenced (st_db s) sname k)
       (garbageCollect fuel sname s).2) ∧
  (let r := garbageCollect (Snapshotter0 := memDriver) 4 "ovl" ns2_keeps_B in
   r.2 = ["C"; "A"] ∧
   (drv_Remove (Snapshotter := memDriver) "A" (mkWorld (take 2 lineage) 2%Z)).1
     = Some ErrFailedPrecondition ∧
   (Name <$> mw_nodes (st_world r.1.2)) = ["A"; "B"] ∧
   ∃ d, r.1.1 = Some (d, None)).
Proof.
  split.
  - intros. apply garbageCollect_spares_live.
  - vm_compute. split; [done|]. split; [done|]. split; [done|]. by eexists.
Qed.

(** C4 (claim as stated fails): a driver whose deferred Cleanup takes
    five ticks; mark, discovery and sweep take one tick, the duration
    returned is six. *)
Lemma C4_counterexample_cleanup_is_timed :
  let s := emptySt (mkWorld [] 0%Z) in
  (garbageCollect (Snapshotter0 := cleaningDriver) 1 "ovl" s).1.1
    = Some (6%Z, None) ∧
  (now (sweep_world (Snapshotter0 := cleaningDriver) 1 "ovl" s)
   - now (st_world s))%Z = 1%Z ∧
  (garbageCollect (Snapshotter0 := cleaningDriver) 1 "ovl" s).1.1
    ≠ Some ((now (sweep_world (Snapshotter0 := cleaningDriver) 1 "ovl" s)
             - now (st_world s))%Z, None).
Proof. vm_compute. split; [done|]. split; [done|]. by intros [=]. Qed.

Lemma C4_duration_runs_through_cleanup_witness :
  let s := emptySt (mkWorld [] 0%Z) in
  6%Z = (now (mkWorld [] 6%Z) - now (st_world s))%Z ∧
  st_world (mkSt (st_db s) (mkWorld [] 6%Z) ∅) =
    match drv_Cleanup (Snapshotter := cleaningDriver) with
    | Some cleanup =>
        (cleanup (sweep_world (Snapshotter0 := cleaningDriver) 1 "ovl" s)).2
    | None => sweep_world (Snapshotter0 := cleaningDriver) 1 "ovl" s
    end.
Proof.
  exact (C4_duration_runs_through_cleanup (Snapshotter0 := cleaningDriver)
           1 "ovl" (emptySt (mkWorld [] 0%Z))
           (mkSt (mkStore ∅ tt) (mkWorld [] 6%Z) ∅) 6%Z None [] eq_refl).
Defined.
End gc_examples.

(** ** The store under the facade *)

Section store_props.
Context {L W : Type}.

Implicit Types (s : St L W) (b : SnapshotterBucket) (l : L) (w : W).

Lemma the_bucket_set_bucket s ns name b :
  the_bucket (set_bucket s ns name b) ns name = b.
Proof. unfold the_bucket, set_bucket. simpl. by rewrite lookup_insert_eq. Qed.

Lemma the_bucket_set_bucket_ne s ns name b ns' name' :
  (ns, name) ≠ (ns', name') →
  the_bucket (set_bucket s ns name b) ns' name' = the_bucket s ns' name'.
Proof.
  intros Hne. unfold the_bucket, set_bucket. simpl. by rewrite lookup_insert_ne.
Qed.

Lemma set_bucket_set_bucket s ns name b b' :
  set_bucket (set_bucket s ns name b) ns name b' = set_bucket s ns name b'.
Proof. unfold set_bucket, set_buckets. simpl. by rewrite insert_insert_eq. Qed.

Lemma lookup_set_bucket s ns name b :
  buckets (st_db (set_bucket s ns name b)) !! (ns, name) = Some b.
Proof. unfold set_bucket. simpl. by rewrite lookup_insert_eq. Qed.

Lemma lookup_set_bucket_ne s ns name b p :
  p ≠ (ns, name) →
  buckets (st_db (set_bucket s ns name b)) !! p = buckets (st_db s) !! p.
Proof. intros Hp. unfold set_bucket. simpl. by rewrite lookup_insert_ne. Qed.

Lemma the_bucket_lookup s ns name b :
  buckets (st_db s) !! (ns, name) = Some b → the_bucket s ns name = b.
Proof. unfold the_bucket. by intros ->. Qed.

Lemma the_bucket_with_world s w ns name :
  the_bucket (with_world s w) ns name = the_bucket s ns name.
Proof. done. Qed.

Lemma the_bucket_with_leases s l ns name :
  the_bucket (with_leases s l) ns name = the_bucket s ns name.
Proof. done. Qed.

Lemma set_bucket_with_world s w ns name b :
  set_bucket (with_world s w) ns name b = with_world (set_bucket s ns name b) w.
Proof. done. Qed.

Lemma set_bucket_with_leases s l ns name b :
  set_bucket (with_leases s l) ns name b = with_leases (set_bucket s ns name b) l.
Proof. done. Qed.

Lemma with_leases_with_world s w l :
  with_leases (with_world s w) l = with_world (with_leases s l) w.
Proof. done. Qed.

Lemma with_leases_with_leases s l l' :
  with_leases (with_leases s l) l' = with_leases s l'.
Proof. done. Qed.

Lemma with_world_with_world s w w' :
  with_world (with_world s w) w' = with_world s w'.
Proof. done. Qed.

Lemma st_world_with_world s w : st_world (with_world s w) = w.
Proof. done. Qed.

Lemma st_world_with_leases s l : st_world (with_leases s l) = st_world s.
Proof. done. Qed.

Lemma st_world_set_bucket s ns name b :
  st_world (set_bucket s ns name b) = st_world s.
Proof. done. Qed.

Lemma leases_with_leases s l : leases (st_db (with_leases s l)) = l.
Proof. done. Qed.

Lemma leases_with_world s w :
  leases (st_db (with_world s w)) = leases (st_db s).
Proof. done. Qed.

Lemma leases_set_bucket s ns name b :
  leases (st_db (set_bucket s ns name b)) = leases (st_db s).
Proof. done. Qed.

Lemma buckets_with_world s w :
  buckets (st_db (with_world s w)) = buckets (st_db s).
Proof. done. Qed.

Lemma buckets_with_leases s l :
  buckets (st_db (with_leases s l)) = buckets (st_db s).
Proof. done. Qed.

Lemma st_db_with_world s w : st_db (with_world s w) = st_db s.
Proof. done. Qed.

Lemma with_db_same s : with_db s (st_db s) = s.
Proof. by destruct s. Qed.

Lemma with_db_with_world s w db :
  with_db (with_world s w) db = with_world (with_db s db) w.
Proof. done. Qed.

Lemma st_db_with_db s db : st_db (with_db s db) = db.
Proof. done. Qed.
End store_props.

Create Rewrite HintDb st_norm.

Hint Rewrite @the_bucket_set_bucket @set_bucket_set_bucket @lookup_set_bucket
  @the_bucket_with_world @the_bucket_with_leases @set_bucket_with_world
  @set_bucket_with_leases @with_leases_with_world @with_leases_with_leases
  @with_world_with_world @st_world_with_world @st_world_with_leases
  @st_world_set_bucket @leases_with_leases @leases_with_world
  @leases_set_bucket @buckets_with_world @buckets_with_leases
  @st_db_with_world @st_db_with_db : st_norm.

Section tx_props.
Context {L W : Type}.
Context `{!Leases L, !Snapshotter W, !Clock W, !LabelValidator}.

Lemma update_err_db {A} (fn : M (St L W) A) s e s' :
  update fn s = (Err e, s') → st_db s' = st_db s.
Proof.
  unfold update. destruct (fn s) as [[a|e'] s'']; [done|]. by intros [= _ <-].
Qed.

Lemma update_ok {A} (fn : M (St L W) A) s a s' :
  update fn s = (Ok a, s') ↔ fn s = (Ok a, s').
Proof.
  unfold update. destruct (fn s) as [[a'|e'] s'']; [done|].
  split; intros [=].
Qed.

Lemma NamespaceRequired_run (ctx : Ctx) (s : St L W) :
  NamespaceRequired ctx s =
  match ctx_namespace ctx with
  | Some ns => if decide (ns = "") then (Err ErrFailedPrecondition, s) else (Ok ns, s)
  | None => (Err ErrFailedPrecondition, s)
  end.
Proof.
  unfold NamespaceRequired. destruct (ctx_namespace ctx); [|done].
  by case_decide.
Qed.

Lemma createSnapshotterBucket_run ns name (s : St L W) :
  createSnapshotterBucket ns name s
  = (Ok tt, set_bucket s ns name (the_bucket s ns name)).
Proof.
  unfold createSnapshotterBucket, the_bucket, set_bucket, set_buckets.
  destruct (buckets (st_db s) !! (ns, name)) as [b|] eqn:Hb; [|done].
  simpl. rewrite insert_id by done. by destruct s as [[? ?] ? ?].
Qed.

(** A failed Prepare or View leaves the store as it was. *)
Lemma createSnapshot_err_db sname ctx key parent readonly opts (s s' : St L W) e :
  createSnapshot sname ctx key parent readonly opts s = (Err e, s') →
  st_db s' = st_db s.
Proof.
  unfold createSnapshot, mbind, M_bind. rewrite NamespaceRequired_run.
  destruct (ctx_namespace ctx) as [ns|]; [|by intros [= _ <-]].
  case_decide; [by intros [= _ <-]|].
  unfold lift_result, lift_err.
  destruct (apply_opts opts emptyInfo) as [base|e0]; [|by intros [= _ <-]].
  destruct (validateSnapshot base); [by intros [= _ <-]|].
  apply update_err_db.
Qed.

(** On a name that is taken the call fails before it reaches the driver,
    and the whole state is the one it started from. *)
Lemma createSnapshot_exists sname ctx ns key parent readonly opts (s : St L W) b r :
  ctx_namespace ctx = Some ns → ns ≠ "" →
  buckets (st_db s) !! (ns, sname) = Some b →
  records b !! key = Some r →
  ∃ e, createSnapshot sname ctx key parent readonly opts s = (Err e, s) ∧
       (∀ base, apply_opts opts emptyInfo = Ok base →
                validateSnapshot base = None → e = ErrAlreadyExists).
Proof.
  intros Hns Hne Hb Hr.
  unfold createSnapshot, mbind, M_bind. rewrite NamespaceRequired_run, Hns.
  rewrite decide_False by done.
  unfold lift_result, lift_err.
  destruct (apply_opts opts emptyInfo) as [base|e0];
    [|exists e0; split; [done|by intros ? [=]]].
  destruct (validateSnapshot base) as [e1|] eqn:Hval;
    [exists e1; split; [done|intros ? [= <-]; congruence]|].
  exists ErrAlreadyExists. split; [|done].
  unfold update, createSnapshotterBucket, exists_to_AlreadyExists,
    bkt_CreateBucket. rewrite Hb. rewrite (the_bucket_lookup s ns sname b Hb), Hr.
  by rewrite with_db_same.
Qed.
End tx_props.

Section update_props.
Context {L W : Type}.
Context `{!Leases L, !Snapshotter W, !Clock W, !LabelValidator}.

Lemma alter_lookup_insert (f : record → record) (m : gmap string record) k r :
  m !! k = Some r → alter f k m = <[k := f r]> m.
Proof.
  intros Hk. rewrite <-(insert_id m k r Hk) at 1. apply alter_insert_eq.
Qed.

Lemma validateSnapshot_labels (i j : Info) :
  Labels i = Labels j → validateSnapshot i = validateSnapshot j.
Proof. unfold validateSnapshot. by intros ->. Qed.

(** What a successful Update writes and returns. *)
Lemma Update_run sname ctx ns (info : Info) paths (s : St L W) b r labels dinfo w' :
  ctx_namespace ctx = Some ns → ns ≠ "" → Name info ≠ "" →
  buckets (st_db s) !! (ns, sname) = Some b →
  records b !! Name info = Some r →
  update_labels paths (Labels info) (r_labels r) = Ok labels →
  validateSnapshot (mkInfo 0%N (Name info) "" labels 0%Z 0%Z) = None →
  drv_Stat (r_name r) (st_world s) = (Ok dinfo, w') →
  let ts := now (st_world s) in
  let r' := mkRecord (r_name r) (r_parent r) (r_children r) (r_created r) ts labels in
  let local := mkInfo 0%N (Name info) (r_parent r) labels (r_created r) ts in
  Update sname ctx info paths s
  = (Ok (overlayInfo dinfo local).1,
     with_world
       (set_bucket s ns sname
          (mkBucket (sequence b) (<[Name info := r']> (records b)))) w').
Proof.
  intros Hns Hne Hname Hb Hr Hlabels Hval Hstat ts r' local.
  unfold Update, mbind, M_bind. rewrite NamespaceRequired_run, Hns.
  rewrite !decide_False by done.
  unfold update, getSnapshotterBucket. rewrite Hb, Hr.
  unfold lift_result, ReadLabels, ReadTimestamps. rewrite Hlabels.
  unfold lift_err.
  rewrite (validateSnapshot_labels _ (mkInfo 0%N (Name info) "" labels 0%Z 0%Z))
    by done.
  rewrite Hval. unfold time_Now, rec_update. cbn [fst snd].
  autorewrite with st_norm.
  rewrite (the_bucket_lookup s ns sname b Hb). cbn [sequence records].
  rewrite alter_alter_eq, (alter_lookup_insert _ _ _ r Hr).
  unfold mret, M_ret, driver. autorewrite with st_norm. cbn [fst snd].
  rewrite Hstat. reflexivity.
Qed.

(** Stat on a record that is there: the driver's info under the local
    record; on one that is not: NotFound. *)
Lemma Stat_found sname ctx ns key (s : St L W) b r :
  ctx_namespace ctx = Some ns → ns ≠ "" →
  buckets (st_db s) !! (ns, sname) = Some b →
  records b !! key = Some r →
  Stat sname ctx key s =
  match drv_Stat (r_name r) (st_world s) with
  | (Ok info, w) =>
      (Ok (overlayInfo info
             (mkInfo 0%N key (r_parent r) (r_labels r)
                (r_created r) (r_updated r))).1, with_world s w)
  | (Err e, w) => (Err e, with_world s w)
  end.
Proof.
  intros Hns Hne Hb Hr.
  unfold Stat, mbind, M_bind. rewrite NamespaceRequired_run, Hns.
  rewrite decide_False by done.
  unfold view, getSnapshotterBucket. rewrite Hb, Hr.
  unfold lift_result, read_local, ReadLabels, ReadTimestamps.
  rewrite with_db_same. unfold driver. cbn [fst snd].
  by destruct (drv_Stat (r_name r) (st_world s)) as [[info|e] w].
Qed.

Lemma Stat_missing sname ctx ns key (s : St L W) :
  ctx_namespace ctx = Some ns → ns ≠ "" →
  records (the_bucket s ns sname) !! key = None →
  Stat sname ctx key s = (Err ErrNotFound, s).
Proof.
  intros Hns Hne Hr.
  unfold Stat, mbind, M_bind. rewrite NamespaceRequired_run, Hns.
  rewrite decide_False by done.
  unfold view, getSnapshotterBucket. unfold the_bucket in Hr.
  destruct (buckets (st_db s) !! (ns, sname)) as [b|]; simpl in Hr.
  - rewrite Hr. unfold fail. by rewrite with_db_same.
  - unfold fail. by rewrite with_db_same.
Qed.
End update_props.

(** ** Inversion of the transaction steps *)

Section step_inversion.
Context {L W : Type}.
Context `{!Leases L, !Snapshotter W, !Clock W, !LabelValidator}.

Implicit Types (s : St L W).

Lemma bind_ok_inv {A B} (m : M (St L W) A) (f : A → M (St L W) B) s b s' :
  (m ≫= f) s = (Ok b, s') → ∃ a s1, m s = (Ok a, s1) ∧ f a s1 = (Ok b, s').
Proof.
  unfold mbind, M_bind. destruct (m s) as [[a|e] s1]; [|done]. by exists a, s1.
Qed.

Lemma CreateBucket_ok_inv ns name key s a s1 :
  exists_to_AlreadyExists (bkt_CreateBucket ns name key) s = (Ok a, s1) →
  records (the_bucket s ns name) !! key = None ∧
  s1 = set_bucket s ns name
         (mkBucket (sequence (the_bucket s ns name))
            (<[key := emptyRecord]> (records (the_bucket s ns name)))).
Proof.
  unfold exists_to_AlreadyExists, bkt_CreateBucket.
  destruct (records (the_bucket s ns name) !! key); [done|]. by intros [= _ <-].
Qed.

Lemma DeleteBucket_ok_inv ns name key s a s1 :
  bkt_DeleteBucket ns name key s = (Ok a, s1) →
  s1 = set_bucket s ns name
         (mkBucket (sequence (the_bucket s ns name))
            (delete key (records (the_bucket s ns name)))).
Proof.
  unfold bkt_DeleteBucket.
  destruct (records (the_bucket s ns name) !! key); [|done]. by intros [= _ <-].
Qed.

Lemma lease_ok_inv (f : L → result L) s a s1 :
  lease f s = (Ok a, s1) → ∃ l', s1 = with_leases s l'.
Proof.
  unfold lease. destruct (f (leases (st_db s))) as [l'|e]; [|done].
  intros [= _ <-]. by exists l'.
Qed.

Lemma driver_ok_inv {A} (f : W → result A * W) s a s1 :
  driver f s = (Ok a, s1) → ∃ w', s1 = with_world s w'.
Proof.
  unfold driver. destruct (f (st_world s)) as [r w']. intros [= _ <-]. by exists w'.
Qed.

Lemma driver_err_ok_inv (f : W → option error * W) s a s1 :
  driver_err f s = (Ok a, s1) → ∃ w', s1 = with_world s w'.
Proof.
  unfold driver_err. destruct (f (st_world s)) as [[e|] w']; [done|].
  intros [= _ <-]. by exists w'.
Qed.

Lemma rec_update_run ns name key f s :
  rec_update ns name key f s
  = (Ok tt, set_bucket s ns name
              (mkBucket (sequence (the_bucket s ns name))
                 (alter f key (records (the_bucket s ns name))))).
Proof. done. Qed.

Lemma NextSequence_run ns name s :
  bkt_NextSequence ns name s
  = (Ok (sequence (the_bucket s ns name) + 1)%N,
     set_bucket s ns name
       (mkBucket (sequence (the_bucket s ns name) + 1)%N
          (records (the_bucket s ns name)))).
Proof. done. Qed.

Lemma bind_run {A B} (m : M (St L W) A) (f : A → M (St L W) B) s a s1 :
  m s = (Ok a, s1) → (m ≫= f) s = f a s1.
Proof. unfold mbind, M_bind. by intros ->. Qed.
End step_inversion.

Ltac bind_inv H a s1 Hstep :=
  apply bind_ok_inv in H as (a & s1 & Hstep & H).

(** Run the definitional steps at the head of the computation in [H]. *)
Ltac run_steps H :=
  repeat first
    [ rewrite (bind_run _ _ _ _ _ (rec_update_run _ _ _ _ _)) in H
    | rewrite (bind_run _ _ _ _ _ (NextSequence_run _ _ _)) in H
    | rewrite (bind_run (time_Now) _ _ _ _ eq_refl) in H
    | rewrite (bind_run (bkt_Bucket _ _ _) _ _ _ _ eq_refl) in H
    | rewrite (bind_run (mret _) _ _ _ _ eq_refl) in H
    | progress autorewrite with st_norm in H
    | progress cbn [sequence records] in H ].

Section create_inversion.
Context {L W : Type}.
Context `{!Leases L, !Snapshotter W, !Clock W, !LabelValidator}.

(** A successful Prepare or View: the sequence of its bucket went up by
    one, the new record carries the key derived from it, and no other
    bucket changed. *)
Lemma createSnapshot_ok_inv sname ctx key parent readonly opts (s s' : St L W) m :
  createSnapshot sname ctx key parent readonly opts s = (Ok m, s') →
  ∃ ns, ctx_namespace ctx = Some ns ∧ ns ≠ "" ∧
    records (the_bucket s ns sname) !! key = None ∧
    ∃ recs', buckets (st_db s') !! (ns, sname)
             = Some (mkBucket (sequence (the_bucket s ns sname) + 1)%N recs') ∧
      (∀ p, p ≠ (ns, sname) → buckets (st_db s') !! p = buckets (st_db s) !! p) ∧
      (r_name <$> recs' !! key)
        = Some (createKey (sequence (the_bucket s ns sname) + 1)%N ns key).
Proof.
  unfold createSnapshot. intros Hrun.
  bind_inv Hrun ns0 s0 Hns. rewrite NamespaceRequired_run in Hns.
  destruct (ctx_namespace ctx) as [ns|]; [|done].
  destruct (decide (ns = "")) as [|Hne]; [done|]. injection Hns as <- <-.
  bind_inv Hrun base s0 Hopts. unfold lift_result in Hopts.
  injection Hopts as _ <-.
  bind_inv Hrun u s0 Hval. unfold lift_err in Hval.
  destruct (validateSnapshot base); [done|]. injection Hval as _ <-.
  rewrite update_ok in Hrun.
  exists ns. split; [done|]. split; [done|].
  rewrite (bind_run _ _ _ _ _ (createSnapshotterBucket_run _ _ _)) in Hrun.
  set (b := the_bucket s ns sname) in *.
  bind_inv Hrun u1 s1 Hcreate.
  apply CreateBucket_ok_inv in Hcreate as [Hfresh ->].
  autorewrite with st_norm in Hfresh, Hrun. split; [done|].
  bind_inv Hrun u2 s2 Hlease. apply lease_ok_inv in Hlease as [l' ->].
  autorewrite with st_norm in Hrun. cbn [sequence records] in Hrun.
  bind_inv Hrun bparent s3 Hparent.
  assert (Hs3 : ∃ recs3, s3 = with_leases (set_bucket s ns sname
                                (mkBucket (sequence b) recs3)) l' ∧
                         is_Some (recs3 !! key)).
  { destruct (decide (parent = "")) as [Hp|Hp].
    - injection Hparent as _ <-. eexists. split; [done|].
      rewrite lookup_insert_eq. eauto.
    - run_steps Hparent.
      destruct (<[key:=emptyRecord]> (records b) !! parent) as [pb|]; [|done].
      run_steps Hparent. injection Hparent as _ <-.
      autorewrite with st_norm. cbn [sequence records].
      eexists. split; [done|].
      apply lookup_alter_is_Some, lookup_alter_is_Some.
      rewrite lookup_insert_eq. eauto. }
  destruct Hs3 as (recs3 & -> & [r3 Hr3]). clear Hparent.
  run_steps Hrun.
  assert (Hfinal : ∃ w', s' = with_world (with_leases (set_bucket s ns sname
      (mkBucket (sequence b + 1)%N
         (alter (WriteLabels (Labels base)) key
            (alter (WriteTimestamps (now (st_world s)) (now (st_world s))) key
               (alter (put_name (createKey (sequence b + 1)%N ns key)) key recs3)))))
      l') w').
  { destruct readonly; apply driver_ok_inv in Hrun as [w' ->]; by exists w'. }
  destruct Hfinal as [w' ->]. clear Hrun.
  eexists. autorewrite with st_norm. split; [done|]. split.
  - intros p Hp. by apply lookup_set_bucket_ne.
  - rewrite !lookup_alter_eq, Hr3. done.
Qed.
End create_inversion.

Section commit_inversion.
Context {L W : Type}.
Context `{!Leases L, !Snapshotter W, !Clock W, !LabelValidator}.

Lemma getSnapshotterBucket_run ns name (s : St L W) :
  getSnapshotterBucket ns name s = (Ok (buckets (st_db s) !! (ns, name)), s).
Proof. done. Qed.

(** A successful Commit of an existing record [key] under [name]: the
    old record is gone and the new one carries a fresh backend key, the
    parent of the old record, the labels of the options and the commit time
    as both timestamps. *)
Lemma Commit_ok_inv sname ctx name key opts (s s' : St L W) ns b ob :
  ctx_namespace ctx = Some ns →
  buckets (st_db s) !! (ns, sname) = Some b →
  records b !! key = Some ob →
  Commit sname ctx name key opts s = (Ok tt, s') →
  ns ≠ "" ∧ records b !! name = None ∧
  ∃ base recs' r',
    apply_opts opts emptyInfo = Ok base ∧
    buckets (st_db s') !! (ns, sname) = Some (mkBucket (sequence b + 1)%N recs') ∧
    recs' !! key = None ∧
    recs' !! name = Some r' ∧
    r_name r' = createKey (sequence b + 1)%N ns name ∧
    r_parent r' = r_parent ob ∧
    r_labels r' = Labels base ∧
    r_created r' = now (st_world s) ∧
    r_updated r' = now (st_world s).
Proof.
  intros Hctx Hb Hob. unfold Commit. intros Hrun.
  bind_inv Hrun ns0 s0 Hns. rewrite NamespaceRequired_run, Hctx in Hns.
  destruct (decide (ns = "")) as [|Hne]; [done|]. injection Hns as <- <-.
  split; [done|].
  bind_inv Hrun base s0 Hopts. unfold lift_result in Hopts.
  injection Hopts as Hopts <-.
  bind_inv Hrun u s0 Hval. unfold lift_err in Hval.
  destruct (validateSnapshot base); [done|]. injection Hval as _ <-.
  rewrite update_ok in Hrun.
  rewrite (bind_run _ _ _ _ _ (getSnapshotterBucket_run _ _ _)), Hb in Hrun.
  pose proof (the_bucket_lookup s ns sname b Hb) as Hthe.
  bind_inv Hrun u1 s1 Hcreate.
  apply CreateBucket_ok_inv in Hcreate as [Hfresh ->].
  rewrite Hthe in Hfresh, Hrun. split; [done|].
  assert (Hkn : key ≠ name) by (intros ->; congruence).
  bind_inv Hrun u2 s2 Hlease. apply lease_ok_inv in Hlease as [l' ->].
  run_steps Hrun.
  rewrite lookup_insert_ne, Hob in Hrun by done.
  run_steps Hrun.
  bind_inv Hrun u3 s3 Hparent.
  set (nameKey := createKey (sequence b + 1)%N ns name) in *.
  assert (Hs3 : ∃ recs3 r3, s3 = with_leases (set_bucket s ns sname
                                (mkBucket (sequence b + 1)%N recs3)) l' ∧
                  recs3 !! name = Some r3 ∧ r_name r3 = nameKey ∧
                  r_parent r3 = r_parent ob).
  { destruct (decide (r_parent ob = "")) as [Hp|Hp].
    - injection Hparent as _ <-. eexists _, _. split; [done|].
      rewrite lookup_alter_eq, lookup_insert_eq.
      split; [reflexivity|]. simpl. by rewrite Hp.
    - run_steps Hparent.
      destruct (alter (put_name nameKey) name (<[name:=emptyRecord]> (records b))
                  !! r_parent ob) as [pb|]; [|done].
      run_steps Hparent. injection Hparent as _ <-.
      autorewrite with st_norm. cbn [sequence records].
      assert (Hr2 : ∃ r2,
                alter (children_put name) (r_parent ob)
                  (alter (children_create_delete key) (r_parent ob)
                     (alter (put_name nameKey) name
                        (<[name:=emptyRecord]> (records b)))) !! name = Some r2
                ∧ r_name r2 = nameKey).
      { destruct (decide (r_parent ob = name)) as [->|Hpn].
        - rewrite !lookup_alter_eq, lookup_insert_eq. by eexists.
        - rewrite !lookup_alter_ne, lookup_alter_eq, lookup_insert_eq by done.
          by eexists. }
      destruct Hr2 as (r2 & Hr2 & Hr2n).
      eexists _, (put_parent (r_parent ob) r2). split; [reflexivity|].
      by rewrite lookup_alter_eq, Hr2. }
  destruct Hs3 as (recs3 & r3 & -> & Hr3 & Hr3n & Hr3p). clear Hparent.
  run_steps Hrun.
  bind_inv Hrun u4 s4 Hdel. apply DeleteBucket_ok_inv in Hdel as ->.
  run_steps Hrun.
  bind_inv Hrun u5 s5 Hrel. apply lease_ok_inv in Hrel as [l'' ->].
  apply driver_err_ok_inv in Hrun as [w' ->].
  exists base. eexists _, _. split; [done|].
  autorewrite with st_norm. split; [done|].
  split; [by rewrite lookup_delete_eq|].
  rewrite lookup_delete_ne by done.
  rewrite !lookup_alter_eq, Hr3. split; [reflexivity|].
  cbn. by repeat split.
Qed.
End commit_inversion.

(** ** The field paths of Update *)

Lemma strip_prefix_app (p s : string) : strip_prefix p (p +:+ s) = Some s.
Proof.
  induction p as [|a p IH]; simpl; [done|]. by rewrite Ascii.eqb_refl.
Qed.

Lemma apply_fieldpaths_label_path (k : string) (rest : list string)
    (il local : option (gmap string string)) :
  apply_fieldpaths (("labels." +:+ k) :: rest) il local
  = apply_fieldpaths rest il
      (Some (<[k := default "" (il ≫= fun l => l !! k)]> (default ∅ local))).
Proof.
  cbn [apply_fieldpaths]. by rewrite (strip_prefix_app "labels." k).
Qed.

(** Paths of the form labels.<k> only add or overwrite keys, and each
    leaves under its key the value the supplied map has there, the empty
    string when it has none. *)
Lemma apply_fieldpaths_label_paths (paths : list string)
    (il : option (gmap string string)) (m : gmap string string) :
  Forall (fun p => ∃ k, p = "labels." +:+ k) paths →
  ∃ m', apply_fieldpaths paths il (Some m) = Ok (Some m') ∧
        (∀ k, is_Some (m !! k) → is_Some (m' !! k)) ∧
        (∀ k v, m' !! k = Some v →
                m !! k = Some v ∨ v = default "" (il ≫= fun l => l !! k)) ∧
        (∀ k, ("labels." +:+ k) ∈ paths →
              m' !! k = Some (default "" (il ≫= fun l => l !! k))).
Proof.
  revert m. induction paths as [|p paths IH]; intros m Hall.
  - exists m. split; [done|]. split; [done|]. split; [by left|].
    intros k Hk. by apply elem_of_nil in Hk.
  - apply Forall_cons in Hall as [[k0 ->] Hall].
    rewrite apply_fieldpaths_label_path. cbn [default from_option id].
    set (v0 := default "" (il ≫= fun l => l !! k0)).
    destruct (IH (<[k0 := v0]> m) Hall) as (m' & Hrun & Hkeep & Hfrom & Hset).
    exists m'. split; [done|]. split; [|split].
    + intros k Hk. apply Hkeep. rewrite lookup_insert.
      case_decide; [eauto|done].
    + intros k v Hv. destruct (Hfrom k v Hv) as [Hin|Hin]; [|by right].
      rewrite lookup_insert in Hin. case_decide as Hk; [|by left].
      subst k0. injection Hin as <-. by right.
    + intros k [Hk|Hk]%elem_of_cons; [|by apply Hset].
      apply (inj _) in Hk as ->.
      destruct (Hkeep k0) as [v Hv]; [rewrite lookup_insert_eq; eauto|].
      rewrite Hv. f_equal.
      destruct (Hfrom k0 v Hv) as [Hin|Hin]; [|done].
      rewrite lookup_insert_eq in Hin. by injection Hin.
Qed.

Lemma update_labels_label_paths (paths : list string)
    (il local : option (gmap string string)) :
  paths ≠ [] →
  Forall (fun p => ∃ k, p = "labels." +:+ k) paths →
  ∃ m', update_labels paths il local = Ok (Some m') ∧
        (∀ k, is_Some (default ∅ local !! k) → is_Some (m' !! k)) ∧
        (∀ k, ("labels." +:+ k) ∈ paths →
              m' !! k = Some (default "" (il ≫= fun l => l !! k))).
Proof.
  intros Hne Hall. destruct paths as [|p paths]; [done|].
  destruct (apply_fieldpaths_label_paths (p :: paths) il (default ∅ local) Hall)
    as (m' & Hrun & Hkeep & _ & Hset).
  exists m'. split; [|done].
  rewrite <-Hrun. unfold update_labels.
  apply Forall_cons in Hall as [[k0 ->] _].
  by rewrite !apply_fieldpaths_label_path.
Qed.

(** ** createKey is injective on namespaces without the separator *)

Lemma no_slash_split (a a' x x' : string) :
  no_slash a = true → no_slash a' = true →
  a +:+ "/" +:+ x = a' +:+ "/" +:+ x' → a = a' ∧ x = x'.
Proof.
  revert a'. induction a as [|c a IH]; intros [|c' a'] Ha Ha' Heq; simpl in *.
  - by injection Heq.
  - injection Heq as <- _. by rewrite Ascii.eqb_refl in Ha'.
  - injection Heq as -> _. by rewrite Ascii.eqb_refl in Ha.
  - injection Heq as -> Heq.
    destruct (Ascii.eqb c' "/"); [done|].
    destruct (IH a' Ha Ha' Heq) as [-> ->]. done.
Qed.

Lemma pretty_N_char_no_slash (x : N) : Ascii.eqb (pretty_N_char x) "/" = false.
Proof. unfold pretty_N_char. by repeat case_match. Qed.

Lemma pretty_N_go_no_slash (x : N) (s : string) :
  no_slash s = true → no_slash (pretty_N_go x s) = true.
Proof.
  revert s. induction (N.lt_wf_0 x) as [x _ IH]; intros s Hs.
  destruct (decide (x = 0)%N) as [->|Hx]; [by rewrite pretty_N_go_0|].
  rewrite pretty_N_go_step by lia.
  apply IH; [apply N.div_lt; lia|].
  simpl. by rewrite pretty_N_char_no_slash.
Qed.

Lemma pretty_N_no_slash (x : N) : no_slash (pretty x) = true.
Proof.
  unfold pretty, pretty_N. case_decide; [done|]. by apply pretty_N_go_no_slash.
Qed.

Lemma createKey_inj (id id' : N) (ns ns' key key' : string) :
  no_slash ns = true → no_slash ns' = true →
  createKey id ns key = createKey id' ns' key' →
  id = id' ∧ ns = ns' ∧ key = key'.
Proof.
  intros Hns Hns' Heq. unfold createKey in Heq.
  apply no_slash_split in Heq as [-> Heq]; [|done..].
  apply no_slash_split in Heq as [Hid ->]; [|apply pretty_N_no_slash..].
  by apply (inj pretty) in Hid as ->.
Qed.

(** With a separator inside the namespace two triples give one string. *)
Example createKey_slash_in_namespace :
  createKey 1 "a" "1/x" = createKey 1 "a/1" "x".
Proof. reflexivity. Qed.

(** ** Sequence counters never go down *)

Section mono_props.
Context {L W : Type}.
Context `{!Leases L, !Snapshotter W, !Clock W, !LabelValidator}.

Implicit Types (s : St L W).

Lemma seq_le_refl s : seq_le s s.
Proof. intros ns name. lia. Qed.

Lemma seq_le_trans s1 s2 s3 : seq_le s1 s2 → seq_le s2 s3 → seq_le s1 s3.
Proof. intros H12 H23 ns name. specialize (H12 ns name). specialize (H23 ns name). lia. Qed.

Lemma seq_le_same_db s s' : st_db s' = st_db s → seq_le s s'.
Proof. intros Hdb ns name. unfold the_bucket. rewrite Hdb. lia. Qed.

Lemma seq_le_set_bucket s ns name b :
  (sequence (the_bucket s ns name) <= sequence b)%N →
  seq_le s (set_bucket s ns name b).
Proof.
  intros Hb ns' name'. destruct (decide ((ns, name) = (ns', name'))) as [[= <- <-]|Hne].
  - by rewrite the_bucket_set_bucket.
  - rewrite the_bucket_set_bucket_ne by done. lia.
Qed.

Lemma mono_same {A} (m : M (St L W) A) :
  (∀ s, st_db (m s).2 = st_db s) → mono m.
Proof. intros Hm s. by apply seq_le_same_db. Qed.

Lemma mono_bind {A B} (m : M (St L W) A) (f : A → M (St L W) B) :
  mono m → (∀ a, mono (f a)) → mono (m ≫= f).
Proof.
  intros Hm Hf s. unfold mbind, M_bind. specialize (Hm s).
  destruct (m s) as [[a|e] s1]; [|done].
  eapply seq_le_trans; [exact Hm|apply Hf].
Qed.

Lemma mono_update {A} (m : M (St L W) A) : mono m → mono (update m).
Proof.
  intros Hm s. unfold update. specialize (Hm s).
  destruct (m s) as [[a|e] s1]; [done|]. by apply seq_le_same_db.
Qed.

Lemma mono_view {A} (m : M (St L W) A) : mono (view m).
Proof. intros s. unfold view. destruct (m s) as [r s1]. by apply seq_le_same_db. Qed.

Lemma mono_exists {A} (m : M (St L W) A) : mono m → mono (exists_to_AlreadyExists m).
Proof.
  intros Hm s. unfold exists_to_AlreadyExists. specialize (Hm s).
  destruct (m s) as [[a|[]] s1]; done.
Qed.

Lemma mono_ret {A} (a : A) : mono (mret a : M (St L W) A).
Proof. by apply mono_same. Qed.

Lemma mono_fail {A} e : mono (fail e : M (St L W) A).
Proof. by apply mono_same. Qed.

Lemma mono_lift_result {A} (r : result A) : mono (lift_result r : M (St L W) A).
Proof. by apply mono_same. Qed.

Lemma mono_lift_err o : mono (lift_err o : M (St L W) unit).
Proof. apply mono_same. intros s. unfold lift_err. by destruct o. Qed.

Lemma mono_NamespaceRequired ctx : mono (NamespaceRequired ctx : M (St L W) string).
Proof.
  apply mono_same. intros s. rewrite NamespaceRequired_run.
  destruct (ctx_namespace ctx); [|done]. by case_decide.
Qed.

Lemma mono_driver {A} (f : W → result A * W) : mono (driver f : M (St L W) A).
Proof.
  apply mono_same. intros s. unfold driver. by destruct (f (st_world s)).
Qed.

Lemma mono_driver_err (f : W → option error * W) : mono (driver_err f : M (St L W) unit).
Proof.
  apply mono_same. intros s. unfold driver_err.
  by destruct (f (st_world s)) as [[e|] w].
Qed.

Lemma mono_lease (f : L → result L) : mono (lease f : M (St L W) unit).
Proof.
  intros s ns name. unfold lease.
  destruct (f (leases (st_db s))); simpl; [rewrite the_bucket_with_leases|]; lia.
Qed.

Lemma mono_time_Now : mono (time_Now : M (St L W) Z).
Proof. by apply mono_same. Qed.

Lemma mono_mark_dirty sname : mono (mark_dirty sname : M (St L W) unit).
Proof. by apply mono_same. Qed.

Lemma mono_getSnapshotterBucket ns name : mono (getSnapshotterBucket ns name : M (St L W) _).
Proof. by apply mono_same. Qed.

Lemma mono_bkt_Bucket ns name key : mono (bkt_Bucket ns name key : M (St L W) _).
Proof. by apply mono_same. Qed.

Lemma mono_createSnapshotterBucket ns name : mono (createSnapshotterBucket ns name : M (St L W) _).
Proof.
  intros s. rewrite createSnapshotterBucket_run. simpl.
  apply seq_le_set_bucket. lia.
Qed.

Lemma mono_CreateBucket ns name key : mono (bkt_CreateBucket ns name key : M (St L W) _).
Proof.
  intros s. unfold bkt_CreateBucket.
  destruct (records (the_bucket s ns name) !! key); [apply seq_le_refl|].
  apply seq_le_set_bucket. simpl. lia.
Qed.

Lemma mono_DeleteBucket ns name key : mono (bkt_DeleteBucket ns name key : M (St L W) _).
Proof.
  intros s. unfold bkt_DeleteBucket.
  destruct (records (the_bucket s ns name) !! key); [|apply seq_le_refl].
  apply seq_le_set_bucket. simpl. lia.
Qed.

Lemma mono_NextSequence ns name : mono (bkt_NextSequence ns name : M (St L W) _).
Proof. intros s. apply seq_le_set_bucket. simpl. lia. Qed.

Lemma mono_rec_update ns name key f : mono (rec_update ns name key f : M (St L W) _).
Proof. intros s. apply seq_le_set_bucket. simpl. lia. Qed.
End mono_props.

Create HintDb mono.

#[export] Hint Resolve mono_ret mono_fail mono_lift_result mono_lift_err
  mono_NamespaceRequired mono_driver mono_driver_err mono_lease mono_time_Now
  mono_mark_dirty mono_getSnapshotterBucket mono_bkt_Bucket
  mono_createSnapshotterBucket mono_CreateBucket mono_DeleteBucket
  mono_NextSequence mono_rec_update mono_view : mono.

Ltac solve_mono :=
  repeat first
    [ apply mono_bind; [|intros ?]
    | apply mono_update
    | apply mono_exists
    | solve [eauto with mono]
    | match goal with
      | |- @mono _ _ _ (match ?x with _ => _ end) => destruct x
      end ].

Section ops_mono.
Context {L W : Type}.
Context `{!Leases L, !Snapshotter W, !Clock W, !LabelValidator}.

Lemma createSnapshot_mono sname ctx key parent readonly opts :
  mono (createSnapshot sname ctx key parent readonly opts : M (St L W) _).
Proof. unfold createSnapshot. solve_mono. Qed.

Lemma Commit_mono sname ctx name key opts :
  mono (Commit sname ctx name key opts : M (St L W) _).
Proof. unfold Commit. solve_mono. Qed.

Lemma Remove_mono sname ctx key : mono (Remove sname ctx key : M (St L W) _).
Proof. unfold Remove. solve_mono. Qed.

Lemma Update_mono sname ctx info paths :
  mono (Update sname ctx info paths : M (St L W) _).
Proof. unfold Update. solve_mono. Qed.
End ops_mono.

(** ** Keys issued along a sequence of calls *)

Section issued_props.
Context {L W : Type}.
Context `{!Leases L, !Clock W, !LabelValidator}.

Lemma issued_ok_mono (s s' : St L W) log :
  seq_le s s' → issued_ok s log → issued_ok s' log.
Proof.
  intros Hle [Hnd Hlog]. split; [done|].
  intros sn bk Hin. destruct (Hlog sn bk Hin) as (ns & id & key & -> & Hns & Hid).
  exists ns, id, key. split; [done|]. split; [done|].
  specialize (Hle ns sn). lia.
Qed.

Lemma run_call_issued_ok (c : call W) (acc : St L W * list (string * string)) :
  no_slash (call_namespace c) = true →
  issued_ok acc.1 acc.2 → issued_ok (run_call acc c).1 (run_call acc c).2.
Proof.
  destruct acc as [s log]. intros Hslash Hok.
  destruct c as [rc ctx key parent ro opts|rc ctx name key opts|rc ctx key
                |rc ctx info paths]; simpl in *.
  - pose proof (createSnapshot_mono (Snapshotter0 := rc_driver rc)
                  (rc_name rc) ctx key parent ro opts s) as Hmono.
    destruct (createSnapshot _ _ _ _ _ _ s) as [[m|e] s'] eqn:Hrun; simpl in *;
      [|by eapply issued_ok_mono].
    apply createSnapshot_ok_inv in Hrun
      as (ns & Hctx & Hne & Hfresh & recs' & Hb' & Hother & Hname).
    unfold call_namespace in Hslash. simpl in Hslash. rewrite Hctx in *. simpl in *.
    assert (Hkey : getKey s' ns (rc_name rc) key
                   = createKey (sequence (the_bucket s ns (rc_name rc)) + 1)%N ns key).
    { unfold getKey. rewrite Hb'. simpl.
      destruct (recs' !! key) as [r|]; [|done]. by injection Hname. }
    rewrite Hkey.
    destruct (issued_ok_mono s s' log Hmono Hok) as [Hnd Hlog].
    destruct Hok as [_ Hlog0].
    split.
    + apply NoDup_app. split; [done|]. split; [|apply NoDup_singleton].
      intros [sn bk] Hin [= -> ->]%list_elem_of_singleton.
      destruct (Hlog0 _ _ Hin) as (ns' & id & key' & Heq & Hns' & Hid).
      apply createKey_inj in Heq as (<- & <- & _); [|done..]. lia.
    + intros sn bk [Hin|[= -> ->]%list_elem_of_singleton]%elem_of_app;
        [by apply Hlog|].
      eexists ns, _, key. split; [done|]. split; [done|].
      rewrite (the_bucket_lookup s' ns (rc_name rc) _ Hb'). simpl. lia.
  - eapply issued_ok_mono; [|done]. apply (Commit_mono (Snapshotter0 := rc_driver rc)).
  - eapply issued_ok_mono; [|done].
    apply Remove_mono.
  - eapply issued_ok_mono; [|done]. apply (Update_mono (Snapshotter0 := rc_driver rc)).
Qed.

Lemma run_calls_issued_ok (cs : list (call W)) (s : St L W) :
  Forall (fun c => no_slash (call_namespace c) = true) cs →
  issued_ok (run_calls cs s).1 (run_calls cs s).2.
Proof.
  intros Hall. unfold run_calls.
  apply (foldl_invariant (fun acc => issued_ok acc.1 acc.2)).
  - split; [apply NoDup_nil_2|]. intros sn bk Hin. by apply elem_of_nil in Hin.
  - intros acc c Hc. apply run_call_issued_ok.
    rewrite Forall_forall in Hall. by apply Hall.
Qed.
End issued_props.

(** ** The facade: Commit, Prepare and View, Update, and the keys they issue *)

Section facade_claims.
Context {L W : Type}.
Context `{!Leases L, !Snapshotter W, !Clock W, !LabelValidator}.

(** C5 (amended): after a successful Commit of the existing record [key]
    under [name], Stat of [key] fails with NotFound, and Stat of [name]
    returns the driver's info for the new backend key overlaid with the
    parent of the old record, the labels passed to Commit and the time of
    the Commit as both timestamps. *)
Theorem C5_commit_then_stat sname ctx name key opts (s s' : St L W) ns b ob :
  ctx_namespace ctx = Some ns →
  buckets (st_db s) !! (ns, sname) = Some b →
  records b !! key = Some ob →
  Commit sname ctx name key opts s = (Ok tt, s') →
  Stat sname ctx key s' = (Err ErrNotFound, s') ∧
  ∃ base, apply_opts opts emptyInfo = Ok base ∧
    let local := mkInfo 0%N name (r_parent ob) (Labels base)
                   (now (st_world s)) (now (st_world s)) in
    Stat sname ctx name s' =
    match drv_Stat (createKey (sequence b + 1)%N ns name) (st_world s') with
    | (Ok info, w) => (Ok (overlayInfo info local).1, with_world s' w)
    | (Err e, w) => (Err e, with_world s' w)
    end.
Proof.
  intros Hctx Hb Hob Hrun.
  destruct (Commit_ok_inv _ _ _ _ _ _ _ _ _ _ Hctx Hb Hob Hrun)
    as (Hne & Hfresh & base & recs' & r' & Hopts & Hb' & Hkey & Hname
        & Hrn & Hrp & Hrl & Hrc & Hru).
  split.
  - apply (Stat_missing sname ctx ns); [done..|].
    by rewrite (the_bucket_lookup s' ns sname _ Hb').
  - exists base. split; [done|]. cbv zeta.
    rewrite (Stat_found sname ctx ns name s' _ r' Hctx Hne Hb' Hname).
    by rewrite Hrn, Hrp, Hrl, Hrc, Hru.
Qed.

(** C7: Prepare and View are atomic: whenever the call fails, at any
    step, the driver's own Prepare or View included, the store is the one
    the call started from; on a name that is taken the call fails, with
    AlreadyExists once the options and labels are accepted, and the whole
    state, the original record included, is unchanged. *)
Theorem C7_create_is_atomic sname ctx key parent readonly opts (s : St L W) :
  (∀ e s', createSnapshot sname ctx key parent readonly opts s = (Err e, s') →
           st_db s' = st_db s) ∧
  (∀ ns b r, ctx_namespace ctx = Some ns → ns ≠ "" →
     buckets (st_db s) !! (ns, sname) = Some b →
     records b !! key = Some r →
     ∃ e, createSnapshot sname ctx key parent readonly opts s = (Err e, s) ∧
          (∀ base, apply_opts opts emptyInfo = Ok base →
                   validateSnapshot base = None → e = ErrAlreadyExists)).
Proof.
  split.
  - intros e s'. apply createSnapshot_err_db.
  - intros ns b r. apply createSnapshot_exists.
Qed.

(** C10 (amended): on an existing record, Update with field paths that
    are all of the form labels.<k> keeps every label key the record had
    and sets each named key to the value the supplied map has for it, the
    empty string when it has none; when the labels are accepted and the
    driver's Stat answers, the call succeeds and the record holds that map.
    The bare path labels, like an empty path list, replaces the map by the
    supplied one. *)
Theorem C10_label_paths_keep_keys :
  (∀ sname ctx ns (info : Info) paths (s : St L W) b r,
     ctx_namespace ctx = Some ns → ns ≠ "" → Name info ≠ "" →
     buckets (st_db s) !! (ns, sname) = Some b →
     records b !! Name info = Some r →
     paths ≠ [] →
     Forall (fun p => ∃ k, p = "labels." +:+ k) paths →
     ∃ m', update_labels paths (Labels info) (r_labels r) = Ok (Some m') ∧
       (∀ k, is_Some (default ∅ (r_labels r) !! k) → is_Some (m' !! k)) ∧
       (∀ k, ("labels." +:+ k) ∈ paths →
             (Labels info ≫= fun l => l !! k) = None → m' !! k = Some "") ∧
       (∀ dinfo w',
          validateSnapshot (mkInfo 0%N (Name info) "" (Some m') 0%Z 0%Z) = None →
          drv_Stat (r_name r) (st_world s) = (Ok dinfo, w') →
          ∃ res s', Update sname ctx info paths s = (Ok res, s') ∧
                    record_labels s' ns sname (Name info) = Some m')) ∧
  (∀ il local, update_labels ["labels"] il local = Ok il) ∧
  (∀ il local, update_labels [] il local = Ok il).
Proof.
  split; [|by split].
  intros sname ctx ns info paths s b r Hctx Hne Hname Hb Hr Hpaths Hall.
  destruct (update_labels_label_paths paths (Labels info) (r_labels r) Hpaths Hall)
    as (m' & Hrun & Hkeep & Hset).
  exists m'. split; [done|]. split; [done|]. split.
  - intros k Hk Hnone. by rewrite (Hset k Hk), Hnone.
  - intros dinfo w' Hval Hstat.
    rewrite (Update_run sname ctx ns info paths s b r (Some m') dinfo w') by done.
    eexists _, _. split; [done|].
    unfold record_labels. autorewrite with st_norm. simpl.
    by rewrite lookup_insert_eq.
Qed.
End facade_claims.

Section call_claims.
Context {L W : Type}.
Context `{!Leases L, !Clock W, !LabelValidator}.

(** C6 (amended): along every sequence of calls on the snapshotters of
    one database, in namespaces without the separator "/", the successful
    Prepare and View calls of one snapshotter name receive pairwise
    distinct backend keys, a name re-created after its Remove included:
    no (snapshotter name, backend key) pair is issued twice. *)
Theorem C6_keys_distinct_per_snapshotter (cs : list (call W)) (s : St L W) :
  Forall (fun c => no_slash (call_namespace c) = true) cs →
  NoDup (run_calls cs s).2 ∧
  ∀ i j sn k1 k2,
    (run_calls cs s).2 !! i = Some (sn, k1) →
    (run_calls cs s).2 !! j = Some (sn, k2) →
    i ≠ j → k1 ≠ k2.
Proof.
  intros Hall. destruct (run_calls_issued_ok cs s Hall) as [Hnd _].
  split; [done|].
  intros i j sn k1 k2 Hi Hj Hij ->. apply Hij.
  by eapply NoDup_lookup.
Qed.
End call_claims.

Section facade_examples.
Local Existing Instances memDriver memClock noLeases anyLabel.

(** C5 (claim as stated fails): Update left "active" with the label
    env=prod, created at 10 and updated at 11; after Commit at 12, Stat of
    "release" returns no labels and 12 for both timestamps. *)
Lemma C5_counterexample_commit_resets :
  let before := (Stat "ovl" ns1 "active" active_updated).1 in
  let after := (Stat "ovl" ns1 "release" release_committed).1 in
  before = Ok (mkInfo 2%N "active" "" (Some {["env" := "prod"]}) 10%Z 11%Z) ∧
  (Commit "ovl" ns1 "release" "active" [] active_updated).1 = Ok tt ∧
  after = Ok (mkInfo 3%N "release" "" None 12%Z 12%Z) ∧
  ¬ (∃ i j, before = Ok i ∧ after = Ok j ∧ Labels j = Labels i ∧
            Created j = Created i ∧ Updated j = Updated i).
Proof.
  assert (Hb : (Stat "ovl" ns1 "active" active_updated).1
               = Ok (mkInfo 2%N "active" "" (Some {["env" := "prod"]}) 10%Z 11%Z))
    by (by vm_compute).
  assert (Ha : (Stat "ovl" ns1 "release" release_committed).1
               = Ok (mkInfo 3%N "release" "" None 12%Z 12%Z))
    by (by vm_compute).
  cbv zeta. rewrite Hb, Ha.
  split; [done|]. split; [by vm_compute|]. split; [done|].
  intros (i & j & [= <-] & [= <-] & Hl & _). discriminate Hl.
Qed.

Lemma C5_commit_then_stat_witness :
  Stat "ovl" ns1 "active" release_committed = (Err ErrNotFound, release_committed) ∧
  ∃ base, apply_opts [] emptyInfo = Ok base ∧
    let local := mkInfo 0%N "release" "" (Labels base)
                   (now (st_world active_updated))
                   (now (st_world active_updated)) in
    Stat "ovl" ns1 "release" release_committed =
    match drv_Stat (createKey (1 + 1)%N "ns1" "release")
            (st_world release_committed) with
    | (Ok info, w) => (Ok (overlayInfo info local).1, with_world release_committed w)
    | (Err e, w) => (Err e, with_world release_committed w)
    end.
Proof.
  apply (C5_commit_then_stat "ovl" ns1 "release" "active" [] active_updated
           release_committed "ns1"
           (mkBucket 1%N
              {["active" := mkRecord "ns1/1/active" "" None 10%Z 11%Z
                              (Some {["env" := "prod"]})]})
           (mkRecord "ns1/1/active" "" None 10%Z 11%Z (Some {["env" := "prod"]})));
    by vm_compute.
Defined.

Lemma C7_create_is_atomic_witness :
  st_db (createSnapshot "ovl" ns1 "s1" "" false [] driver_has_key).2
    = st_db driver_has_key ∧
  ∃ e, createSnapshot "ovl" ns1 "s1" "" true [] s1_labelled = (Err e, s1_labelled) ∧
       (∀ base, apply_opts [] emptyInfo = Ok base →
                validateSnapshot base = None → e = ErrAlreadyExists).
Proof.
  split.
  - apply (proj1 (C7_create_is_atomic "ovl" ns1 "s1" "" false [] driver_has_key)
             ErrAlreadyExists).
    by vm_compute.
  - apply (proj2 (C7_create_is_atomic "ovl" ns1 "s1" "" true [] s1_labelled)
             "ns1"
             (mkBucket 1%N
                {["s1" := mkRecord "ns1/1/s1" "" None 10%Z 10%Z
                            (Some {["k" := "v"]})]})
             (mkRecord "ns1/1/s1" "" None 10%Z 10%Z (Some {["k" := "v"]})));
      by vm_compute.
Defined.

(** C10 (claim as stated fails): the record "s1" has the label k=v; an
    Update with the field path labels and no labels in the supplied info
    succeeds and leaves the record without the key k. *)
Lemma C10_counterexample_labels_path_deletes :
  let r := Update "ovl" ns1 (mkInfo 0%N "s1" "" None 0%Z 0%Z) ["labels"]
             s1_labelled in
  (record_labels s1_labelled "ns1" "ovl" "s1" ≫= fun m => m !! "k") = Some "v" ∧
  (∃ i, r.1 = Ok i) ∧
  (record_labels r.2 "ns1" "ovl" "s1" ≫= fun m => m !! "k") = None.
Proof. vm_compute. split; [done|]. split; [by eexists|done]. Qed.

Lemma C10_label_paths_keep_keys_witness :
  ∃ m', update_labels ["labels.env"] None (Some {["k" := "v"]}) = Ok (Some m') ∧
    (∀ k, is_Some (default ∅ (Some ({["k" := "v"]} : gmap string string)) !! k) →
          is_Some (m' !! k)) ∧
    (∀ k, ("labels." +:+ k) ∈ ["labels.env"] →
          ((None : option (gmap string string)) ≫= fun l => l !! k) = None →
          m' !! k = Some "") ∧
    (∀ dinfo w',
       validateSnapshot (mkInfo 0%N "s1" "" (Some m') 0%Z 0%Z) = None →
       drv_Stat "ns1/1/s1" (st_world s1_labelled) = (Ok dinfo, w') →
       ∃ res s', Update "ovl" ns1 (mkInfo 0%N "s1" "" None 0%Z 0%Z)
                   ["labels.env"] s1_labelled = (Ok res, s') ∧
                 record_labels s' "ns1" "ovl" "s1" = Some m').
Proof.
  apply (proj1 C10_label_paths_keep_keys "ovl" ns1 "ns1"
           (mkInfo 0%N "s1" "" None 0%Z 0%Z) ["labels.env"] s1_labelled
           (mkBucket 1%N
              {["s1" := mkRecord "ns1/1/s1" "" None 10%Z 10%Z
                          (Some {["k" := "v"]})]})
           (mkRecord "ns1/1/s1" "" None 10%Z 10%Z (Some {["k" := "v"]})));
    try by vm_compute.
  apply Forall_singleton. by exists "env".
Defined.
End facade_examples.

Section call_examples.
Local Existing Instances pairClock noLeases anyLabel.

(** C6 (claim as stated fails): two snapshotters of one database, each
    with its own driver; Prepare of "a" in namespace "ns1" on both issues
    the same backend key string twice. *)
Lemma C6_counterexample_key_shared_across_snapshotters :
  let log := (run_calls [CallCreate overlayfs ns1 "a" "" false [];
                         CallCreate native ns1 "a" "" false []] two_drivers).2 in
  log = [("overlayfs", "ns1/1/a"); ("native", "ns1/1/a")] ∧ ¬ NoDup (log.*2).
Proof.
  assert (Hlog : (run_calls [CallCreate overlayfs ns1 "a" "" false [];
                             CallCreate native ns1 "a" "" false []] two_drivers).2
                 = [("overlayfs", "ns1/1/a"); ("native", "ns1/1/a")])
    by (by vm_compute).
  cbv zeta. rewrite Hlog. split; [done|].
  simpl. intros [Hnotin _]%NoDup_cons. apply Hnotin. left.
Qed.

Lemma C6_keys_distinct_per_snapshotter_witness :
  let cs := [CallCreate overlayfs ns1 "a" "" false [];
             CallRemove overlayfs ns1 "a";
             CallCreate overlayfs ns1 "a" "" false [];
             CallCreate overlayfs ns1 "b" "a" true []] in
  NoDup (run_calls cs two_drivers).2 ∧
  ∀ i j sn k1 k2,
    (run_calls cs two_drivers).2 !! i = Some (sn, k1) →
    (run_calls cs two_drivers).2 !! j = Some (sn, k2) →
    i ≠ j → k1 ≠ k2.
Proof.
  apply (C6_keys_distinct_per_snapshotter
           [CallCreate overlayfs ns1 "a" "" false [];
            CallRemove overlayfs ns1 "a";
            CallCreate overlayfs ns1 "a" "" false [];
            CallCreate overlayfs ns1 "b" "a" true []] two_drivers).
  repeat (apply Forall_cons; split; [reflexivity|]). by apply Forall_nil.
Defined.

(** The keys of that run: the name "a" re-created after its Remove
    received a key of its own. *)
Example keys_after_recreate :
  (run_calls [CallCreate overlayfs ns1 "a" "" false [];
              CallRemove overlayfs ns1 "a";
              CallCreate overlayfs ns1 "a" "" false [];
              CallCreate overlayfs ns1 "b" "a" true []] two_drivers).2
  = [("overlayfs", "ns1/1/a"); ("overlayfs", "ns1/2/a"); ("overlayfs", "ns1/3/b")].
Proof. by vm_compute. Qed.
End call_examples.

(** ** Walk *)

Global Instance key_le_trans : Transitive key_le.
Proof. intros x y z. unfold key_le. apply transitivity. Qed.

Global Instance key_le_total : Total key_le.
Proof. intros x y. unfold key_le. apply total, _. Qed.

Lemma cursor_entries_perm (b : SnapshotterBucket) :
  cursor_entries b ≡ₚ map_to_list (records b).
Proof. apply merge_sort_Permutation. Qed.

Lemma cursor_entries_sorted (b : SnapshotterBucket) :
  StronglySorted key_le (cursor_entries b).
Proof. apply StronglySorted_merge_sort; apply _. Qed.

Lemma cursor_entries_NoDup (b : SnapshotterBucket) :
  NoDup (cursor_entries b).*1.
Proof. rewrite cursor_entries_perm. apply NoDup_fst_map_to_list. Qed.

Lemma String_le_empty (k : string) : String.le k "" → k = "".
Proof.
  unfold String.le, String.leb. destruct k; [done|]. simpl. done.
Qed.

(** In a sorted run of distinct keys, what stands before a key is
    strictly below it. *)
Lemma sorted_before (pre : list (string * record)) e cur :
  StronglySorted key_le (pre ++ e :: cur) → NoDup (pre ++ e :: cur).*1 →
  Forall (fun x => ¬ String.le e.1 x.1) pre.
Proof.
  intros Hs Hnd. apply Forall_forall. intros x Hx Hle.
  assert (Hxe : key_le x e).
  { apply StronglySorted_app_1_elem_of with (x1 := x) (x2 := e) in Hs;
      [done|done|left]. }
  assert (Heq : x.1 = e.1) by (by apply (anti_symm String.le)).
  rewrite fmap_app in Hnd. apply NoDup_app in Hnd as (_ & Hdisj & _).
  apply (Hdisj x.1); [by apply list_elem_of_fmap_2|].
  rewrite Heq. simpl. left.
Qed.

Lemma seek_spec (pre : list (string * record)) e cur :
  StronglySorted key_le (pre ++ e :: cur) → NoDup (pre ++ e :: cur).*1 →
  seek e.1 (pre ++ e :: cur) = e :: cur.
Proof.
  intros Hs Hnd. pose proof (sorted_before pre e cur Hs Hnd) as Hpre.
  clear Hs Hnd. induction pre as [|x pre IH]; simpl.
  - by rewrite decide_True.
  - apply Forall_cons in Hpre as [Hx Hpre]. rewrite decide_False by done.
    by apply IH.
Qed.

Lemma key_after_nonempty (pre : list (string * record)) e cur :
  StronglySorted key_le (pre ++ e :: cur) → NoDup (pre ++ e :: cur).*1 →
  pre ≠ [] → e.1 ≠ "".
Proof.
  intros Hs Hnd Hne He. pose proof (sorted_before pre e cur Hs Hnd) as Hpre.
  destruct pre as [|x pre]; [done|].
  apply Forall_cons in Hpre as [Hx _]. apply Hx. rewrite He.
  unfold String.le, String.leb. simpl. by destruct (x.1).
Qed.

Section walk_props.
Context {L W : Type}.
Context `{!Leases L, !Snapshotter W, !Clock W, !LabelValidator}.

Lemma collect_spec (acc : list infoPair) (cur : list (string * record)) :
  (length acc <= batchSize)%nat →
  collect acc cur
  = Ok (acc ++ (entry_pair <$> take (batchSize - length acc) cur),
        next_key (drop (batchSize - length acc) cur)).
Proof.
  revert acc. induction cur as [|[k r] cur IH]; intros acc Hacc.
  - simpl. by rewrite take_nil, drop_nil, app_nil_r.
  - cbn [collect]. destruct (decide (batchSize <= length acc)) as [Hfull|Hroom].
    + replace (batchSize - length acc)%nat with 0%nat by lia.
      simpl. by rewrite app_nil_r.
    + unfold ReadTimestamps, ReadLabels.
      rewrite IH by (rewrite length_app; simpl; unfold batchSize in *; lia).
      rewrite length_app. simpl.
      replace (batchSize - length acc)%nat
        with (S (batchSize - (length acc + 1)))%nat
        by (unfold batchSize in *; lia).
      simpl. by rewrite <-app_assoc.
Qed.

Lemma collect_batch (cur : list (string * record)) pairs k :
  collect [] cur = Ok (pairs, k) → (length pairs <= batchSize)%nat.
Proof.
  rewrite collect_spec by (simpl; lia). intros [= <- _].
  cbn [app]. rewrite length_fmap, length_take. cbn [length]. unfold batchSize. lia.
Qed.

Lemma visit_pairs_spec {V} (fn : Info → V → option error * V)
    (entries : list (string * record)) (w : W) (v : V) :
  visit_pairs fn (entry_pair <$> entries) w v = walk_entries_spec fn entries w v.
Proof.
  revert w v. induction entries as [|[k r] entries IH]; intros w v; [done|].
  cbn [fmap list_fmap visit_pairs walk_entries_spec entry_pair pair_of bkey pinfo
       fst snd].
  destruct (drv_Stat (r_name r) w) as [[info|e] w'].
  - destruct (fn _ v) as [[e|] v']; [done|apply IH].
  - unfold IsNotFound. destruct (decide (e = ErrNotFound)).
    + rewrite bool_decide_eq_true_2 by done. apply IH.
    + by rewrite bool_decide_eq_false_2.
Qed.

Lemma walk_entries_spec_app {V} (fn : Info → V → option error * V)
    (a b : list (string * record)) (w : W) (v : V) :
  walk_entries_spec fn (a ++ b) w v =
  match walk_entries_spec fn a w v with
  | (None, w', v') => walk_entries_spec fn b w' v'
  | r => r
  end.
Proof.
  revert w v. induction a as [|[k r] a IH]; intros w v; [done|].
  cbn [app walk_entries_spec].
  destruct (drv_Stat (r_name r) w) as [[info|e] w'].
  - destruct (fn _ v) as [[e|] v']; [done|apply IH].
  - case_decide; [apply IH|done].
Qed.

(** The loop of Walk, from any point the cursor can stand on. *)
Lemma Walk_loop_spec {V} (fn : Info → V → option error * V)
    (sname ns : string) (bkt : SnapshotterBucket) :
  ∀ fuel pre cur lastKey (s : St L W) v,
    buckets (st_db s) !! (ns, sname) = Some bkt →
    cursor_entries bkt = pre ++ cur →
    (lastKey = "" ∧ pre = []) ∨ (lastKey ≠ "" ∧ lastKey = next_key cur ∧ cur ≠ []) →
    (length cur < fuel)%nat →
    Walk_loop fuel sname ns fn lastKey s v
    = Some (let '(e, w', v') := walk_entries_spec fn cur (st_world s) v in
            (e, with_world s w', v')).
Proof.
  pose proof (cursor_entries_sorted bkt) as Hsorted.
  pose proof (cursor_entries_NoDup bkt) as Hnodup.
  induction fuel as [|fuel IH]; intros pre cur lastKey s v Hb Hcur Hat Hfuel;
    [lia|].
  cbn [Walk_loop]. rewrite Hb.
  assert (Hseek : (if decide (lastKey = "") then cursor_entries bkt
                   else seek lastKey (cursor_entries bkt)) = cur).
  { destruct Hat as [[-> ->]|(Hne & -> & Hcne)].
    - by rewrite decide_True.
    - rewrite decide_False by done. destruct cur as [|e cur]; [done|].
      rewrite Hcur in *. by apply seek_spec. }
  rewrite Hseek, collect_spec by (simpl; lia).
  cbn [length app]. rewrite Nat.sub_0_r.
  replace (walk_entries_spec fn cur (st_world s) v)
    with (walk_entries_spec fn (take batchSize cur ++ drop batchSize cur)
            (st_world s) v) by (by rewrite take_drop).
  rewrite walk_entries_spec_app, visit_pairs_spec.
  destruct (walk_entries_spec fn (take batchSize cur) (st_world s) v)
    as [[[e|] w'] v']; [done|].
  destruct (drop batchSize cur) as [|e' rest] eqn:Hdrop.
  - cbn [next_key walk_entries_spec]. by rewrite decide_True.
  - assert (He' : e'.1 ≠ "").
    { apply (key_after_nonempty (pre ++ take batchSize cur) e' rest).
      - by rewrite <-app_assoc, <-Hdrop, take_drop, <-Hcur.
      - by rewrite <-app_assoc, <-Hdrop, take_drop, <-Hcur.
      - intros [_ Htake]%app_eq_nil.
        assert (Hlen : length (take batchSize cur) = 0%nat) by (by rewrite Htake).
        assert (Hdl : length (drop batchSize cur) = S (length rest))
          by (by rewrite Hdrop).
        rewrite length_take in Hlen. rewrite length_drop in Hdl.
        unfold batchSize in *. lia. }
    cbn [next_key]. rewrite decide_False by done.
    rewrite (IH (pre ++ take batchSize cur) (e' :: rest) e'.1 (with_world s w') v').
    + rewrite st_world_with_world.
      destruct (walk_entries_spec fn (e' :: rest) w' v') as [[e w''] v''].
      by rewrite with_world_with_world.
    + done.
    + by rewrite <-app_assoc, <-Hdrop, take_drop.
    + right. by split.
    + assert (Hdl : length (drop batchSize cur) = S (length rest))
        by (by rewrite Hdrop).
      rewrite length_drop in Hdl. simpl. unfold batchSize in *. lia.
Qed.
End walk_props.

Section walk_claims.
Context {L W : Type}.
Context `{!Leases L, !Snapshotter W, !Clock W, !LabelValidator}.

(** C8: on a fixed bucket, of any size, Walk is the walk over the records
    in the byte order of their names, each record met exactly once: the
    driver's Stat is asked per record, NotFound skips the record, any other
    error of that Stat or of the visitor ends the walk with that error, and
    the loop returns once it has fuel for one round per record; no
    transaction collects more than 100 pairs. *)
Theorem C8_walk_in_name_order {V} (fn : Info → V → option error * V)
    sname ctx ns (s : St L W) (v : V) bkt :
  ctx_namespace ctx = Some ns → ns ≠ "" →
  buckets (st_db s) !! (ns, sname) = Some bkt →
  let entries := cursor_entries bkt in
  StronglySorted key_le entries ∧ NoDup entries.*1 ∧
  entries ≡ₚ map_to_list (records bkt) ∧
  (∀ fuel, (length entries < fuel)%nat →
     Walk fuel sname ctx fn s v
     = Some (let '(e, w', v') := walk_entries_spec fn entries (st_world s) v in
             (e, with_world s w', v'))) ∧
  (∀ cur pairs k, collect [] cur = Ok (pairs, k) →
                  (length pairs <= batchSize)%nat).
Proof.
  intros Hctx Hne Hb entries.
  split; [apply cursor_entries_sorted|].
  split; [apply cursor_entries_NoDup|].
  split; [apply cursor_entries_perm|].
  split; [|apply collect_batch].
  intros fuel Hfuel. unfold Walk. rewrite NamespaceRequired_run, Hctx.
  rewrite decide_False by done.
  apply (Walk_loop_spec fn sname ns bkt fuel [] entries "" s v); auto.
Qed.
End walk_claims.

Section walk_examples.
Local Existing Instances memDriver memClock noLeases anyLabel.

Lemma C8_walk_in_name_order_witness :
  let entries := cursor_entries (the_bucket many_records "ns1" "ovl") in
  StronglySorted key_le entries ∧ NoDup entries.*1 ∧
  entries ≡ₚ map_to_list (records (the_bucket many_records "ns1" "ovl")) ∧
  (∀ fuel, (length entries < fuel)%nat →
     Walk fuel "ovl" ns1 note_name many_records []
     = Some (let '(e, w', v') :=
               walk_entries_spec note_name entries (st_world many_records) [] in
             (e, with_world many_records w', v'))) ∧
  (∀ cur pairs k, collect [] cur = Ok (pairs, k) →
                  (length pairs <= batchSize)%nat).
Proof.
  apply (C8_walk_in_name_order note_name "ovl" ns1 "ns1" many_records []
           (the_bucket many_records "ns1" "ovl")); [done|done|].
  by vm_compute.
Defined.

(** 120 records, two transactions: every name is shown once, in byte
    order, the second batch starting where the first stopped. *)
Example walk_many_records :
  ∃ s' names, Walk 3 "ovl" ns1 note_name many_records [] = Some (None, s', names) ∧
    length names = 120%nat ∧
    take 5 names = ["s0"; "s1"; "s10"; "s100"; "s101"] ∧
    names = (cursor_entries (the_bucket many_records "ns1" "ovl")).*1.
Proof.
  eexists _, _. split; [by vm_compute|]. by vm_compute.
Qed.
End walk_examples.
(** ** What the transactions of the facade leave in the store *)

Section strong_steps.
Context {L W : Type}.
Context `{!Leases L, !Snapshotter W, !Clock W, !LabelValidator}.

Implicit Types (s : St L W).

Lemma lease_ok_eq (f : L → result L) s a s1 :
  lease f s = (Ok a, s1) →
  ∃ l', f (leases (st_db s)) = Ok l' ∧ s1 = with_leases s l'.
Proof.
  unfold lease. destruct (f (leases (st_db s))) as [l'|e]; [|done].
  intros [= _ <-]. by exists l'.
Qed.

Lemma lease_run (f : L → result L) s l' :
  f (leases (st_db s)) = Ok l' → lease f s = (Ok tt, with_leases s l').
Proof. unfold lease. by intros ->. Qed.

Lemma driver_ok_eq {A} (f : W → result A * W) s a s1 :
  driver f s = (Ok a, s1) →
  ∃ w', f (st_world s) = (Ok a, w') ∧ s1 = with_world s w'.
Proof.
  unfold driver. destruct (f (st_world s)) as [r w']. intros [= -> <-].
  by exists w'.
Qed.

Lemma driver_err_ok_eq (f : W → option error * W) s a s1 :
  driver_err f s = (Ok a, s1) →
  ∃ w', f (st_world s) = (None, w') ∧ s1 = with_world s w'.
Proof.
  unfold driver_err. destruct (f (st_world s)) as [[e|] w']; [done|].
  intros [= _ <-]. by exists w'.
Qed.

Lemma with_db_rollback s ns name b l w :
  with_db (with_world (with_leases (set_bucket s ns name b) l) w) (st_db s)
  = with_world s w.
Proof. by destruct s. Qed.

Lemma with_world_same s : with_world s (st_world s) = s.
Proof. by destruct s. Qed.

Lemma the_bucket_empty s ns name :
  buckets (st_db s) !! (ns, name) = None → the_bucket s ns name = emptyBucket.
Proof. unfold the_bucket. by intros ->. Qed.
End strong_steps.

Section create_run.
Context {L W : Type}.
Context `{!Leases L, !Snapshotter W, !Clock W, !LabelValidator}.

(** The backend key of the parent that Prepare and View hand to the
    driver: the parent is looked up after the new record was created. *)
Lemma createSnapshot_ok_full sname ctx key parent readonly opts (s s' : St L W) m :
  createSnapshot sname ctx key parent readonly opts s = (Ok m, s') →
  ∃ ns base l' w',
    ctx_namespace ctx = Some ns ∧ ns ≠ "" ∧
    apply_opts opts emptyInfo = Ok base ∧ validateSnapshot base = None ∧
    records (the_bucket s ns sname) !! key = None ∧
    addSnapshotLease ctx sname key (leases (st_db s)) = Ok l' ∧
    (parent = "" ∨ is_Some (<[key := emptyRecord]> (records (the_bucket s ns sname)) !! parent)) ∧
    (if readonly then drv_View else drv_Prepare)
      (createKey (sequence (the_bucket s ns sname) + 1)%N ns key)
      (if decide (parent = "") then ""
       else default "" (r_name <$> <[key := emptyRecord]>
                                     (records (the_bucket s ns sname)) !! parent))
      opts (st_world s) = (Ok m, w') ∧
    s' = with_world (with_leases (set_bucket s ns sname
           (mkBucket (sequence (the_bucket s ns sname) + 1)%N
              (create_records (records (the_bucket s ns sname)) key parent
                 (createKey (sequence (the_bucket s ns sname) + 1)%N ns key)
                 (now (st_world s)) (Labels base)))) l') w'.
Proof.
  unfold createSnapshot. intros Hrun.
  bind_inv Hrun ns0 s0 Hns. rewrite NamespaceRequired_run in Hns.
  destruct (ctx_namespace ctx) as [ns|]; [|done].
  destruct (decide (ns = "")) as [|Hne]; [done|]. injection Hns as <- <-.
  bind_inv Hrun base s0 Hopts. unfold lift_result in Hopts.
  injection Hopts as Hopts <-.
  bind_inv Hrun u s0 Hval. unfold lift_err in Hval.
  destruct (validateSnapshot base) eqn:Hvalid; [done|]. injection Hval as _ <-.
  rewrite update_ok in Hrun.
  rewrite (bind_run _ _ _ _ _ (createSnapshotterBucket_run _ _ _)) in Hrun.
  set (b := the_bucket s ns sname) in *.
  bind_inv Hrun u1 s1 Hcreate.
  apply CreateBucket_ok_inv in Hcreate as [Hfresh ->].
  autorewrite with st_norm in Hfresh, Hrun.
  bind_inv Hrun u2 s2 Hlease. apply lease_ok_eq in Hlease as (l' & Hlease & ->).
  autorewrite with st_norm in Hlease, Hrun. cbn [sequence records] in Hrun.
  exists ns, base, l'.
  bind_inv Hrun bparent s3 Hparent.
  unfold create_records.
  destruct (decide (parent = "")) as [Hp|Hp].
  - injection Hparent as <- <-. run_steps Hrun.
    assert (Hfinal : ∃ w', (if readonly then drv_View else drv_Prepare)
        (createKey (sequence b + 1)%N ns key) "" opts (st_world s) = (Ok m, w') ∧
        s' = with_world (with_leases (set_bucket s ns sname
      (mkBucket (sequence b + 1)%N
         (alter (WriteLabels (Labels base)) key
            (alter (WriteTimestamps (now (st_world s)) (now (st_world s))) key
               (alter (put_name (createKey (sequence b + 1)%N ns key)) key
                  (<[key:=emptyRecord]> (records b)))))))
      l') w').
    { destruct readonly; apply driver_ok_eq in Hrun as (w' & Hd & ->);
        autorewrite with st_norm in Hd; by exists w'. }
    destruct Hfinal as (w' & Hd & ->). exists w'.
    repeat split; try done. by left.
  - run_steps Hparent.
    destruct (<[key:=emptyRecord]> (records b) !! parent) as [pb|] eqn:Hpb; [|done].
    run_steps Hparent. injection Hparent as <- <-.
    run_steps Hrun.
    assert (Hfinal : ∃ w', (if readonly then drv_View else drv_Prepare)
        (createKey (sequence b + 1)%N ns key) (r_name pb) opts (st_world s) = (Ok m, w') ∧
        s' = with_world (with_leases (set_bucket s ns sname
      (mkBucket (sequence b + 1)%N
         (alter (WriteLabels (Labels base)) key
            (alter (WriteTimestamps (now (st_world s)) (now (st_world s))) key
               (alter (put_name (createKey (sequence b + 1)%N ns key)) key
                  (alter (put_parent parent) key
                     (alter (children_put key) parent
                        (<[key:=emptyRecord]> (records b)))))))))
      l') w').
    { destruct readonly; apply driver_ok_eq in Hrun as (w' & Hd & ->);
        autorewrite with st_norm in Hd; by exists w'. }
    destruct Hfinal as (w' & Hd & ->). exists w'.
    unfold b in Hpb. rewrite Hpb.
    split_and!; try done. right; eauto.
Qed.
End create_run.

Section create_forward.
Context {L W : Type}.
Context `{!Leases L, !Snapshotter W, !Clock W, !LabelValidator}.

(** Prepare and View once the namespace, the options, the labels, the
    name, the lease and the parent are accepted: the driver decides. *)
Lemma createSnapshot_run sname ctx ns key parent readonly opts (s : St L W) base l' :
  ctx_namespace ctx = Some ns → ns ≠ "" →
  apply_opts opts emptyInfo = Ok base → validateSnapshot base = None →
  records (the_bucket s ns sname) !! key = None →
  addSnapshotLease ctx sname key (leases (st_db s)) = Ok l' →
  parent = "" ∨
    is_Some (<[key := emptyRecord]> (records (the_bucket s ns sname)) !! parent) →
  let b := the_bucket s ns sname in
  let bkey := createKey (sequence b + 1)%N ns key in
  let bparent := if decide (parent = "") then ""
                 else default "" (r_name <$> <[key := emptyRecord]> (records b) !! parent) in
  createSnapshot sname ctx key parent readonly opts s =
  match (if readonly then drv_View else drv_Prepare) bkey bparent opts (st_world s) with
  | (Ok m, w') =>
      (Ok m, with_world (with_leases (set_bucket s ns sname
               (mkBucket (sequence b + 1)%N
                  (create_records (records b) key parent bkey
                     (now (st_world s)) (Labels base)))) l') w')
  | (Err e, w') => (Err e, with_world s w')
  end.
Proof.
  intros Hns Hne Hopts Hval Hfresh Hlease Hparent b bkey bparent.
  fold b in Hfresh, Hparent.
  unfold createSnapshot.
  rewrite (bind_run _ _ s ns s) by (by rewrite NamespaceRequired_run, Hns, decide_False).
  rewrite (bind_run _ _ s base s) by (by unfold lift_result; rewrite Hopts).
  rewrite (bind_run _ _ s tt s) by (by unfold lift_err; rewrite Hval).
  unfold update.
  rewrite (bind_run _ _ _ _ _ (createSnapshotterBucket_run _ _ _)).
  fold b.
  rewrite (bind_run _ _ _ tt (set_bucket s ns sname
             (mkBucket (sequence b) (<[key := emptyRecord]> (records b))))).
  2:{ unfold exists_to_AlreadyExists, bkt_CreateBucket.
      autorewrite with st_norm. by rewrite Hfresh. }
  rewrite (bind_run _ _ _ _ _ (lease_run _ (set_bucket s ns sname _) l' Hlease)).
  unfold create_records. subst bparent.
  destruct (decide (parent = "")) as [Hp|Hp].
  - rewrite (bind_run (mret _) _ _ _ _ eq_refl).
    rewrite (bind_run _ _ _ _ _ (NextSequence_run _ _ _)).
    autorewrite with st_norm. cbn [sequence records].
    rewrite (bind_run _ _ _ _ _ (rec_update_run _ _ _ _ _)).
    autorewrite with st_norm. cbn [sequence records].
    rewrite (bind_run (time_Now) _ _ _ _ eq_refl).
    autorewrite with st_norm.
    rewrite (bind_run _ _ _ _ _ (rec_update_run _ _ _ _ _)).
    autorewrite with st_norm. cbn [sequence records].
    rewrite (bind_run _ _ _ _ _ (rec_update_run _ _ _ _ _)).
    autorewrite with st_norm. cbn [sequence records].
    fold bkey.
    destruct readonly; unfold driver; autorewrite with st_norm;
      match goal with |- context [?f bkey "" opts (st_world s)] =>
        destruct (f bkey "" opts (st_world s)) as [[m|e] w'] end;
      try done; autorewrite with st_norm; try done;
      by rewrite ?with_db_with_world, ?with_db_rollback.
  - destruct Hparent as [|[pb Hpb]]; [done|]. rewrite Hpb.
    cbn [fmap option_fmap option_map default from_option id].
    rewrite (bind_run _ _ _ (r_name pb) (with_leases (set_bucket s ns sname
          (mkBucket (sequence b)
                (alter (put_parent parent) key
                   (alter (children_put key) parent
                      (<[key:=emptyRecord]> (records b)))))) l')).
    2:{ rewrite (bind_run (bkt_Bucket _ _ _) _ _ _ _ eq_refl).
        autorewrite with st_norm. cbn [sequence records]. rewrite Hpb.
        rewrite (bind_run _ _ _ _ _ (rec_update_run _ _ _ _ _)).
        autorewrite with st_norm. cbn [sequence records].
        rewrite (bind_run _ _ _ _ _ (rec_update_run _ _ _ _ _)).
        autorewrite with st_norm. cbn [sequence records]. done. }
    rewrite (bind_run _ _ _ _ _ (NextSequence_run _ _ _)).
    autorewrite with st_norm. cbn [sequence records].
    rewrite (bind_run _ _ _ _ _ (rec_update_run _ _ _ _ _)).
    autorewrite with st_norm. cbn [sequence records].
    rewrite (bind_run (time_Now) _ _ _ _ eq_refl).
    autorewrite with st_norm.
    rewrite (bind_run _ _ _ _ _ (rec_update_run _ _ _ _ _)).
    autorewrite with st_norm. cbn [sequence records].
    rewrite (bind_run _ _ _ _ _ (rec_update_run _ _ _ _ _)).
    autorewrite with st_norm. cbn [sequence records].
    fold bkey.
    destruct readonly; unfold driver; autorewrite with st_norm;
      match goal with |- context [?f bkey (r_name pb) opts (st_world s)] =>
        destruct (f bkey (r_name pb) opts (st_world s)) as [[m|e] w'] end;
      try done; autorewrite with st_norm; try done;
      by rewrite ?with_db_with_world, ?with_db_rollback.
Qed.
End create_forward.

Section remove_run.
Context {L W : Type}.
Context `{!Leases L, !Clock W, !LabelValidator}.

Implicit Types (s : St L W).

(** Remove as one case analysis on what the transaction finds. *)
Lemma Remove_cases sname ctx key s :
  Remove sname ctx key s =
  match ctx_namespace ctx with
  | None => (Err ErrFailedPrecondition, s)
  | Some ns =>
      if decide (ns = "") then (Err ErrFailedPrecondition, s) else
      match buckets (st_db s) !! (ns, sname) with
      | None => (Err ErrNotFound, s)
      | Some b =>
          match records b !! key with
          | None => (Err ErrNotFound, s)
          | Some r =>
              if decide (r_children r = None ∨ r_children r = Some ∅) then
                if decide (r_parent r = "" ∨ is_Some (records b !! r_parent r)) then
                  match removeSnapshotLease ctx sname key (leases (st_db s)) with
                  | Ok l' =>
                      (Ok tt,
                       mkSt (mkStore
                               (<[(ns, sname) :=
                                    mkBucket (sequence b)
                                      (remove_records (records b) key (r_parent r))]>
                                  (buckets (st_db s))) l')
                         (st_world s) ({[sname]} ∪ st_dirty s))
                  | Err e => (Err e, s)
                  end
                else (Err ErrNotFound, s)
              else (Err ErrFailedPrecondition, s)
          end
      end
  end.
Proof.
  unfold Remove.
  destruct (ctx_namespace ctx) as [ns|] eqn:Hctx.
  2:{ unfold mbind, M_bind. by rewrite NamespaceRequired_run, Hctx. }
  destruct (decide (ns = "")) as [Hns|Hns].
  { unfold mbind, M_bind. by rewrite NamespaceRequired_run, Hctx, decide_True. }
  rewrite (bind_run _ _ s ns s) by (by rewrite NamespaceRequired_run, Hctx, decide_False).
  unfold update.
  rewrite (bind_run _ _ _ _ _ (getSnapshotterBucket_run _ _ _)).
  destruct (buckets (st_db s) !! (ns, sname)) as [b|] eqn:Hb;
    [|by cbn; rewrite with_db_same].
  cbn [mbind option_bind].
  destruct (records b !! key) as [r|] eqn:Hr; [|by cbn; rewrite with_db_same].
  pose proof (the_bucket_lookup s ns sname b Hb) as Hthe.
  destruct (decide (r_children r = None ∨ r_children r = Some ∅)) as [Hc|Hc].
  2:{ destruct (r_children r) as [c|]; [|by destruct Hc; left].
      destruct (decide (c = ∅)) as [->|Hne]; [by destruct Hc; right|].
      unfold mbind, M_bind, fail. by rewrite with_db_same. }
  rewrite (bind_run _ _ s tt s).
  2:{ destruct Hc as [->| ->]; [done|]. by rewrite decide_True. }
  destruct (decide (r_parent r = "" ∨ is_Some (records b !! r_parent r))) as [Hp|Hp].
  2:{ destruct (decide (r_parent r = "")) as [Hp0|Hp0]; [by destruct Hp; left|].
      destruct (records b !! r_parent r) as [pb|] eqn:Hpb; [destruct Hp; eauto|].
      unfold mbind, M_bind, bkt_Bucket. rewrite Hthe, Hpb.
      unfold fail. by rewrite with_db_same. }
  rewrite (bind_run _ _ s tt (set_bucket s ns sname
             (mkBucket (sequence b)
                (if decide (r_parent r = "") then records b
                 else alter (children_delete key) (r_parent r) (records b))))).
  2:{ destruct (decide (r_parent r = "")) as [Hp0|Hp0].
      - unfold mret, M_ret. f_equal. unfold set_bucket, set_buckets.
        rewrite insert_id; [by destruct s as [[? ?] ? ?]|].
        rewrite Hb. by destruct b.
      - destruct Hp as [|[pb Hpb]]; [done|].
        unfold mbind, M_bind, bkt_Bucket. rewrite Hthe, Hpb.
        by rewrite rec_update_run, Hthe. }
  set (recs1 := if decide (r_parent r = "") then records b
                else alter (children_delete key) (r_parent r) (records b)).
  assert (Hk1 : is_Some (recs1 !! key)).
  { unfold recs1. destruct (decide (r_parent r = "")); [by rewrite Hr|].
    apply lookup_alter_is_Some. by rewrite Hr. }
  rewrite (bind_run _ _ _ tt (set_bucket s ns sname
             (mkBucket (sequence b) (delete key recs1)))).
  2:{ unfold bkt_DeleteBucket. autorewrite with st_norm. cbn [sequence records].
      destruct Hk1 as [r1 ->]. done. }
  unfold remove_records. fold recs1.
  unfold lease at 1. unfold mbind, M_bind. autorewrite with st_norm.
  destruct (removeSnapshotLease ctx sname key (leases (st_db s))) as [l'|e];
    [done|].
  by destruct s.
Qed.
End remove_run.

Section commit_full.
Context {L W : Type}.
Context `{!Leases L, !Snapshotter W, !Clock W, !LabelValidator}.

Lemma DeleteBucket_ok_eq ns name key (s : St L W) a s1 :
  bkt_DeleteBucket ns name key s = (Ok a, s1) →
  is_Some (records (the_bucket s ns name) !! key) ∧
  s1 = set_bucket s ns name
         (mkBucket (sequence (the_bucket s ns name))
            (delete key (records (the_bucket s ns name)))).
Proof.
  unfold bkt_DeleteBucket.
  destruct (records (the_bucket s ns name) !! key); [|done].
  intros [= _ <-]. eauto.
Qed.

(** A successful Commit, step by step: what it found and what it left. *)
Lemma Commit_ok_full sname ctx name key opts (s s' : St L W) u :
  Commit sname ctx name key opts s = (Ok u, s') →
  ∃ ns b ob base l1 l2 w',
    ctx_namespace ctx = Some ns ∧ ns ≠ "" ∧
    apply_opts opts emptyInfo = Ok base ∧ validateSnapshot base = None ∧
    buckets (st_db s) !! (ns, sname) = Some b ∧
    records b !! name = None ∧
    <[name := emptyRecord]> (records b) !! key = Some ob ∧
    (r_parent ob = "" ∨
       is_Some (<[name := emptyRecord]> (records b) !! r_parent ob)) ∧
    addSnapshotLease ctx sname name (leases (st_db s)) = Ok l1 ∧
    removeSnapshotLease ctx sname key l1 = Ok l2 ∧
    drv_Commit (createKey (sequence b + 1)%N ns name) (r_name ob) (st_world s)
      = (None, w') ∧
    s' = with_world (with_leases (set_bucket s ns sname
           (mkBucket (sequence b + 1)%N
              (commit_records (records b) name key (r_parent ob)
                 (createKey (sequence b + 1)%N ns name)
                 (now (st_world s)) (Labels base)))) l2) w'.
Proof.
  unfold Commit. intros Hrun.
  bind_inv Hrun ns0 s0 Hns. rewrite NamespaceRequired_run in Hns.
  destruct (ctx_namespace ctx) as [ns|]; [|done].
  destruct (decide (ns = "")) as [|Hne]; [done|]. injection Hns as <- <-.
  bind_inv Hrun base s0 Hopts. unfold lift_result in Hopts.
  injection Hopts as Hopts <-.
  bind_inv Hrun u0 s0 Hval. unfold lift_err in Hval.
  destruct (validateSnapshot base) eqn:Hvalid; [done|]. injection Hval as _ <-.
  rewrite update_ok in Hrun.
  rewrite (bind_run _ _ _ _ _ (getSnapshotterBucket_run _ _ _)) in Hrun.
  destruct (buckets (st_db s) !! (ns, sname)) as [b|] eqn:Hb; [|done].
  pose proof (the_bucket_lookup s ns sname b Hb) as Hthe.
  bind_inv Hrun u1 s1 Hcreate.
  apply CreateBucket_ok_inv in Hcreate as [Hfresh ->].
  rewrite Hthe in Hfresh, Hrun.
  bind_inv Hrun u2 s2 Hlease. apply lease_ok_eq in Hlease as (l1 & Hl1 & ->).
  autorewrite with st_norm in Hl1.
  run_steps Hrun.
  destruct (<[name:=emptyRecord]> (records b) !! key) as [ob|] eqn:Hob; [|done].
  run_steps Hrun.
  bind_inv Hrun u3 s3 Hparent.
  set (nameKey := createKey (sequence b + 1)%N ns name) in *.
  set (r0 := alter (put_name nameKey) name (<[name:=emptyRecord]> (records b))) in *.
  assert (Hs3 : (r_parent ob = "" ∨
                   is_Some (<[name := emptyRecord]> (records b) !! r_parent ob)) ∧
                s3 = with_leases (set_bucket s ns sname
                       (mkBucket (sequence b + 1)%N
                          (if decide (r_parent ob = "") then r0
                           else alter (put_parent (r_parent ob)) name
                                  (alter (children_put name) (r_parent ob)
                                     (alter (children_create_delete key)
                                        (r_parent ob) r0))))) l1).
  { destruct (decide (r_parent ob = "")) as [Hp|Hp].
    - injection Hparent as _ <-. split; [by left|done].
    - run_steps Hparent.
      destruct (r0 !! r_parent ob) as [pb|] eqn:Hpb; [|done].
      run_steps Hparent. injection Hparent as _ <-.
      autorewrite with st_norm. cbn [sequence records].
      split; [|done]. right.
      apply (lookup_alter_is_Some (put_name nameKey) _ name). fold r0.
      by rewrite Hpb. }
  destruct Hs3 as [Hpar ->]. clear Hparent.
  run_steps Hrun.
  bind_inv Hrun u4 s4 Hdel. apply DeleteBucket_ok_eq in Hdel as [_ ->].
  run_steps Hrun.
  bind_inv Hrun u5 s5 Hrel. apply lease_ok_eq in Hrel as (l2 & Hl2 & ->).
  autorewrite with st_norm in Hl2.
  apply driver_err_ok_eq in Hrun as (w' & Hdrv & ->).
  autorewrite with st_norm in Hdrv.
  exists ns, b, ob, base, l1, l2, w'.
  split_and!; try done.
Qed.
End commit_full.

Section update_cases.
Context {L W : Type}.
Context `{!Leases L, !Snapshotter W, !Clock W, !LabelValidator}.

Implicit Types (s : St L W).

(** Update as one case analysis on what the call finds. *)
Lemma Update_cases sname ctx (info : Info) paths s :
  Update sname ctx info paths s =
  match ctx_namespace ctx with
  | None => (Err ErrFailedPrecondition, s)
  | Some ns =>
      if decide (ns = "") then (Err ErrFailedPrecondition, s) else
      if decide (Name info = "") then (Err ErrInvalidArgument, s) else
      match buckets (st_db s) !! (ns, sname) with
      | None => (Err ErrNotFound, s)
      | Some b =>
          match records b !! Name info with
          | None => (Err ErrNotFound, s)
          | Some r =>
              match update_labels paths (Labels info) (r_labels r) with
              | Err e => (Err e, s)
              | Ok labels =>
                  match validateSnapshot
                          (mkInfo 0%N (Name info) "" labels 0%Z 0%Z) with
                  | Some e => (Err e, s)
                  | None =>
                      let ts := now (st_world s) in
                      let r' := mkRecord (r_name r) (r_parent r) (r_children r)
                                  (r_created r) ts labels in
                      let local := mkInfo 0%N (Name info) (r_parent r) labels
                                     (r_created r) ts in
                      let s1 := set_bucket s ns sname
                                  (mkBucket (sequence b)
                                     (<[Name info := r']> (records b))) in
                      match drv_Stat (r_name r) (st_world s) with
                      | (Ok dinfo, w') =>
                          (Ok (overlayInfo dinfo local).1, with_world s1 w')
                      | (Err e, w') => (Err e, with_world s1 w')
                      end
                  end
              end
          end
      end
  end.
Proof.
  unfold Update, mbind, M_bind. rewrite NamespaceRequired_run.
  destruct (ctx_namespace ctx) as [ns|]; [|done].
  destruct (decide (ns = "")); [done|].
  destruct (decide (Name info = "")); [done|].
  unfold update, getSnapshotterBucket.
  destruct (buckets (st_db s) !! (ns, sname)) as [b|] eqn:Hb;
    [|by unfold fail; rewrite with_db_same].
  destruct (records b !! Name info) as [r|] eqn:Hr;
    [|by unfold fail; rewrite with_db_same].
  unfold lift_result, ReadLabels, ReadTimestamps.
  destruct (update_labels paths (Labels info) (r_labels r)) as [labels|e];
    [|by rewrite with_db_same].
  unfold lift_err.
  rewrite (validateSnapshot_labels _ (mkInfo 0%N (Name info) "" labels 0%Z 0%Z))
    by done.
  destruct (validateSnapshot (mkInfo 0%N (Name info) "" labels 0%Z 0%Z));
    [by rewrite with_db_same|].
  unfold time_Now, rec_update. cbn [fst snd].
  autorewrite with st_norm.
  rewrite (the_bucket_lookup s ns sname b Hb). cbn [sequence records].
  rewrite alter_alter_eq, (alter_lookup_insert _ _ _ r Hr).
  unfold mret, M_ret, driver. autorewrite with st_norm. cbn [fst snd].
  by destruct (drv_Stat (r_name r) (st_world s)) as [[dinfo|e] w'].
Qed.

Lemma Commit_err_db sname ctx name key opts s s' e :
  Commit sname ctx name key opts s = (Err e, s') → st_db s' = st_db s.
Proof.
  unfold Commit, mbind, M_bind. rewrite NamespaceRequired_run.
  destruct (ctx_namespace ctx) as [ns|]; [|by intros [= _ <-]].
  case_decide; [by intros [= _ <-]|].
  unfold lift_result, lift_err.
  destruct (apply_opts opts emptyInfo) as [base|e0]; [|by intros [= _ <-]].
  destruct (validateSnapshot base); [by intros [= _ <-]|].
  apply update_err_db.
Qed.
End update_cases.
(** ** The lineage links under the writes of the facade *)

Section record_maps.
Implicit Types (recs : gmap string record) (r : record).

Lemma fmap_Some_proj {A} (g : record → A) (o : option record) a :
  g <$> o = Some a ↔ ∃ r, o = Some r ∧ g r = a.
Proof.
  destruct o as [r|]; simpl; split.
  - intros [= <-]. by exists r.
  - by intros (r' & [= <-] & <-).
  - done.
  - by intros (? & ? & _).
Qed.

(** The record that Prepare and View leave under the new name. *)
Lemma create_records_new recs key parent backend ts labels :
  create_records recs key parent backend ts labels !! key
  = Some (mkRecord backend parent
            (if decide (parent = "") then None
             else if decide (parent = key) then Some ({[key]} ∪ ∅) else None)
            ts ts labels).
Proof.
  unfold create_records. cbv zeta. rewrite !lookup_alter_eq.
  destruct (decide (parent = "")) as [->|Hp].
  - by rewrite lookup_insert_eq.
  - rewrite lookup_alter_eq. destruct (decide (parent = key)) as [->|Hpk].
    + by rewrite lookup_alter_eq, lookup_insert_eq.
    + by rewrite lookup_alter_ne, lookup_insert_eq.
Qed.

(** Every other record is as it was, the parent with one child more. *)
Lemma create_records_old recs key parent backend ts labels k :
  k ≠ key →
  create_records recs key parent backend ts labels !! k
  = if decide (parent ≠ "" ∧ k = parent) then children_put key <$> recs !! k
    else recs !! k.
Proof.
  intros Hk. unfold create_records. cbv zeta.
  rewrite !lookup_alter_ne by done.
  destruct (decide (parent = "")) as [->|Hp].
  - rewrite lookup_insert_ne by done. rewrite decide_False; [done|]. by intros [? _].
  - rewrite lookup_alter_ne by done.
    destruct (decide (k = parent)) as [->|Hkp].
    + rewrite decide_True by done. by rewrite lookup_alter_eq, lookup_insert_ne.
    + rewrite decide_False by (by intros [_ ?]).
      by rewrite lookup_alter_ne, lookup_insert_ne.
Qed.

Lemma children_sound_create recs key parent backend ts labels :
  children_sound recs → recs !! key = None →
  children_sound (create_records recs key parent backend ts labels).
Proof.
  intros Hs Hfresh p rp c k Hp Hc Hk.
  assert (Hold : ∀ p0 r0 c0 k0, recs !! p0 = Some r0 → r_children r0 = Some c0 →
            k0 ∈ c0 → p0 ≠ "" ∧ ∃ r, create_records recs key parent backend ts labels
                                        !! k0 = Some r ∧ r_parent r = p0).
  { intros p0 r0 c0 k0 Hp0 Hc0 Hk0.
    destruct (Hs p0 r0 c0 k0 Hp0 Hc0 Hk0) as (Hne & r & Hr & Hrp).
    split; [done|].
    assert (k0 ≠ key) by (intros ->; congruence).
    rewrite create_records_old by done.
    destruct (decide (parent ≠ "" ∧ k0 = parent)); rewrite Hr; simpl; eauto. }
  destruct (decide (p = key)) as [->|Hpk].
  - rewrite create_records_new in Hp. injection Hp as <-. simpl in Hc.
    destruct (decide (parent = "")) as [|Hp0]; [done|].
    destruct (decide (parent = key)) as [->|]; [|done].
    injection Hc as <-. apply elem_of_union in Hk as [Hk|Hk]; [|set_solver].
    apply elem_of_singleton in Hk as ->. split; [done|].
    rewrite create_records_new. eauto.
  - rewrite create_records_old in Hp by done.
    destruct (decide (parent ≠ "" ∧ p = parent)) as [[Hp0 ->]|Hnot].
    + apply fmap_Some_proj in Hp as (r0 & Hr0 & <-). simpl in Hc.
      injection Hc as <-. apply elem_of_union in Hk as [Hk|Hk].
      * apply elem_of_singleton in Hk as ->. split; [done|].
        rewrite create_records_new. eauto.
      * destruct (r_children r0) as [c0|] eqn:Hc0; [|set_solver].
        by apply (Hold parent r0 c0).
    + by apply (Hold p rp c).
Qed.

(** What Remove leaves. *)
Lemma remove_records_lookup recs key parent k :
  remove_records recs key parent !! k
  = if decide (k = key) then None
    else if decide (parent ≠ "" ∧ k = parent)
         then children_delete key <$> recs !! k
         else recs !! k.
Proof.
  unfold remove_records. destruct (decide (k = key)) as [->|Hk].
  - by rewrite lookup_delete_eq.
  - rewrite lookup_delete_ne by done.
    destruct (decide (parent = "")) as [->|Hp].
    + rewrite decide_False; [done|]. by intros [? _].
    + destruct (decide (k = parent)) as [->|Hkp].
      * rewrite decide_True by done. by rewrite lookup_alter_eq.
      * rewrite decide_False by (by intros [_ ?]). by rewrite lookup_alter_ne.
Qed.

Lemma children_sound_remove recs key r :
  children_sound recs → recs !! key = Some r →
  children_sound (remove_records recs key (r_parent r)).
Proof.
  intros Hs Hr p rp c k Hp Hc Hk.
  rewrite remove_records_lookup in Hp.
  destruct (decide (p = key)) as [|Hpk]; [done|].
  assert (Hold : ∀ r0 c0, recs !! p = Some r0 → r_children r0 = Some c0 →
            k ∈ c0 → (r_parent r = p → k ≠ key) →
            p ≠ "" ∧ ∃ r1, remove_records recs key (r_parent r) !! k = Some r1
                           ∧ r_parent r1 = p).
  { intros r0 c0 Hr0 Hc0 Hk0 Hkk.
    destruct (Hs p r0 c0 k Hr0 Hc0 Hk0) as (Hne & r1 & Hr1 & Hrp).
    split; [done|].
    assert (k ≠ key).
    { intros Heq. apply Hkk; [|done]. rewrite Heq, Hr in Hr1. congruence. }
    rewrite remove_records_lookup, decide_False by done.
    destruct (decide (r_parent r ≠ "" ∧ k = r_parent r));
      rewrite Hr1; simpl; eauto. }
  destruct (decide (r_parent r ≠ "" ∧ p = r_parent r)) as [[Hp0 ->]|Hnot].
  - apply fmap_Some_proj in Hp as (r0 & Hr0 & <-). simpl in Hc.
    destruct (r_children r0) as [c0|] eqn:Hc0; [|done]. injection Hc as <-.
    apply elem_of_difference in Hk as [Hk Hnk].
    apply (Hold r0 c0); [done..|]. intros _ ->. set_solver.
  - apply (Hold rp c); [done..|]. intros <-.
    destruct (Hs (r_parent r) rp c k Hp Hc Hk) as (Hne & _). tauto.
Qed.

Lemma children_sound_insert recs k r r' :
  children_sound recs → recs !! k = Some r →
  r_parent r' = r_parent r → r_children r' = r_children r →
  children_sound (<[k := r']> recs).
Proof.
  intros Hs Hr Hpar Hch p rp c k0 Hp Hc Hk.
  assert (Hold : ∀ r0, recs !! p = Some r0 → r_children r0 = Some c →
            p ≠ "" ∧ ∃ r1, <[k := r']> recs !! k0 = Some r1 ∧ r_parent r1 = p).
  { intros r0 Hr0 Hc0.
    destruct (Hs p r0 c k0 Hr0 Hc0 Hk) as (Hne & r1 & Hr1 & Hrp).
    split; [done|].
    destruct (decide (k = k0)) as [->|Hkk].
    - rewrite lookup_insert_eq. exists r'. split; [done|]. congruence.
    - rewrite lookup_insert_ne by done. eauto. }
  destruct (decide (k = p)) as [->|Hkp].
  - rewrite lookup_insert_eq in Hp. injection Hp as <-.
    apply (Hold r); [done|congruence].
  - rewrite lookup_insert_ne in Hp by done. by apply (Hold rp).
Qed.
End record_maps.

Section record_maps_commit.
Implicit Types (recs : gmap string record) (r : record).

(** What Commit leaves. *)
Lemma commit_records_lookup recs name key parent nameKey ts labels k :
  commit_records recs name key parent nameKey ts labels !! k
  = if decide (k = key) then None
    else if decide (k = name) then
      Some (mkRecord nameKey parent
              (if decide (parent = "") then None
               else if decide (parent = name)
                    then Some ({[name]} ∪ (∅ ∖ {[key]})) else None)
              ts ts labels)
    else if decide (parent ≠ "" ∧ k = parent)
         then (fun r => children_put name (children_create_delete key r))
                <$> recs !! k
         else recs !! k.
Proof.
  unfold commit_records. cbv zeta.
  destruct (decide (k = key)) as [->|Hk]; [by rewrite lookup_delete_eq|].
  rewrite lookup_delete_ne by done.
  destruct (decide (k = name)) as [->|Hkn].
  - rewrite !lookup_alter_eq.
    destruct (decide (parent = "")) as [->|Hp].
    + by rewrite lookup_alter_eq, lookup_insert_eq.
    + rewrite lookup_alter_eq. destruct (decide (parent = name)) as [->|Hpn].
      * by rewrite !lookup_alter_eq, lookup_insert_eq.
      * rewrite (lookup_alter_ne _ _ parent name) by done.
        rewrite (lookup_alter_ne _ _ parent name) by done.
        by rewrite lookup_alter_eq, lookup_insert_eq.
  - rewrite !lookup_alter_ne by done.
    destruct (decide (parent = "")) as [->|Hp].
    + rewrite lookup_alter_ne, lookup_insert_ne by done.
      rewrite decide_False; [done|]. by intros [? _].
    + rewrite lookup_alter_ne by done.
      destruct (decide (k = parent)) as [->|Hkp].
      * rewrite decide_True by done.
        rewrite !lookup_alter_eq, lookup_alter_ne, lookup_insert_ne by done.
        by destruct (recs !! parent).
      * rewrite decide_False by (by intros [_ ?]).
        by rewrite !lookup_alter_ne, lookup_insert_ne.
Qed.

Lemma children_sound_commit recs name key ob nameKey ts labels :
  children_sound recs → recs !! name = None →
  <[name := emptyRecord]> recs !! key = Some ob →
  children_sound (commit_records recs name key (r_parent ob) nameKey ts labels).
Proof.
  intros Hs Hfresh Hob p rp c k Hp Hc Hk.
  rewrite commit_records_lookup in Hp.
  set (new := commit_records recs name key (r_parent ob) nameKey ts labels) in *.
  destruct (decide (p = key)) as [|Hpk]; [done|].
  destruct (decide (key = name)) as [->|Hkn].
  { rewrite lookup_insert_eq in Hob. injection Hob as <-.
    change (r_parent emptyRecord) with "" in *.
    rewrite decide_False in Hp by done.
    rewrite (decide_False (P := "" ≠ "" ∧ p = "")) in Hp by (by intros [? _]).
    destruct (Hs p rp c k Hp Hc Hk) as (Hne & r1 & Hr1 & Hrp).
    split; [done|]. exists r1. split; [|done].
    assert (k ≠ name) by (intros ->; congruence).
    unfold new. rewrite commit_records_lookup.
    rewrite (decide_False (P := k = name)) by done.
    rewrite (decide_False (P := k = name)) by done.
    rewrite decide_False; [done|by intros [? _]]. }
  rewrite lookup_insert_ne in Hob by done.
  assert (Hnew : new !! name
            = Some (mkRecord nameKey (r_parent ob)
                      (if decide (r_parent ob = "") then None
                       else if decide (r_parent ob = name)
                            then Some ({[name]} ∪ (∅ ∖ {[key]})) else None)
                      ts ts labels)).
  { unfold new. rewrite commit_records_lookup.
    by rewrite decide_False, decide_True by done. }
  assert (Hold : ∀ r0 c0, recs !! p = Some r0 → r_children r0 = Some c0 →
            k ∈ c0 → k ≠ key →
            p ≠ "" ∧ ∃ r1, new !! k = Some r1 ∧ r_parent r1 = p).
  { intros r0 c0 Hr0 Hc0 Hk0 Hkk.
    destruct (Hs p r0 c0 k Hr0 Hc0 Hk0) as (Hne & r1 & Hr1 & Hrp).
    split; [done|].
    assert (k ≠ name) by (intros ->; congruence).
    unfold new. rewrite commit_records_lookup, !decide_False by done.
    destruct (decide (r_parent ob ≠ "" ∧ k = r_parent ob));
      rewrite Hr1; simpl; eauto. }
  destruct (decide (p = name)) as [->|Hpn].
  - injection Hp as <-. simpl in Hc.
    destruct (decide (r_parent ob = "")) as [|Hp0]; [done|].
    destruct (decide (r_parent ob = name)) as [Hpar|]; [|done].
    injection Hc as <-.
    apply elem_of_union in Hk as [Hk%elem_of_singleton|Hk%elem_of_difference];
      [subst k|by destruct Hk as [?%elem_of_empty _]].
    split; [congruence|]. rewrite Hnew. eauto.
  - destruct (decide (r_parent ob ≠ "" ∧ p = r_parent ob)) as [[Hp0 ->]|Hnot].
    + apply fmap_Some_proj in Hp as (r0 & Hr0 & <-). simpl in Hc.
      injection Hc as <-. apply elem_of_union in Hk as [Hk|Hk].
      * apply elem_of_singleton in Hk as ->. split; [done|].
        rewrite Hnew. eauto.
      * destruct (r_children r0) as [c0|] eqn:Hc0; simpl in Hk;
          apply elem_of_difference in Hk as [Hk Hnk];
          [|by apply elem_of_empty in Hk].
        apply (Hold r0 c0); [done..|]. intros ->. apply Hnk.
        by apply elem_of_singleton.
    + apply (Hold rp c); [done..|]. intros ->.
      destruct (Hs p rp c key Hp Hc Hk) as (Hne & r1 & Hr1 & Hrp).
      apply Hnot. split; congruence.
Qed.
End record_maps_commit.

Section named_maps.
Implicit Types (recs : gmap string record) (r : record).

Lemma records_named_create ns seq recs key parent ts labels :
  records_named ns seq recs → recs !! key = None →
  records_named ns (seq + 1)
    (create_records recs key parent (createKey (seq + 1)%N ns key) ts labels).
Proof.
  intros Hn Hfresh k r Hr. destruct (decide (k = key)) as [->|Hk].
  - rewrite create_records_new in Hr. injection Hr as <-.
    exists (seq + 1)%N. split; [done|lia].
  - rewrite create_records_old in Hr by done.
    assert (∃ r0, recs !! k = Some r0 ∧ r_name r0 = r_name r) as (r0 & Hr0 & <-).
    { destruct (decide (parent ≠ "" ∧ k = parent)); [|eauto].
      apply fmap_Some_proj in Hr as (r0 & Hr0 & <-). eauto. }
    destruct (Hn k r0 Hr0) as (id & Hid & Hrange).
    exists id. split; [done|lia].
Qed.

Lemma records_named_remove ns seq recs key parent :
  records_named ns seq recs →
  records_named ns seq (remove_records recs key parent).
Proof.
  intros Hn k r Hr. rewrite remove_records_lookup in Hr.
  destruct (decide (k = key)); [done|].
  assert (∃ r0, recs !! k = Some r0 ∧ r_name r0 = r_name r) as (r0 & Hr0 & <-).
  { destruct (decide (parent ≠ "" ∧ k = parent)); [|eauto].
    apply fmap_Some_proj in Hr as (r0 & Hr0 & <-). eauto. }
  by apply Hn.
Qed.

Lemma records_named_commit ns seq recs name key parent ts labels :
  records_named ns seq recs →
  records_named ns (seq + 1)
    (commit_records recs name key parent (createKey (seq + 1)%N ns name) ts labels).
Proof.
  intros Hn k r Hr. rewrite commit_records_lookup in Hr.
  destruct (decide (k = key)); [done|].
  destruct (decide (k = name)) as [->|Hk].
  - injection Hr as <-. exists (seq + 1)%N. split; [done|lia].
  - assert (∃ r0, recs !! k = Some r0 ∧ r_name r0 = r_name r) as (r0 & Hr0 & <-).
    { destruct (decide (parent ≠ "" ∧ k = parent)); [|eauto].
      apply fmap_Some_proj in Hr as (r0 & Hr0 & <-). eauto. }
    destruct (Hn k r0 Hr0) as (id & Hid & Hrange).
    exists id. split; [done|lia].
Qed.

Lemma records_named_insert ns seq recs k r r' :
  records_named ns seq recs → recs !! k = Some r → r_name r' = r_name r →
  records_named ns seq (<[k := r']> recs).
Proof.
  intros Hn Hr Hname k0 r0 Hr0.
  destruct (decide (k = k0)) as [->|Hk].
  - rewrite lookup_insert_eq in Hr0. injection Hr0 as <-. rewrite Hname.
    by apply Hn.
  - rewrite lookup_insert_ne in Hr0 by done. by apply Hn.
Qed.
End named_maps.
(** ** Invariants of the store along the calls of the facade *)

Section store_invariants.
Context {L W : Type}.
Context `{!Leases L, !Clock W, !LabelValidator}.

Implicit Types (s : St L W).

Lemma children_sound_the_bucket s ns name :
  store_children_sound s → children_sound (records (the_bucket s ns name)).
Proof.
  intros Hs.
  destruct (buckets (st_db s) !! (ns, name)) as [b|] eqn:Hb.
  - rewrite (the_bucket_lookup _ _ _ _ Hb). by eapply Hs.
  - rewrite (the_bucket_empty _ _ _ Hb). intros p rp c k Hp.
    change ((∅ : gmap string record) !! p = Some rp) in Hp.
    by rewrite lookup_empty in Hp.
Qed.

Lemma records_named_the_bucket s ns name :
  store_named s →
  records_named ns (sequence (the_bucket s ns name)) (records (the_bucket s ns name)).
Proof.
  intros Hs.
  destruct (buckets (st_db s) !! (ns, name)) as [b|] eqn:Hb.
  - rewrite (the_bucket_lookup _ _ _ _ Hb). by eapply Hs.
  - rewrite (the_bucket_empty _ _ _ Hb). intros k r Hr.
    change ((∅ : gmap string record) !! k = Some r) in Hr.
    by rewrite lookup_empty in Hr.
Qed.

Lemma store_children_sound_db s s' :
  st_db s' = st_db s → store_children_sound s → store_children_sound s'.
Proof. unfold store_children_sound. by intros ->. Qed.

Lemma store_named_db s s' :
  st_db s' = st_db s → store_named s → store_named s'.
Proof. unfold store_named. by intros ->. Qed.

Lemma store_children_sound_set s s' ns name b :
  buckets (st_db s') = <[(ns, name) := b]> (buckets (st_db s)) →
  store_children_sound s → children_sound (records b) →
  store_children_sound s'.
Proof.
  intros Hb' Hs Hb p b0 Hp. rewrite Hb' in Hp.
  destruct (decide (p = (ns, name))) as [->|Hne].
  - rewrite lookup_insert_eq in Hp. by injection Hp as <-.
  - rewrite lookup_insert_ne in Hp by done. by eapply Hs.
Qed.

Lemma store_named_set s s' ns name b :
  buckets (st_db s') = <[(ns, name) := b]> (buckets (st_db s)) →
  store_named s → records_named ns (sequence b) (records b) →
  store_named s'.
Proof.
  intros Hb' Hs Hb ns0 sn0 b0 Hp. rewrite Hb' in Hp.
  destruct (decide ((ns0, sn0) = (ns, name))) as [[= -> ->]|Hne].
  - rewrite lookup_insert_eq in Hp. by injection Hp as <-.
  - rewrite lookup_insert_ne in Hp by done. by eapply Hs.
Qed.

Section with_driver.
Context `{!Snapshotter W}.

Lemma createSnapshot_children_sound sname ctx key parent readonly opts s :
  store_children_sound s →
  store_children_sound (createSnapshot sname ctx key parent readonly opts s).2.
Proof.
  intros Hs.
  destruct (createSnapshot sname ctx key parent readonly opts s) as [[m|e] s'] eqn:Hrun.
  - apply createSnapshot_ok_full in Hrun
      as (ns & base & l' & w' & _ & _ & _ & _ & Hfresh & _ & _ & _ & ->).
    eapply store_children_sound_set; [reflexivity|done|].
    apply children_sound_create; [|done]. by apply children_sound_the_bucket.
  - apply createSnapshot_err_db in Hrun. by eapply store_children_sound_db.
Qed.

Lemma createSnapshot_named sname ctx key parent readonly opts s :
  store_named s →
  store_named (createSnapshot sname ctx key parent readonly opts s).2.
Proof.
  intros Hs.
  destruct (createSnapshot sname ctx key parent readonly opts s) as [[m|e] s'] eqn:Hrun.
  - apply createSnapshot_ok_full in Hrun
      as (ns & base & l' & w' & _ & _ & _ & _ & Hfresh & _ & _ & _ & ->).
    eapply store_named_set; [reflexivity|done|].
    cbn [sequence records].
    apply records_named_create; [|done]. by apply records_named_the_bucket.
  - apply createSnapshot_err_db in Hrun. by eapply store_named_db.
Qed.

Lemma Commit_children_sound sname ctx name key opts s :
  store_children_sound s →
  store_children_sound (Commit sname ctx name key opts s).2.
Proof.
  intros Hs.
  destruct (Commit sname ctx name key opts s) as [[u|e] s'] eqn:Hrun.
  - apply Commit_ok_full in Hrun
      as (ns & b & ob & base & l1 & l2 & w' & _ & _ & _ & _ & Hb & Hfresh & Hob
          & _ & _ & _ & _ & ->).
    eapply store_children_sound_set; [reflexivity|done|].
    apply children_sound_commit; [by eapply Hs|done..].
  - apply Commit_err_db in Hrun. by eapply store_children_sound_db.
Qed.

Lemma Commit_named sname ctx name key opts s :
  store_named s → store_named (Commit sname ctx name key opts s).2.
Proof.
  intros Hs.
  destruct (Commit sname ctx name key opts s) as [[u|e] s'] eqn:Hrun.
  - apply Commit_ok_full in Hrun
      as (ns & b & ob & base & l1 & l2 & w' & _ & _ & _ & _ & Hb & Hfresh & Hob
          & _ & _ & _ & _ & ->).
    eapply store_named_set; [reflexivity|done|].
    cbn [sequence records]. apply records_named_commit. by eapply Hs.
  - apply Commit_err_db in Hrun. by eapply store_named_db.
Qed.

Lemma Update_children_sound sname ctx info paths s :
  store_children_sound s →
  store_children_sound (Update sname ctx info paths s).2.
Proof.
  intros Hs. rewrite Update_cases.
  destruct (ctx_namespace ctx) as [ns|]; [|done].
  destruct (decide (ns = "")); [done|].
  destruct (decide (Name info = "")); [done|].
  destruct (buckets (st_db s) !! (ns, sname)) as [b|] eqn:Hb; [|done].
  destruct (records b !! Name info) as [r|] eqn:Hr; [|done].
  destruct (update_labels _ _ _) as [labels|]; [|done].
  destruct (validateSnapshot _); [done|]. cbv zeta.
  assert (store_children_sound (set_bucket s ns sname
            (mkBucket (sequence b)
               (<[Name info := mkRecord (r_name r) (r_parent r) (r_children r)
                                 (r_created r) (now (st_world s)) labels]>
                  (records b))))) as Hs1.
  { eapply store_children_sound_set; [reflexivity|done|].
    cbn [records].
    apply (children_sound_insert _ _ r); [by eapply Hs|done..]. }
  by destruct (drv_Stat (r_name r) (st_world s)) as [[dinfo|e] w'].
Qed.

Lemma Update_named sname ctx info paths s :
  store_named s → store_named (Update sname ctx info paths s).2.
Proof.
  intros Hs. rewrite Update_cases.
  destruct (ctx_namespace ctx) as [ns|]; [|done].
  destruct (decide (ns = "")); [done|].
  destruct (decide (Name info = "")); [done|].
  destruct (buckets (st_db s) !! (ns, sname)) as [b|] eqn:Hb; [|done].
  destruct (records b !! Name info) as [r|] eqn:Hr; [|done].
  destruct (update_labels _ _ _) as [labels|]; [|done].
  destruct (validateSnapshot _); [done|]. cbv zeta.
  assert (store_named (set_bucket s ns sname
            (mkBucket (sequence b)
               (<[Name info := mkRecord (r_name r) (r_parent r) (r_children r)
                                 (r_created r) (now (st_world s)) labels]>
                  (records b))))) as Hs1.
  { eapply store_named_set; [reflexivity|done|].
    cbn [sequence records].
    apply (records_named_insert _ _ _ _ r); [by eapply Hs|done..]. }
  by destruct (drv_Stat (r_name r) (st_world s)) as [[dinfo|e] w'].
Qed.
End with_driver.

Lemma Remove_children_sound sname ctx key s :
  store_children_sound s → store_children_sound (Remove sname ctx key s).2.
Proof.
  intros Hs. rewrite Remove_cases.
  destruct (ctx_namespace ctx) as [ns|]; [|done].
  destruct (decide (ns = "")); [done|].
  destruct (buckets (st_db s) !! (ns, sname)) as [b|] eqn:Hb; [|done].
  destruct (records b !! key) as [r|] eqn:Hr; [|done].
  destruct (decide (r_children r = None ∨ r_children r = Some ∅)); [|done].
  destruct (decide (r_parent r = "" ∨ is_Some (records b !! r_parent r))); [|done].
  destruct (removeSnapshotLease ctx sname key (leases (st_db s))) as [l'|e]; [|done].
  eapply store_children_sound_set; [reflexivity|done|].
  apply children_sound_remove; [by eapply Hs|done].
Qed.

Lemma Remove_named sname ctx key s :
  store_named s → store_named (Remove sname ctx key s).2.
Proof.
  intros Hs. rewrite Remove_cases.
  destruct (ctx_namespace ctx) as [ns|]; [|done].
  destruct (decide (ns = "")); [done|].
  destruct (buckets (st_db s) !! (ns, sname)) as [b|] eqn:Hb; [|done].
  destruct (records b !! key) as [r|] eqn:Hr; [|done].
  destruct (decide (r_children r = None ∨ r_children r = Some ∅)); [|done].
  destruct (decide (r_parent r = "" ∨ is_Some (records b !! r_parent r))); [|done].
  destruct (removeSnapshotLease ctx sname key (leases (st_db s))) as [l'|e]; [|done].
  eapply store_named_set; [reflexivity|done|].
  cbn [sequence records]. apply records_named_remove. by eapply Hs.
Qed.

Lemma run_call_children_sound (c : call W) (acc : St L W * list (string * string)) :
  store_children_sound acc.1 → store_children_sound (run_call acc c).1.
Proof.
  destruct acc as [s log]. intros Hs.
  destruct c as [rc ctx key parent ro opts|rc ctx name key opts|rc ctx key
                |rc ctx info paths]; simpl in *.
  - pose proof (createSnapshot_children_sound (Snapshotter0 := rc_driver rc)
                  (rc_name rc) ctx key parent ro opts s Hs) as Hs'.
    by destruct (createSnapshot _ _ _ _ _ _ s) as [[m|e] s'].
  - by apply (Commit_children_sound (Snapshotter0 := rc_driver rc)).
  - by apply Remove_children_sound.
  - by apply (Update_children_sound (Snapshotter0 := rc_driver rc)).
Qed.

Lemma run_call_named (c : call W) (acc : St L W * list (string * string)) :
  store_named acc.1 → store_named (run_call acc c).1.
Proof.
  destruct acc as [s log]. intros Hs.
  destruct c as [rc ctx key parent ro opts|rc ctx name key opts|rc ctx key
                |rc ctx info paths]; simpl in *.
  - pose proof (createSnapshot_named (Snapshotter0 := rc_driver rc)
                  (rc_name rc) ctx key parent ro opts s Hs) as Hs'.
    by destruct (createSnapshot _ _ _ _ _ _ s) as [[m|e] s'].
  - by apply (Commit_named (Snapshotter0 := rc_driver rc)).
  - by apply Remove_named.
  - by apply (Update_named (Snapshotter0 := rc_driver rc)).
Qed.
End store_invariants.
(** ** Steps that end a transaction *)

Section failing_steps.
Context {L W : Type}.
Context `{!Leases L, !Snapshotter W, !Clock W, !LabelValidator}.

Implicit Types (s : St L W).

Lemma bind_err {A B} (m : M (St L W) A) (f : A → M (St L W) B) s e s1 :
  m s = (Err e, s1) → (m ≫= f) s = (Err e, s1).
Proof. unfold mbind, M_bind. by intros ->. Qed.

Lemma update_rollback {A} (fn : M (St L W) A) s e s1 :
  fn s = (Err e, s1) → st_world s1 = st_world s → st_dirty s1 = st_dirty s →
  update fn s = (Err e, s).
Proof.
  unfold update. intros -> Hw Hd. f_equal.
  destruct s, s1; simpl in *. by subst.
Qed.

Lemma strip_prefix_None (p s : string) :
  (∀ k, s ≠ p +:+ k) → strip_prefix p s = None.
Proof.
  revert s. induction p as [|a p IH]; intros s Hs; simpl.
  - by destruct (Hs s).
  - destruct s as [|b s]; [done|].
    destruct (Ascii.eqb_spec a b) as [->|Hab]; [|done].
    apply IH. intros k ->. by apply (Hs k).
Qed.

(** A path that is neither labels nor labels.<k> ends the loop over the
    field paths, wherever it stands in the list. *)
Lemma apply_fieldpaths_bad_path paths il local p :
  p ∈ paths → p ≠ "labels" → (∀ k, p ≠ "labels." +:+ k) →
  ∃ e, apply_fieldpaths paths il local = Err e ∧ e = ErrInvalidArgument.
Proof.
  intros Hin Hp Hpre. revert local.
  induction paths as [|q paths IH]; intros local; [by apply elem_of_nil in Hin|].
  cbn [apply_fieldpaths].
  apply elem_of_cons in Hin as [<-|Hin].
  - rewrite (strip_prefix_None "labels." p Hpre).
    rewrite decide_False by done. eauto.
  - destruct (strip_prefix "labels." q); [by apply IH|].
    destruct (decide (q = "labels")); [by apply IH|eauto].
Qed.

Lemma first_error_None (l : list (option error)) :
  first_error l = None ↔ Forall (fun o => o = None) l.
Proof.
  induction l as [|[e|] l IH]; simpl.
  - split; [by constructor|done].
  - split; [done|]. by intros [[=] _]%Forall_cons.
  - rewrite IH. split; [by constructor|]. by intros [_ ?]%Forall_cons.
Qed.

Lemma first_error_Some (l : list (option error)) e :
  first_error l = Some e → Some e ∈ l.
Proof.
  induction l as [|[e'|] l IH]; simpl; [done|..].
  - intros [= ->]. by left.
  - intros He. right. by apply IH.
Qed.

(** resolveKey: the backend key of the record, NotFound when the record
    is missing or holds no key; the state is the one it started from. *)
Lemma resolveKey_run sname ctx ns key s :
  ctx_namespace ctx = Some ns → ns ≠ "" →
  resolveKey sname ctx key s
  = if decide (getKey s ns sname key = "") then (Err ErrNotFound, s)
    else (Ok (getKey s ns sname key), s).
Proof.
  intros Hctx Hne. unfold resolveKey.
  rewrite (bind_run _ _ s ns s) by (by rewrite NamespaceRequired_run, Hctx, decide_False).
  unfold view. destruct (decide (getKey s ns sname key = ""));
    by rewrite with_db_same.
Qed.

Lemma getKey_the_bucket s ns sname key :
  getKey s ns sname key
  = default "" (r_name <$> records (the_bucket s ns sname) !! key).
Proof.
  unfold getKey, the_bucket.
  destruct (buckets (st_db s) !! (ns, sname)) as [b|]; simpl; [|done].
  by destruct (records b !! key).
Qed.
End failing_steps.
(** ** The forest of walkTree, node by node *)

Section forest_shape.
Implicit Types (nodes : gmap string treeNode) (infos : list Info).

Lemma lookup_or_new_lookup nodes k p :
  lookup_or_new nodes k !! p
  = if decide (p = k) then Some (default emptyNode (nodes !! p)) else nodes !! p.
Proof.
  unfold lookup_or_new. destruct (decide (p = k)) as [->|Hne].
  - destruct (nodes !! k) as [n|] eqn:Hk; [by rewrite Hk|].
    by rewrite lookup_insert_eq.
  - destruct (nodes !! k); [done|]. by rewrite lookup_insert_ne.
Qed.

(** The node under the key [p] after one more info was visited. *)
Lemma walkTree_fn_lookup seen roots nodes (x : Info) p :
  (walkTree_fn seen (roots, nodes) x).2 !! p
  = let n0 := default emptyNode (nodes !! p) in
    if decide (p = Name x ∨ (Parent x ≠ "" ∧ p = Parent x)) then
      Some (mkNode (if decide (p = Name x) then x else node_info n0)
              (if decide (p = Name x) then negb (bool_decide (Name x ∈ seen))
               else node_remove n0)
              (node_children n0 ++
                 if decide (Parent x ≠ "" ∧ p = Parent x) then [Name x] else []))
    else nodes !! p.
Proof.
  cbv zeta. unfold walkTree_fn.
  destruct (decide (Parent x = "")) as [Hpar|Hpar]; cbn [snd].
  - rewrite (decide_False (P := Parent x ≠ "" ∧ p = Parent x)) by (by intros [? _]).
    rewrite app_nil_r.
    destruct (decide (p = Name x)) as [->|Hp].
    + rewrite decide_True by (by left).
      by rewrite lookup_alter_eq, lookup_or_new_lookup, decide_True.
    + rewrite decide_False by (by intros [|[? _]]).
      by rewrite lookup_alter_ne, lookup_or_new_lookup, decide_False.
  - destruct (decide (p = Parent x)) as [->|Hpp].
    + rewrite decide_True by (by right).
      rewrite (decide_True (P := Parent x ≠ "" ∧ Parent x = Parent x)) by done.
      rewrite lookup_alter_eq, lookup_or_new_lookup, decide_True by done.
      destruct (decide (Parent x = Name x)) as [Heq|Hne].
      * rewrite Heq, lookup_alter_eq, lookup_or_new_lookup, decide_True by done.
        done.
      * rewrite lookup_alter_ne, lookup_or_new_lookup, decide_False by done.
        by destruct (nodes !! Parent x).
    + rewrite (decide_False (P := Parent x ≠ "" ∧ p = Parent x)) by (by intros [_ ?]).
      rewrite app_nil_r.
      rewrite lookup_alter_ne, lookup_or_new_lookup, decide_False by done.
      destruct (decide (p = Name x)) as [->|Hp].
      * rewrite decide_True by (by left).
        by rewrite lookup_alter_eq, lookup_or_new_lookup, decide_True.
      * rewrite decide_False by (by intros [|[_ ?]]).
        by rewrite lookup_alter_ne, lookup_or_new_lookup, decide_False.
Qed.

Lemma walkTree_fn_roots seen roots nodes (x : Info) :
  (walkTree_fn seen (roots, nodes) x).1
  = roots ++ if decide (Parent x = "") then [Name x] else [].
Proof.
  unfold walkTree_fn. destruct (decide (Parent x = "")); [done|].
  by rewrite app_nil_r.
Qed.

Lemma filter_one {A} (P : A → Prop) `{∀ x, Decision (P x)} (x : A) :
  filter P [x] = if decide (P x) then [x] else [].
Proof. done. Qed.

(** The forest after the whole report. *)
Lemma walkTree_shape seen infos :
  let acc := foldl (walkTree_fn seen) ([], ∅) infos in
  acc.1 = Name <$> filter (fun i => Parent i = "") infos ∧
  (∀ p n, acc.2 !! p = Some n →
     node_children n
       = Name <$> filter (fun i => Parent i ≠ "" ∧ Parent i = p) infos) ∧
  (∀ p n, acc.2 !! p = Some n →
     (∃ i, i ∈ infos ∧ Name i = p ∧ node_info n = i ∧
           node_remove n = negb (bool_decide (p ∈ seen))) ∨
     ((∀ i, i ∈ infos → Name i ≠ p) ∧ node_info n = emptyInfo ∧
      node_remove n = false)) ∧
  (∀ i, i ∈ infos → is_Some (acc.2 !! Name i)) ∧
  (∀ i, i ∈ infos → Parent i ≠ "" → is_Some (acc.2 !! Parent i)).
Proof.
  induction infos as [|x infos IH] using rev_ind.
  - cbn. split; [done|]. split; [|split; [|split]].
    + intros p n. by rewrite lookup_empty.
    + intros p n. by rewrite lookup_empty.
    + intros i Hi. by apply elem_of_nil in Hi.
    + intros i Hi. by apply elem_of_nil in Hi.
  - cbv zeta in *. rewrite foldl_app. cbn [foldl].
    destruct (foldl (walkTree_fn seen) ([], ∅) infos) as [roots nodes].
    cbn [fst snd] in IH. destruct IH as (IHr & IHc & IHi & IHd & IHp).
    rewrite !filter_app, !fmap_app, !filter_one.
    assert (Hsome : ∀ p, is_Some (nodes !! p) →
              is_Some ((walkTree_fn seen (roots, nodes) x).2 !! p)).
    { intros p Hp. rewrite walkTree_fn_lookup. cbv zeta.
      by destruct (decide (p = Name x ∨ Parent x ≠ "" ∧ p = Parent x)). }
    split; [|split; [|split; [|split]]].
    + rewrite walkTree_fn_roots, IHr. f_equal.
      by destruct (decide (Parent x = "")).
    + intros p n. rewrite walkTree_fn_lookup. cbv zeta.
      assert (Hold : node_children (default emptyNode (nodes !! p))
                = Name <$> filter (fun i => Parent i ≠ "" ∧ Parent i = p) infos).
      { destruct (nodes !! p) as [n0|] eqn:Hn0; [by apply IHc|].
        destruct (filter (fun i : Info => Parent i ≠ "" ∧ Parent i = p) infos)
          as [|i l] eqn:Hf; [done|].
        assert (i ∈ filter (fun i => Parent i ≠ "" ∧ Parent i = p) infos) as Hi
          by (rewrite Hf; left).
        apply list_elem_of_filter in Hi as [[Hne <-] Hi].
        destruct (IHp i Hi Hne) as [? ?]. congruence. }
      rewrite filter_app, fmap_app, filter_one.
      destruct (decide (Parent x ≠ "" ∧ Parent x = p)) as [[Hne <-]|Hnot].
      * rewrite decide_True by (by right). rewrite (decide_True (P := _ ∧ _)) by done.
        intros [= <-]. cbn [node_children]. by rewrite Hold.
      * rewrite (decide_False (P := Parent x ≠ "" ∧ p = Parent x))
          by (intros [? ?]; by apply Hnot).
        rewrite !app_nil_r.
        destruct (decide (p = Name x ∨ Parent x ≠ "" ∧ p = Parent x)).
        -- by intros [= <-].
        -- apply IHc.
    + intros p n. rewrite walkTree_fn_lookup. cbv zeta.
      assert (Hold : ∀ n0, default emptyNode (nodes !! p) = n0 → p ≠ Name x →
                (∃ i, i ∈ infos ++ [x] ∧ Name i = p ∧ node_info n0 = i ∧
                      node_remove n0 = negb (bool_decide (p ∈ seen))) ∨
                ((∀ i, i ∈ infos ++ [x] → Name i ≠ p) ∧ node_info n0 = emptyInfo ∧
                 node_remove n0 = false)).
      { intros n0 Hn0 Hpx.
        destruct (nodes !! p) as [n1|] eqn:Hn1; cbn in Hn0; subst n0.
        - destruct (IHi p n1 Hn1) as [(i & Hi & Hip & Hii & Hir)|(Hnone & He & Hr)].
          + left. exists i. split; [apply elem_of_app; by left|done].
          + right. split; [|done].
            intros i [Hi|Hi%list_elem_of_singleton]%elem_of_app; [by apply Hnone|].
            subst i. congruence.
        - right. split; [|done].
          intros i [Hi|Hi%list_elem_of_singleton]%elem_of_app.
          + intros Heq. destruct (IHd i Hi) as [? ?]. congruence.
          + subst i. congruence. }
      destruct (decide (p = Name x ∨ Parent x ≠ "" ∧ p = Parent x)) as [Hcase|Hcase].
      * intros [= <-]. cbn [node_info node_remove].
        destruct (decide (p = Name x)) as [->|Hpx].
        -- left. exists x. split; [apply elem_of_app; right; by left|done].
        -- by apply Hold.
      * intros Hn. assert (p ≠ Name x) as Hpx by (intros ->; apply Hcase; by left).
        specialize (Hold n). rewrite Hn in Hold. by apply Hold.
    + intros i [Hi|Hi%list_elem_of_singleton]%elem_of_app.
      * by apply Hsome, IHd.
      * subst i. rewrite walkTree_fn_lookup. cbv zeta.
        by rewrite decide_True by (by left).
    + intros i [Hi|Hi%list_elem_of_singleton]%elem_of_app Hne.
      * by apply Hsome, IHp.
      * subst i. rewrite walkTree_fn_lookup. cbv zeta.
        by rewrite decide_True by (by right).
Qed.
End forest_shape.
(** ** What a pass of the collector reaches *)

Section sweep_reach.
Context {W : Type} `{!Snapshotter W}.

Lemma prune_each_log_mono
    (prune : string → W * list string → outcome * (W * list string))
    (ns : list string) :
  (∀ n st k, n ∈ ns → k ∈ st.2 → k ∈ (prune n st).2.2) →
  ∀ st k, k ∈ st.2 → k ∈ (prune_each prune ns st).2.2.
Proof.
  intros Hmono st k.
  apply (prune_each_invariant (fun st' => k ∈ st'.2) prune ns st).
  intros n st' Hn. by apply Hmono.
Qed.

Lemma pruneBranch_log_mono nodes fuel p (st : W * list string) k :
  k ∈ st.2 → k ∈ (pruneBranch fuel nodes p st).2.2.
Proof.
  revert p st. induction fuel as [|fuel IH]; intros p st Hk; simpl; [done|].
  destruct (nodes !! p) as [node|]; [|done].
  pose proof (prune_each_invariant (fun st' => k ∈ st'.2)
                (pruneBranch fuel nodes) (node_children node) st
                (fun n st' _ => IH n st') Hk) as Hc.
  destruct (prune_each _ _ st) as [[[e|]| |] st']; simpl in *; try done.
  destruct (node_remove node); [|done].
  rewrite remove_node_log. apply elem_of_app. by left.
Qed.

(** Remove is only called on the names of marked nodes that hang under
    the node the pruning started from. *)
Lemma pruneBranch_log_reach nodes (Q : string → Prop) :
  (∀ p n c, Q p → nodes !! p = Some n → c ∈ node_children n → Q c) →
  (∀ p n, nodes !! p = Some n → node_remove n = true → Name (node_info n) = p) →
  ∀ fuel p (st : W * list string), Q p → Forall Q st.2 →
    Forall Q (pruneBranch fuel nodes p st).2.2.
Proof.
  intros Hedge Hname. induction fuel as [|fuel IH]; intros p st Hp Hst; simpl;
    [done|].
  destruct (nodes !! p) as [node|] eqn:Hnode; [|done].
  pose proof (prune_each_invariant (fun st => Forall Q st.2)
                (pruneBranch fuel nodes) (node_children node) st
                (fun n st Hn => IH n st (Hedge p node n Hp Hnode Hn)) Hst) as Hc.
  destruct (prune_each _ _ st) as [[[e|]| |] st']; simpl in *; try done.
  destruct (node_remove node) eqn:Hrm; [|done].
  rewrite remove_node_log. apply Forall_app. split; [done|].
  apply Forall_singleton. by rewrite (Hname p node).
Qed.

(** A loop over nodes that ends without error has pruned under each. *)
Lemma prune_each_complete
    (prune : string → W * list string → outcome * (W * list string))
    (R : string → string → Prop) (ns : list string) :
  (∀ n st k, k ∈ st.2 → k ∈ (prune n st).2.2) →
  (∀ n st st' k, n ∈ ns → prune n st = (Finished None, st') → R n k → k ∈ st'.2) →
  ∀ st st', prune_each prune ns st = (Finished None, st') →
    ∀ n k, n ∈ ns → R n k → k ∈ st'.2.
Proof.
  intros Hmono. induction ns as [|n0 ns IH]; intros Hp st st' Hrun n k Hn Hk.
  { by apply elem_of_nil in Hn. }
  simpl in Hrun.
  destruct (prune n0 st) as [[[e|]| |] st0] eqn:Hn0; try done.
  apply elem_of_cons in Hn as [->|Hn].
  - assert (k ∈ st0.2) as Hin by (eapply Hp; [by left|done..]).
    pose proof (prune_each_log_mono prune ns (fun n st k _ => Hmono n st k)
                  st0 k Hin) as Hk'.
    by rewrite Hrun in Hk'.
  - eapply IH; [|done..]. intros n' st1 st1' k' Hn'. apply Hp. by right.
Qed.

Lemma pruneBranch_complete nodes fuel :
  ∀ p (st st' : W * list string),
    pruneBranch fuel nodes p st = (Finished None, st') →
    ∀ k n, rtc (child_edge nodes) p k → nodes !! k = Some n →
           node_remove n = true → Name (node_info n) ∈ st'.2.
Proof.
  induction fuel as [|fuel IH]; intros p st st' Hrun k n Hreach Hn Hrm;
    simpl in Hrun; [done|].
  destruct (nodes !! p) as [node|] eqn:Hnode; [|done].
  destruct (prune_each (pruneBranch fuel nodes) (node_children node) st)
    as [[[e|]| |] st0] eqn:Hch; try done.
  assert (Hlast : ∀ j, j ∈ st0.2 → j ∈ st'.2).
  { intros j Hj. destruct (node_remove node); [|by injection Hrun as <-].
    pose proof (remove_node_log (Name (node_info node)) st0) as Hlog.
    rewrite Hrun in Hlog. cbn [snd] in Hlog. rewrite Hlog.
    apply elem_of_app. by left. }
  apply rtc_inv in Hreach as [<-|(c & (node' & Hnode' & Hc) & Hreach)].
  - rewrite Hn in Hnode. injection Hnode as <-. rewrite Hrm in Hrun.
    pose proof (remove_node_log (Name (node_info n)) st0) as Hlog.
    rewrite Hrun in Hlog. cbn [snd] in Hlog. rewrite Hlog.
    apply elem_of_app. right. by left.
  - rewrite Hnode in Hnode'. injection Hnode' as <-.
    apply Hlast.
    apply (prune_each_complete (pruneBranch fuel nodes)
             (fun c j => ∃ k n, rtc (child_edge nodes) c k ∧ nodes !! k = Some n ∧
                                node_remove n = true ∧ j = Name (node_info n))
             (node_children node)
             (fun n st k => pruneBranch_log_mono nodes fuel n st k)) with st c.
    + intros c' st1 st1' j _ Hrun1 (k' & n' & Hr' & Hn' & Hrm' & ->).
      by eapply IH.
    + done.
    + done.
    + by exists k, n.
Qed.
End sweep_reach.

Section sweep_errors.
Context {W : Type} `{!Snapshotter W}.

Lemma remove_node_error (name : string) (st st' : W * list string) e :
  remove_node name st = (Finished (Some e), st') → IsFailedPrecondition e = false.
Proof.
  unfold remove_node. destruct (drv_Remove name st.1) as [[e'|] w']; [|done].
  destruct (IsFailedPrecondition e') eqn:Hfp; [done|]. by intros [= <- _].
Qed.

Lemma prune_each_error (P : error → Prop)
    (prune : string → W * list string → outcome * (W * list string))
    (ns : list string) :
  (∀ n st e st', n ∈ ns → prune n st = (Finished (Some e), st') → P e) →
  ∀ st e st', prune_each prune ns st = (Finished (Some e), st') → P e.
Proof.
  induction ns as [|n ns IH]; intros Hp st e st' Hrun; simpl in Hrun; [done|].
  destruct (prune n st) as [[[e0|]| |] st0] eqn:Hn; try done.
  - injection Hrun as <- <-. eapply Hp; [by left|done].
  - eapply IH; [|done]. intros n' st1 e1 st1' Hn'. apply Hp. by right.
Qed.

(** An error that ends the pruning is never the tolerated one. *)
Lemma pruneBranch_error nodes fuel :
  ∀ p (st st' : W * list string) e,
    pruneBranch fuel nodes p st = (Finished (Some e), st') →
    IsFailedPrecondition e = false.
Proof.
  induction fuel as [|fuel IH]; intros p st st' e Hrun; simpl in Hrun; [done|].
  destruct (nodes !! p) as [node|]; [|done].
  destruct (prune_each (pruneBranch fuel nodes) (node_children node) st)
    as [[[e0|]| |] st0] eqn:Hch; try done.
  - injection Hrun as <- <-.
    apply (prune_each_error (fun e => IsFailedPrecondition e = false)
             (pruneBranch fuel nodes) (node_children node)) in Hch; [done|].
    intros n st1 e1 st1' _. apply IH.
  - destruct (node_remove node); [|done]. by eapply remove_node_error.
Qed.
End sweep_errors.
(** ** Prepare and View: the record, the driver call and the lineage *)

Section create_props.
Context {L W : Type}.
Context `{!Leases L, !Snapshotter W, !Clock W, !LabelValidator}.

Implicit Types (s : St L W).

(** X3: after a successful Prepare or View of [key], Stat of [key]
    returns the driver's info for the backend key derived from the next
    sequence number, overlaid with the name [key], the parent passed to
    the call, the labels of the options and the time of the call as both
    Created and Updated. *)
Theorem X3_create_then_stat sname ctx key parent readonly opts s s' m :
  createSnapshot sname ctx key parent readonly opts s = (Ok m, s') →
  ∃ ns base, ctx_namespace ctx = Some ns ∧ apply_opts opts emptyInfo = Ok base ∧
    let local := mkInfo 0%N key parent (Labels base)
                   (now (st_world s)) (now (st_world s)) in
    Stat sname ctx key s' =
    match drv_Stat (createKey (sequence (the_bucket s ns sname) + 1)%N ns key)
            (st_world s') with
    | (Ok info, w) => (Ok (overlayInfo info local).1, with_world s' w)
    | (Err e, w) => (Err e, with_world s' w)
    end.
Proof.
  intros Hrun.
  apply createSnapshot_ok_full in Hrun
    as (ns & base & l' & w' & Hctx & Hne & Hopts & _ & Hfresh & _ & _ & _ & ->).
  exists ns, base. split; [done|]. split; [done|]. cbv zeta.
  set (b' := mkBucket (sequence (the_bucket s ns sname) + 1)%N
               (create_records (records (the_bucket s ns sname)) key parent
                  (createKey (sequence (the_bucket s ns sname) + 1)%N ns key)
                  (now (st_world s)) (Labels base))).
  assert (Hb' : buckets (st_db (with_world (with_leases
                  (set_bucket s ns sname b') l') w')) !! (ns, sname) = Some b')
    by apply lookup_set_bucket.
  by rewrite (Stat_found sname ctx ns key _ b' _ Hctx Hne Hb'
                (create_records_new _ _ _ _ _ _)).
Qed.

(** X4: a successful Prepare or View called the driver's Prepare (View
    when read-only) once, with the backend key derived from the next
    sequence number of the bucket, the backend key of the parent record
    (the empty key when there is no parent, and also when the parent is the
    new name itself) and the options; it returns the driver's mounts; the
    new record resolves to that backend key, and a parent other than the
    new name had a record. *)
Theorem X4_create_calls_driver sname ctx key parent readonly opts s s' m :
  createSnapshot sname ctx key parent readonly opts s = (Ok m, s') →
  ∃ ns, ctx_namespace ctx = Some ns ∧ ns ≠ "" ∧
    let backend := createKey (sequence (the_bucket s ns sname) + 1)%N ns key in
    let bparent := if decide (parent = "" ∨ parent = key) then ""
                   else getKey s ns sname parent in
    (if readonly then drv_View else drv_Prepare) backend bparent opts (st_world s)
      = (Ok m, st_world s') ∧
    records (the_bucket s ns sname) !! key = None ∧
    getKey s' ns sname key = backend ∧
    sequence (the_bucket s' ns sname) = (sequence (the_bucket s ns sname) + 1)%N ∧
    (parent ≠ "" → parent ≠ key →
     is_Some (records (the_bucket s ns sname) !! parent)).
Proof.
  intros Hrun.
  apply createSnapshot_ok_full in Hrun
    as (ns & base & l' & w' & Hctx & Hne & Hopts & _ & Hfresh & _ & Hpar & Hdrv & ->).
  exists ns. split; [done|]. split; [done|]. cbv zeta.
  autorewrite with st_norm. cbn [sequence].
  split_and!; try done.
  - rewrite <-Hdrv. f_equal.
    destruct (decide (parent = "")) as [->|Hp]; [by rewrite decide_True by by left|].
    destruct (decide (parent = key)) as [->|Hpk].
    + rewrite decide_True by (by right). by rewrite lookup_insert_eq.
    + rewrite decide_False by (by intros [|]).
      rewrite lookup_insert_ne by done. by rewrite getKey_the_bucket.
  - rewrite getKey_the_bucket. autorewrite with st_norm. cbn [records].
    by rewrite create_records_new.
  - intros Hp Hpk. destruct Hpar as [|Hpar]; [done|].
    by rewrite lookup_insert_ne in Hpar.
Qed.

(** X5: Prepare and View on top of a parent that has no record (and is
    not the new name itself) never succeed, never reach the driver and
    leave the whole state as it was; when every earlier step passes (the
    store refuses an empty name), the error is NotFound. *)
Theorem X5_create_missing_parent sname ctx ns key parent readonly opts s :
  ctx_namespace ctx = Some ns →
  parent ≠ "" → parent ≠ key →
  records (the_bucket s ns sname) !! parent = None →
  ∃ e, createSnapshot sname ctx key parent readonly opts s = (Err e, s) ∧
       (∀ base l', ns ≠ "" → key ≠ "" → apply_opts opts emptyInfo = Ok base →
          validateSnapshot base = None →
          records (the_bucket s ns sname) !! key = None →
          addSnapshotLease ctx sname key (leases (st_db s)) = Ok l' →
          e = ErrNotFound).
Proof.
  intros Hctx Hp Hpk Hnone. unfold createSnapshot.
  destruct (decide (ns = "")) as [Hns|Hns].
  { exists ErrFailedPrecondition. split; [|done].
    apply bind_err. by rewrite NamespaceRequired_run, Hctx, decide_True. }
  rewrite (bind_run _ _ s ns s) by (by rewrite NamespaceRequired_run, Hctx, decide_False).
  destruct (apply_opts opts emptyInfo) as [base|e0] eqn:Hopts.
  2:{ exists e0. split; [by apply bind_err|]. by intros ? ? _ _ [=]. }
  rewrite (bind_run _ _ s base s) by done.
  destruct (validateSnapshot base) as [e1|] eqn:Hval.
  { exists e1. split; [by apply bind_err|].
    intros ? ? _ _ [= <-]. congruence. }
  rewrite (bind_run _ _ s tt s) by done.
  set (b := the_bucket s ns sname) in *.
  destruct (records b !! key) as [r|] eqn:Hkey.
  { exists ErrAlreadyExists. split; [|by intros ? ? _ _ _ _ [=]].
    apply (update_rollback _ s _ (set_bucket s ns sname b)); [|done..].
    rewrite (bind_run _ _ _ _ _ (createSnapshotterBucket_run _ _ _)).
    apply bind_err. unfold exists_to_AlreadyExists, bkt_CreateBucket.
    autorewrite with st_norm. fold b. by rewrite Hkey. }
  set (s1 := set_bucket s ns sname
               (mkBucket (sequence b) (<[key := emptyRecord]> (records b)))).
  assert (Hcreate : exists_to_AlreadyExists (bkt_CreateBucket ns sname key)
                      (set_bucket s ns sname b) = (Ok tt, s1)).
  { unfold exists_to_AlreadyExists, bkt_CreateBucket.
    autorewrite with st_norm. fold b. by rewrite Hkey. }
  destruct (addSnapshotLease ctx sname key (leases (st_db s))) as [l'|e2] eqn:Hlease.
  2:{ exists e2. split; [|by intros ? ? _ _ _ _ _ [=]].
      apply (update_rollback _ s _ s1); [|done..].
      rewrite (bind_run _ _ _ _ _ (createSnapshotterBucket_run _ _ _)).
      rewrite (bind_run _ _ _ _ _ Hcreate).
      apply bind_err. unfold lease. subst s1. autorewrite with st_norm.
      by rewrite Hlease. }
  exists ErrNotFound. split; [|done].
  apply (update_rollback _ s _ (with_leases s1 l')); [|done..].
  rewrite (bind_run _ _ _ _ _ (createSnapshotterBucket_run _ _ _)).
  rewrite (bind_run _ _ _ _ _ Hcreate).
  rewrite (bind_run _ _ _ _ _ (lease_run _ s1 l' Hlease)).
  apply bind_err. rewrite decide_False by done.
  rewrite (bind_run (bkt_Bucket _ _ _) _ _ _ _ eq_refl).
  subst s1. autorewrite with st_norm. cbn [records].
  by rewrite lookup_insert_ne, Hnone by done.
Qed.

(** X29: once the namespace, the options, the labels, a free non-empty
    name, the lease and the parent (none, or one with a record) are
    accepted, the driver decides: Prepare (View when read-only) returns
    what the driver's call on the derived backend keys returns.  When the
    driver fails, the store is as it was and only the driver's world moved;
    when it succeeds, the bucket holds the new record, the parent lists
    the new name among its children and the sequence counter is one
    higher. *)
Theorem X29_create_decided_by_driver sname ctx ns key parent readonly opts s base l' :
  ctx_namespace ctx = Some ns → ns ≠ "" → key ≠ "" →
  apply_opts opts emptyInfo = Ok base → validateSnapshot base = None →
  records (the_bucket s ns sname) !! key = None →
  addSnapshotLease ctx sname key (leases (st_db s)) = Ok l' →
  parent = "" ∨ parent = key ∨
    is_Some (records (the_bucket s ns sname) !! parent) →
  let b := the_bucket s ns sname in
  let backend := createKey (sequence b + 1)%N ns key in
  let bparent := if decide (parent = "" ∨ parent = key) then ""
                 else getKey s ns sname parent in
  createSnapshot sname ctx key parent readonly opts s =
  match (if readonly then drv_View else drv_Prepare) backend bparent opts
          (st_world s) with
  | (Ok m, w') =>
      (Ok m, with_world (with_leases (set_bucket s ns sname
               (mkBucket (sequence b + 1)%N
                  (create_records (records b) key parent backend
                     (now (st_world s)) (Labels base)))) l') w')
  | (Err e, w') => (Err e, with_world s w')
  end.
Proof.
  intros Hctx Hne _ Hopts Hval Hfresh Hlease Hparent. cbv zeta.
  assert (Hpar : parent = "" ∨
            is_Some (<[key := emptyRecord]> (records (the_bucket s ns sname))
                       !! parent)).
  { destruct (decide (parent = key)) as [->|Hpk].
    - right. rewrite lookup_insert_eq. eauto.
    - destruct Hparent as [|[|Hr]]; [by left|done|].
      right. by rewrite lookup_insert_ne. }
  rewrite (createSnapshot_run sname ctx ns key parent readonly opts s base l')
    by done.
  cbv zeta.
  assert ((if decide (parent = "") then ""
           else default "" (r_name <$> <[key:=emptyRecord]>
                              (records (the_bucket s ns sname)) !! parent))
          = (if decide (parent = "" ∨ parent = key) then ""
             else getKey s ns sname parent)) as ->; [|done].
  destruct (decide (parent = "")) as [->|Hp]; [by rewrite decide_True by by left|].
  destruct (decide (parent = key)) as [->|Hpk].
  - rewrite decide_True by (by right). by rewrite lookup_insert_eq.
  - rewrite decide_False by (by intros [|]).
    rewrite lookup_insert_ne by done. by rewrite getKey_the_bucket.
Qed.
End create_props.
(** ** Remove *)

Section remove_props.
Context {L W : Type}.
Context `{!Leases L, !Clock W, !LabelValidator}.

Implicit Types (s : St L W).

(** X11: Remove is a pure metadata operation: it never calls the driver
    (the world is untouched whatever the result), a failing Remove leaves
    the whole state as it was, and the snapshotter is marked dirty exactly
    when Remove succeeds. *)
Theorem X11_remove_is_metadata_only sname ctx key s :
  st_world (Remove sname ctx key s).2 = st_world s ∧
  (∀ e s', Remove sname ctx key s = (Err e, s') → s' = s) ∧
  (∀ u s', Remove sname ctx key s = (Ok u, s') →
           st_dirty s' = {[sname]} ∪ st_dirty s).
Proof.
  rewrite Remove_cases.
  destruct (ctx_namespace ctx) as [ns|]; [|by split_and!; [|intros ? ? [=]..]].
  destruct (decide (ns = "")); [by split_and!; [|intros ? ? [=]..]|].
  destruct (buckets (st_db s) !! (ns, sname)) as [b|];
    [|by split_and!; [|intros ? ? [=]..]].
  destruct (records b !! key) as [r|]; [|by split_and!; [|intros ? ? [=]..]].
  destruct (decide (r_children r = None ∨ r_children r = Some ∅));
    [|by split_and!; [|intros ? ? [=]..]].
  destruct (decide (r_parent r = "" ∨ is_Some (records b !! r_parent r)));
    [|by split_and!; [|intros ? ? [=]..]].
  destruct (removeSnapshotLease ctx sname key (leases (st_db s))) as [l'|e];
    [|by split_and!; [|intros ? ? [=]..]].
  split_and!; [done|intros ? ? [=]|by intros ? ? [= _ <-]].
Qed.

Lemma Remove_has_children sname ctx ns key s r c :
  ctx_namespace ctx = Some ns → ns ≠ "" →
  records (the_bucket s ns sname) !! key = Some r →
  r_children r = Some c → c ≠ ∅ →
  Remove sname ctx key s = (Err ErrFailedPrecondition, s).
Proof.
  intros Hctx Hne. rewrite Remove_cases, Hctx, decide_False by done.
  unfold the_bucket.
  destruct (buckets (st_db s) !! (ns, sname)) as [b|]; cbn [default from_option id].
  2:{ intros Hr. change (records emptyBucket) with (∅ : gmap string record) in Hr.
      by rewrite lookup_empty in Hr. }
  intros -> Hc Hnon. rewrite decide_False; [done|].
  intros [|]; congruence.
Qed.

(** X12: the refusals of Remove, in the order the code checks them: a
    name without a record gives NotFound; a record whose children
    sub-bucket holds an entry gives FailedPrecondition, before the parent
    is looked at; a record without children whose parent has no record
    gives NotFound.  Nothing is written in any of these cases. *)
Theorem X12_remove_refusals sname ctx ns key s :
  ctx_namespace ctx = Some ns → ns ≠ "" →
  (records (the_bucket s ns sname) !! key = None →
   Remove sname ctx key s = (Err ErrNotFound, s)) ∧
  (∀ r c, records (the_bucket s ns sname) !! key = Some r →
     r_children r = Some c → c ≠ ∅ →
     Remove sname ctx key s = (Err ErrFailedPrecondition, s)) ∧
  (∀ r, records (the_bucket s ns sname) !! key = Some r →
     (∀ c, r_children r = Some c → c = ∅) →
     r_parent r ≠ "" → records (the_bucket s ns sname) !! r_parent r = None →
     Remove sname ctx key s = (Err ErrNotFound, s)).
Proof.
  intros Hctx Hne. rewrite Remove_cases, Hctx, decide_False by done.
  unfold the_bucket.
  destruct (buckets (st_db s) !! (ns, sname)) as [b|]; cbn [default from_option id].
  2:{ split_and!; [done|intros r c Hr..|intros r Hr];
        change (records emptyBucket) with (∅ : gmap string record) in Hr;
        by rewrite lookup_empty in Hr. }
  split_and!.
  - by intros ->.
  - intros r c -> Hc Hnon. rewrite decide_False; [done|].
    intros [|]; congruence.
  - intros r -> Hc Hp Hnone. rewrite decide_True.
    2:{ destruct (r_children r) as [c|]; [right|by left]. f_equal. by apply Hc. }
    rewrite decide_False; [done|].
    intros [|[? ?]]; congruence.
Qed.
End remove_props.

Section remove_effect.
Context {L W : Type}.
Context `{!Leases L, !Snapshotter W, !Clock W, !LabelValidator}.

Implicit Types (s : St L W).

(** X13: a successful Remove of [key] found a record without children,
    deleted it, took [key] out of the children of its parent and changed
    nothing else: no other record, no sequence counter, no other bucket;
    Stat of [key] then fails with NotFound. *)
Theorem X13_remove_effect sname ctx key s s' u :
  Remove sname ctx key s = (Ok u, s') →
  ∃ ns b r, ctx_namespace ctx = Some ns ∧
    buckets (st_db s) !! (ns, sname) = Some b ∧ records b !! key = Some r ∧
    (∀ c, r_children r = Some c → c = ∅) ∧
    sequence (the_bucket s' ns sname) = sequence b ∧
    (∀ k, records (the_bucket s' ns sname) !! k
          = if decide (k = key) then None
            else if decide (r_parent r ≠ "" ∧ k = r_parent r)
                 then children_delete key <$> records b !! k
                 else records b !! k) ∧
    (∀ p, p ≠ (ns, sname) → buckets (st_db s') !! p = buckets (st_db s) !! p) ∧
    Stat sname ctx key s' = (Err ErrNotFound, s').
Proof.
  rewrite Remove_cases.
  destruct (ctx_namespace ctx) as [ns|] eqn:Hctx; [|done].
  destruct (decide (ns = "")) as [|Hne]; [done|].
  destruct (buckets (st_db s) !! (ns, sname)) as [b|] eqn:Hb; [|done].
  destruct (records b !! key) as [r|] eqn:Hr; [|done].
  destruct (decide (r_children r = None ∨ r_children r = Some ∅)) as [Hc|];
    [|done].
  destruct (decide (r_parent r = "" ∨ is_Some (records b !! r_parent r)));
    [|done].
  destruct (removeSnapshotLease ctx sname key (leases (st_db s))) as [l'|e];
    [|done].
  intros [= <- <-]. exists ns, b, r.
  assert (Hthe : ∀ w d, the_bucket
            (mkSt (mkStore (<[(ns, sname) :=
                     mkBucket (sequence b)
                       (remove_records (records b) key (r_parent r))]>
                    (buckets (st_db s))) l') w d : St L W) ns sname
            = mkBucket (sequence b) (remove_records (records b) key (r_parent r))).
  { intros w d. unfold the_bucket. cbn [st_db buckets].
    by rewrite lookup_insert_eq. }
  split_and!; try done.
  - intros c Hcc. destruct Hc as [Hc|Hc]; congruence.
  - by rewrite Hthe.
  - intros k. rewrite Hthe. apply remove_records_lookup.
  - intros p Hp. cbn [st_db buckets]. by rewrite lookup_insert_ne.
  - apply (Stat_missing sname ctx ns); [done..|].
    rewrite Hthe. cbn [records]. rewrite remove_records_lookup.
    by rewrite decide_True.
Qed.

(** X14: a record that was just created on top of a parent blocks the
    removal of that parent: Remove of the parent fails with
    FailedPrecondition and changes nothing.  A record created with its own
    name as parent blocks its own removal. *)
Theorem X14_child_blocks_parent sname ctx key parent readonly opts s s' m :
  createSnapshot sname ctx key parent readonly opts s = (Ok m, s') →
  parent ≠ "" →
  Remove sname ctx parent s' = (Err ErrFailedPrecondition, s').
Proof.
  intros Hrun Hp.
  apply createSnapshot_ok_full in Hrun
    as (ns & base & l' & w' & Hctx & Hne & _ & _ & Hfresh & _ & Hpar & _ & ->).
  destruct Hpar as [|[pb Hpb]]; [done|].
  set (b := the_bucket s ns sname) in *.
  set (recs' := create_records (records b) key parent
                  (createKey (sequence b + 1)%N ns key) (now (st_world s))
                  (Labels base)).
  assert (Hlk : ∃ r c, recs' !! parent = Some r ∧ r_children r = Some c ∧ key ∈ c).
  { destruct (decide (parent = key)) as [->|Hpk].
    - unfold recs'. rewrite create_records_new. eexists _, _.
      split; [done|]. cbn [r_children].
      rewrite decide_False, decide_True by done. split; [done|].
      apply elem_of_union_l. by apply elem_of_singleton.
    - unfold recs'. rewrite create_records_old, decide_True by done.
      rewrite lookup_insert_ne in Hpb by done. rewrite Hpb.
      eexists _, _. split; [done|]. cbn [r_children children_put].
      split; [done|]. apply elem_of_union_l. by apply elem_of_singleton. }
  destruct Hlk as (r & c & Hr & Hc & Hin).
  eapply (Remove_has_children sname ctx ns parent _ r c Hctx Hne).
  - autorewrite with st_norm. exact Hr.
  - done.
  - intros ->. by apply elem_of_empty in Hin.
Qed.
End remove_effect.
(** ** Update *)

Section update_more.
Context {L W : Type}.
Context `{!Leases L, !Snapshotter W, !Clock W, !LabelValidator}.

Implicit Types (s : St L W).

(** X7: the refusals of Update: an empty name gives InvalidArgument; a
    name without a record gives NotFound; a field path that is neither
    labels nor labels.<k>, anywhere in the list, gives InvalidArgument.
    In each case nothing is written and the driver is not asked. *)
Theorem X7_update_refusals sname ctx ns (info : Info) paths s :
  ctx_namespace ctx = Some ns → ns ≠ "" →
  (Name info = "" →
   Update sname ctx info paths s = (Err ErrInvalidArgument, s)) ∧
  (Name info ≠ "" → records (the_bucket s ns sname) !! Name info = None →
   Update sname ctx info paths s = (Err ErrNotFound, s)) ∧
  (∀ p, Name info ≠ "" → is_Some (records (the_bucket s ns sname) !! Name info) →
     p ∈ paths → p ≠ "labels" → (∀ k, p ≠ "labels." +:+ k) →
     Update sname ctx info paths s = (Err ErrInvalidArgument, s)).
Proof.
  intros Hctx Hne. rewrite Update_cases, Hctx, decide_False by done.
  split_and!.
  - intros Hname. by rewrite decide_True.
  - intros Hname. rewrite decide_False by done. unfold the_bucket.
    destruct (buckets (st_db s) !! (ns, sname)) as [b|]; [|done].
    cbn [default from_option id]. by intros ->.
  - intros p Hname Hrec Hin Hp Hpre. rewrite decide_False by done.
    unfold the_bucket in Hrec.
    destruct (buckets (st_db s) !! (ns, sname)) as [b|];
      cbn [default from_option id] in Hrec.
    2:{ change (records emptyBucket) with (∅ : gmap string record) in Hrec.
        rewrite lookup_empty in Hrec. by destruct Hrec. }
    destruct Hrec as [r ->].
    assert (∃ e, update_labels paths (Labels info) (r_labels r) = Err e
                 ∧ e = ErrInvalidArgument) as (e & -> & ->); [|done].
    unfold update_labels. destruct paths as [|q paths];
      [by apply elem_of_nil in Hin|].
    by apply (apply_fieldpaths_bad_path _ _ _ p).
Qed.

End update_more.

(** ** Usage and Mounts *)

Section forwarded_props.
Context {L W : Type}.
Context `{!Leases L, !Snapshotter W, !SnapshotterQuery W, !Clock W, !LabelValidator}.

Implicit Types (s : St L W).

(** X2: Usage and Mounts translate the name and forward: for a record
    with a backend key they return whatever the driver's Usage (Mounts)
    returns for that key, and only the world changes; for a name without a
    record, or with an empty backend key, they fail with NotFound without
    calling the driver. *)
Theorem X2_usage_mounts_forward sname ctx ns key s :
  ctx_namespace ctx = Some ns → ns ≠ "" →
  (∀ r, records (the_bucket s ns sname) !! key = Some r → r_name r ≠ "" →
     Usage sname ctx key s
       = ((drv_Usage (r_name r) (st_world s)).1,
          with_world s (drv_Usage (r_name r) (st_world s)).2) ∧
     Mounts sname ctx key s
       = ((drv_Mounts (r_name r) (st_world s)).1,
          with_world s (drv_Mounts (r_name r) (st_world s)).2)) ∧
  (records (the_bucket s ns sname) !! key = None ∨
   (∃ r, records (the_bucket s ns sname) !! key = Some r ∧ r_name r = "") →
     Usage sname ctx key s = (Err ErrNotFound, s) ∧
     Mounts sname ctx key s = (Err ErrNotFound, s)).
Proof.
  intros Hctx Hne.
  pose proof (resolveKey_run sname ctx ns key s Hctx Hne) as Hres.
  rewrite getKey_the_bucket in Hres.
  split.
  - intros r Hr Hname. rewrite Hr in Hres. cbn in Hres.
    rewrite decide_False in Hres by done.
    unfold Usage, Mounts. rewrite !(bind_run _ _ _ _ _ Hres).
    unfold driver.
    destruct (drv_Usage (r_name r) (st_world s)) as [ru wu].
    by destruct (drv_Mounts (r_name r) (st_world s)) as [rm wm].
  - intros Hin.
    assert (default "" (r_name <$> records (the_bucket s ns sname) !! key) = "")
      as Hempty.
    { destruct Hin as [->|(r & -> & Hr)]; [done|]. exact Hr. }
    rewrite Hempty, decide_True in Hres by done.
    unfold Usage, Mounts. by rewrite !(bind_err _ _ _ _ _ Hres).
Qed.

(** X6: after a successful Prepare or View of [key], Mounts and Usage
    of [key] ask the driver for the backend key that Prepare derived. *)
Theorem X6_create_then_mounts sname ctx key parent readonly opts s s' m :
  createSnapshot sname ctx key parent readonly opts s = (Ok m, s') →
  ∃ ns, ctx_namespace ctx = Some ns ∧
    let backend := createKey (sequence (the_bucket s ns sname) + 1)%N ns key in
    Mounts sname ctx key s'
      = ((drv_Mounts backend (st_world s')).1,
         with_world s' (drv_Mounts backend (st_world s')).2) ∧
    Usage sname ctx key s'
      = ((drv_Usage backend (st_world s')).1,
         with_world s' (drv_Usage backend (st_world s')).2).
Proof.
  intros Hrun.
  apply createSnapshot_ok_full in Hrun
    as (ns & base & l' & w' & Hctx & Hne & _ & _ & Hfresh & _ & _ & _ & ->).
  exists ns. split; [done|]. cbv zeta.
  set (backend := createKey (sequence (the_bucket s ns sname) + 1)%N ns key).
  match goal with |- context [Mounts sname ctx key ?st] => set (s' := st) end.
  assert (Hres : resolveKey sname ctx key s' = (Ok backend, s')).
  { rewrite (resolveKey_run sname ctx ns key s' Hctx Hne), getKey_the_bucket.
    unfold s'. autorewrite with st_norm. cbn [records].
    rewrite create_records_new. cbn.
    rewrite decide_False; [done|]. unfold backend, createKey.
    destruct ns; [done|discriminate]. }
  unfold Usage, Mounts. rewrite !(bind_run _ _ _ _ _ Hres). unfold driver.
  destruct (drv_Usage backend (st_world s')) as [ru wu].
  by destruct (drv_Mounts backend (st_world s')) as [rm wm].
Qed.
End forwarded_props.

(** ** validateSnapshot *)

Section validate_props.
Context `{!LabelValidator}.

(** X15: validateSnapshot accepts an Info exactly when the validator
    accepts every label of its map (a nil map has none), and an error it
    returns is the validator's error for one of the labels. *)
Theorem X15_validateSnapshot_all_labels (i : Info) :
  (validateSnapshot i = None ↔
   ∀ m k v, Labels i = Some m → m !! k = Some v → labels_Validate k v = None) ∧
  (∀ e, validateSnapshot i = Some e →
        ∃ m k v, Labels i = Some m ∧ m !! k = Some v ∧ labels_Validate k v = Some e).
Proof.
  unfold validateSnapshot. destruct (Labels i) as [m|]; [|by split; [split|]].
  split.
  - rewrite first_error_None, Forall_fmap, Forall_forall. split.
    + intros Hall m' k v [= <-] Hkv.
      by apply (Hall (k, v)), elem_of_map_to_list.
    + intros Hall [k v] Hkv%elem_of_map_to_list. by apply (Hall m).
  - intros e He%first_error_Some.
    apply list_elem_of_fmap in He as ([k v] & Heq & Hkv%elem_of_map_to_list).
    exists m, k, v. by split_and!.
Qed.
End validate_props.
(** ** The store along any sequence of calls *)

Section call_invariants.
Context {L W : Type}.
Context `{!Leases L, !Clock W, !LabelValidator}.

Implicit Types (s : St L W).

Lemma run_calls_children_sound (cs : list (call W)) s :
  store_children_sound s → store_children_sound (run_calls cs s).1.
Proof.
  intros Hs. unfold run_calls.
  apply (foldl_invariant (fun acc => store_children_sound acc.1)); [done|].
  intros acc c _. apply run_call_children_sound.
Qed.

Lemma run_calls_named (cs : list (call W)) s :
  store_named s → store_named (run_calls cs s).1.
Proof.
  intros Hs. unfold run_calls.
  apply (foldl_invariant (fun acc => store_named acc.1)); [done|].
  intros acc c _. apply run_call_named.
Qed.

Lemma empty_store_children_sound (l : L) (w : W) d :
  store_children_sound (mkSt (mkStore ∅ l) w d).
Proof. intros p b Hp. cbn in Hp. by rewrite lookup_empty in Hp. Qed.

Lemma empty_store_named (l : L) (w : W) d :
  store_named (mkSt (mkStore ∅ l) w d).
Proof. intros ns sn b Hp. cbn in Hp. by rewrite lookup_empty in Hp. Qed.

(** X17: the children sub-buckets stay sound: an empty store is sound,
    and after any sequence of Prepare, View, Commit, Remove and Update
    calls, on any snapshotters and whatever each call returns, every entry
    of a children sub-bucket names an existing record of the same bucket
    whose parent field is the owner of the sub-bucket. *)
Theorem X17_children_index_sound :
  (∀ (l : L) (w : W) d, store_children_sound (mkSt (mkStore ∅ l) w d)) ∧
  (∀ (cs : list (call W)) s,
     store_children_sound s → store_children_sound (run_calls cs s).1).
Proof.
  split; [apply empty_store_children_sound|apply run_calls_children_sound].
Qed.

(** X18: on a store with sound children sub-buckets, a Remove that is
    refused with FailedPrecondition (the namespace being set and the lease
    bookkeeping not answering with that error itself) is refused because
    of a record that exists and names the removed key as its parent. *)
Theorem X18_refusal_has_live_child sname ctx ns key s s' :
  store_children_sound s →
  ctx_namespace ctx = Some ns → ns ≠ "" →
  removeSnapshotLease ctx sname key (leases (st_db s)) ≠ Err ErrFailedPrecondition →
  Remove sname ctx key s = (Err ErrFailedPrecondition, s') →
  ∃ b child r, buckets (st_db s) !! (ns, sname) = Some b ∧
               records b !! child = Some r ∧ r_parent r = key.
Proof.
  intros Hs Hctx Hne Hlease. rewrite Remove_cases, Hctx, decide_False by done.
  destruct (buckets (st_db s) !! (ns, sname)) as [b|] eqn:Hb; [|done].
  destruct (records b !! key) as [r|] eqn:Hr; [|done].
  destruct (decide (r_children r = None ∨ r_children r = Some ∅)) as [|Hc].
  { destruct (decide (r_parent r = "" ∨ is_Some (records b !! r_parent r)));
      [|done].
    destruct (removeSnapshotLease ctx sname key (leases (st_db s))) as [l'|e];
      [done|].
    intros [= -> _]. by destruct Hlease. }
  intros _. destruct (r_children r) as [c|] eqn:Hch; [|by destruct Hc; left].
  destruct (set_choose_or_empty c) as [[child Hin]|Hempty].
  - destruct (Hs _ b Hb key r c child Hr Hch Hin) as (_ & rc & Hrc & Hpar).
    by exists b, child, rc.
  - apply leibniz_equiv in Hempty. subst c. destruct Hc. by right.
Qed.

(** X19: backend keys stay well-formed: an empty store is, and after
    any sequence of Prepare, View, Commit, Remove and Update calls every
    record carries the backend key derived by createKey from the namespace
    of its bucket, its own name and a sequence number between 1 and the
    counter of its bucket. *)
Theorem X19_backend_keys_named :
  (∀ (l : L) (w : W) d, store_named (mkSt (mkStore ∅ l) w d)) ∧
  (∀ (cs : list (call W)) s, store_named s → store_named (run_calls cs s).1).
Proof. split; [apply empty_store_named|apply run_calls_named]. Qed.

(** X20: on a store whose backend keys are well-formed, every record
    resolves (resolveKey returns its backend key, never NotFound), and two
    records of one snapshotter name, in namespaces without the separator,
    share a backend key only if they are the same record: same namespace,
    same name. *)
Theorem X20_live_keys_resolve_and_differ s :
  store_named s →
  (∀ sname ctx ns b key r,
     ctx_namespace ctx = Some ns → ns ≠ "" →
     buckets (st_db s) !! (ns, sname) = Some b → records b !! key = Some r →
     resolveKey sname ctx key s = (Ok (r_name r), s)) ∧
  (∀ sname ns1 ns2 b1 b2 k1 k2 r1 r2,
     no_slash ns1 = true → no_slash ns2 = true →
     buckets (st_db s) !! (ns1, sname) = Some b1 → records b1 !! k1 = Some r1 →
     buckets (st_db s) !! (ns2, sname) = Some b2 → records b2 !! k2 = Some r2 →
     r_name r1 = r_name r2 → ns1 = ns2 ∧ k1 = k2).
Proof.
  intros Hs. split.
  - intros sname ctx ns b key r Hctx Hne Hb Hr.
    rewrite (resolveKey_run sname ctx ns key s Hctx Hne).
    assert (getKey s ns sname key = r_name r) as ->.
    { unfold getKey. by rewrite Hb, Hr. }
    destruct (Hs ns sname b Hb key r Hr) as (id & -> & _).
    rewrite decide_False; [done|]. unfold createKey.
    destruct ns; [done|discriminate].
  - intros sname ns1 ns2 b1 b2 k1 k2 r1 r2 Hn1 Hn2 Hb1 Hr1 Hb2 Hr2 Heq.
    destruct (Hs ns1 sname b1 Hb1 k1 r1 Hr1) as (id1 & Hid1 & _).
    destruct (Hs ns2 sname b2 Hb2 k2 r2 Hr2) as (id2 & Hid2 & _).
    rewrite Hid1, Hid2 in Heq.
    by apply createKey_inj in Heq as (_ & -> & ->).
Qed.
End call_invariants.

(** ** Walk on a namespace without snapshots *)

Section walk_more.
Context {L W : Type}.
Context `{!Leases L, !Snapshotter W, !Clock W, !LabelValidator}.

(** X16: Walk in a namespace whose bucket is missing or holds no record
    returns nil after one round: the visitor is not called, the driver is
    not asked, the state is the one Walk started from.  Without a namespace
    in the context Walk fails before it reads anything. *)
Theorem X16_walk_nothing_to_visit {V} (fn : Info → V → option error * V)
    sname ctx (s : St L W) (v : V) fuel :
  (∀ ns, ctx_namespace ctx = Some ns → ns ≠ "" →
     records (the_bucket s ns sname) = ∅ →
     Walk (S fuel) sname ctx fn s v = Some (None, s, v)) ∧
  (ctx_namespace ctx = None →
     Walk fuel sname ctx fn s v = Some (Some ErrFailedPrecondition, s, v)).
Proof.
  split.
  - intros ns Hctx Hne Hempty. unfold Walk.
    rewrite NamespaceRequired_run, Hctx, decide_False by done.
    cbn [Walk_loop]. unfold the_bucket in Hempty.
    destruct (buckets (st_db s) !! (ns, sname)) as [b|]; [|done].
    cbn in Hempty. rewrite decide_True by done.
    unfold cursor_entries. rewrite Hempty, map_to_list_empty.
    cbn. by rewrite with_world_same.
  - intros Hctx. unfold Walk. by rewrite NamespaceRequired_run, Hctx.
Qed.
End walk_more.
(** ** Commit: the driver call and the child link *)

Section commit_more.
Context {L W : Type}.
Context `{!Leases L, !Snapshotter W, !Clock W, !LabelValidator}.

Implicit Types (s : St L W).

(** X10: a successful Commit of [key] under another name [name] found
    the record of [key] and no record of [name], called the driver's Commit
    once with the backend key derived for [name] from the next sequence
    number and the backend key of [key], deleted the record of [key] and, in
    the children of its parent, replaced [key] by [name].  Every other
    record is as it was: in particular a record that named [key] as its
    parent still does. *)
Theorem X10_commit_effect sname ctx name key opts s s' u :
  Commit sname ctx name key opts s = (Ok u, s') → key ≠ name →
  ∃ ns b ob, ctx_namespace ctx = Some ns ∧
    buckets (st_db s) !! (ns, sname) = Some b ∧
    records b !! key = Some ob ∧ records b !! name = None ∧
    drv_Commit (createKey (sequence b + 1)%N ns name) (r_name ob) (st_world s)
      = (None, st_world s') ∧
    sequence (the_bucket s' ns sname) = (sequence b + 1)%N ∧
    records (the_bucket s' ns sname) !! key = None ∧
    getKey s' ns sname name = createKey (sequence b + 1)%N ns name ∧
    (∀ k, k ≠ key → k ≠ name →
       records (the_bucket s' ns sname) !! k
       = if decide (r_parent ob ≠ "" ∧ k = r_parent ob)
         then (fun r => children_put name (children_create_delete key r))
                <$> records b !! k
         else records b !! k) ∧
    (∀ p, p ≠ (ns, sname) → buckets (st_db s') !! p = buckets (st_db s) !! p).
Proof.
  intros Hrun Hkn.
  apply Commit_ok_full in Hrun
    as (ns & b & ob & base & l1 & l2 & w' & Hctx & Hne & _ & _ & Hb & Hfresh & Hob
        & _ & _ & _ & Hdrv & ->).
  rewrite lookup_insert_ne in Hob by done.
  exists ns, b, ob. autorewrite with st_norm. cbn [sequence records].
  split_and!; try done.
  - rewrite commit_records_lookup. by rewrite decide_True.
  - rewrite getKey_the_bucket. autorewrite with st_norm. cbn [records].
    rewrite commit_records_lookup.
    by rewrite decide_False, decide_True by done.
  - intros k Hk1 Hk2. rewrite commit_records_lookup.
    by rewrite !decide_False by done.
  - intros p Hp. by apply lookup_set_bucket_ne.
Qed.

End commit_more.

(** ** createKey *)

(** X1: createKey is injective on namespaces without the separator:
    equal backend keys come from the same sequence number, namespace and
    name, whatever characters the name holds; a backend key is never empty;
    with a separator in the namespace two different triples give one key. *)
Theorem X1_createKey_injective :
  (∀ id id' ns ns' key key',
     no_slash ns = true → no_slash ns' = true →
     createKey id ns key = createKey id' ns' key' →
     id = id' ∧ ns = ns' ∧ key = key') ∧
  (∀ id ns key, createKey id ns key ≠ "") ∧
  createKey 1 "a" "1/x" = createKey 1 "a/1" "x".
Proof.
  split; [exact createKey_inj|]. split; [|done].
  intros id ns key. unfold createKey. destruct ns; discriminate.
Qed.
(** ** The collector: discovery, reach and completeness of a pass *)

Section forest_of_report.
Implicit Types (infos : list Info).

Lemma shape_root seen infos r :
  r ∈ (foldl (walkTree_fn seen) ([], ∅) infos).1 →
  ∃ i, i ∈ infos ∧ Name i = r ∧ Parent i = "".
Proof.
  destruct (walkTree_shape seen infos) as (Hr & _). cbv zeta in Hr. rewrite Hr.
  intros (i & -> & [Hp Hi]%list_elem_of_filter)%list_elem_of_fmap. by exists i.
Qed.

Lemma shape_root_of seen infos (i : Info) :
  i ∈ infos → Parent i = "" →
  Name i ∈ (foldl (walkTree_fn seen) ([], ∅) infos).1.
Proof.
  intros Hi Hp. destruct (walkTree_shape seen infos) as (Hr & _).
  cbv zeta in Hr. rewrite Hr. apply list_elem_of_fmap. exists i.
  split; [done|]. by apply list_elem_of_filter.
Qed.

Lemma shape_edge seen infos p c :
  child_edge (foldl (walkTree_fn seen) ([], ∅) infos).2 p c ↔ parent_of infos c p.
Proof.
  destruct (walkTree_shape seen infos) as (_ & Hc & _ & _ & Hp). cbv zeta in *.
  split.
  - intros (n & Hn & Hin). rewrite (Hc p n Hn) in Hin.
    apply list_elem_of_fmap in Hin as (i & -> & [[Hne <-] Hi]%list_elem_of_filter).
    by exists i.
  - intros (i & Hi & <- & <- & Hne).
    destruct (Hp i Hi Hne) as [n Hn]. exists n. split; [done|].
    rewrite (Hc _ n Hn). apply list_elem_of_fmap. exists i. split; [done|].
    by apply list_elem_of_filter.
Qed.

Lemma shape_marked seen infos p n :
  (foldl (walkTree_fn seen) ([], ∅) infos).2 !! p = Some n →
  node_remove n = true →
  Name (node_info n) = p ∧ (p ∉ seen) ∧ (∃ i, i ∈ infos ∧ Name i = p).
Proof.
  destruct (walkTree_shape seen infos) as (_ & _ & Hi & _). cbv zeta in *.
  intros Hn Hrm.
  destruct (Hi p n Hn) as [(i & Hin & Hip & Hii & Hir)|(_ & _ & Hf)]; [|congruence].
  split; [congruence|]. split; [|by exists i].
  rewrite Hrm in Hir. symmetry in Hir.
  by apply negb_true_iff, bool_decide_eq_false in Hir.
Qed.

Lemma shape_reported seen infos (i : Info) :
  i ∈ infos →
  ∃ n, (foldl (walkTree_fn seen) ([], ∅) infos).2 !! Name i = Some n ∧
       Name (node_info n) = Name i ∧ node_info n ∈ infos ∧
       node_remove n = negb (bool_decide (Name i ∈ seen)).
Proof.
  destruct (walkTree_shape seen infos) as (_ & _ & Hi & Hd & _). cbv zeta in *.
  intros Hin. destruct (Hd i Hin) as [n Hn]. exists n. split; [done|].
  destruct (Hi _ n Hn) as [(j & Hj & Hjp & Hji & Hjr)|(Hnone & _)].
  - subst j. done.
  - by destruct (Hnone i Hin).
Qed.

Lemma rooted_reported infos k :
  rooted infos k → ∃ i, i ∈ infos ∧ Name i = k.
Proof.
  intros (r & Hreach & i & Hi & Hn & Hp).
  apply rtc_inv in Hreach as [<-|(p & (j & Hj & Hjn & _) & _)]; eauto.
Qed.

Lemma rooted_child infos p c :
  rooted infos p → parent_of infos c p → rooted infos c.
Proof.
  intros (r & Hreach & Hroot) Hcp. exists r. split; [|done].
  by eapply rtc_l.
Qed.

Lemma rtc_parent_child seen infos k r :
  rtc (parent_of infos) k r →
  rtc (child_edge (foldl (walkTree_fn seen) ([], ∅) infos).2) r k.
Proof.
  induction 1 as [|x y z Hxy _ IH]; [done|].
  eapply rtc_r; [done|]. by apply shape_edge.
Qed.
End forest_of_report.

Section gc_more.
Context {L W : Type}.
Context `{!Snapshotter W, !Clock W}.

(** X21: an error ends the pass without the deferred Cleanup.  When
    the driver's Walk ends with an error, the pass returns at once with a
    zero duration and that error: the infos visited before the failure are
    dropped and Remove is called on nothing.  When a Remove of the sweep
    fails with an error other than FailedPrecondition, the pass returns a
    zero duration and that error, with the Remove calls made so far.  In
    both cases the world is left as that step left it: Cleanup did not
    run. *)
Theorem X21_gc_error_skips_cleanup fuel sname (s : St L W) :
  (∀ infos e w1,
     drv_Walk (st_world s) = ((infos, Some e), w1) →
     garbageCollect fuel sname s = (Some (0%Z, Some e), with_world s w1, [])) ∧
  (∀ infos w1 e w2 log,
     drv_Walk (st_world s) = ((infos, None), w1) →
     (let acc := foldl (walkTree_fn (mark (st_db s) sname)) ([], ∅) infos in
      prune_each (pruneBranch fuel acc.2) acc.1 (w1, []))
       = (Finished (Some e), (w2, log)) →
     garbageCollect fuel sname s = (Some (0%Z, Some e), with_world s w2, log) ∧
     IsFailedPrecondition e = false).
Proof.
  split.
  - intros infos e w1 Hwalk. unfold garbageCollect, walkTree. by rewrite Hwalk.
  - intros infos w1 e w2 log Hwalk Hsweep. cbv zeta in Hsweep. split.
    + unfold garbageCollect, walkTree. rewrite Hwalk.
      destruct (foldl _ _ infos) as [roots nodes]. cbn [fst snd] in Hsweep.
      by rewrite Hsweep.
    + apply (prune_each_error (fun e => IsFailedPrecondition e = false)) in Hsweep;
        [done|].
      intros n st e1 st1' _. apply pruneBranch_error.
Qed.

(** X22: the forest that walkTree builds from the driver's report: the
    roots are the names reported without a parent, in report order; the
    children of a node are the names reported with that node as parent, in
    report order; a reported name has a node that carries an info of that
    name and is marked for removal exactly when the name is not in the live
    set; a node that was only ever named as a parent is not marked. *)
Theorem X22_walkTree_forest (seen : gset string) (w : W) infos w1 :
  drv_Walk w = ((infos, None), w1) →
  ∃ roots nodes, walkTree seen w = (Ok (roots, nodes), w1) ∧
    roots = Name <$> filter (fun i => Parent i = "") infos ∧
    (∀ p n, nodes !! p = Some n →
       node_children n
         = Name <$> filter (fun i => Parent i ≠ "" ∧ Parent i = p) infos) ∧
    (∀ i, i ∈ infos →
       ∃ n, nodes !! Name i = Some n ∧ Name (node_info n) = Name i ∧
            node_info n ∈ infos ∧
            node_remove n = negb (bool_decide (Name i ∈ seen))) ∧
    (∀ p n, nodes !! p = Some n → (∀ i, i ∈ infos → Name i ≠ p) →
       node_remove n = false).
Proof.
  intros Hwalk. unfold walkTree. rewrite Hwalk.
  pose proof (walkTree_shape seen infos) as (Hr & Hc & Hi & _). cbv zeta in *.
  pose proof (shape_reported seen infos) as Hrep.
  destruct (foldl (walkTree_fn seen) ([], ∅) infos) as [roots nodes].
  exists roots, nodes. split_and!; try done.
  intros p n Hn Hnone.
  destruct (Hi p n Hn) as [(i & Hin & Hip & _)|(_ & _ & Hf)]; [|done].
  by destruct (Hnone i Hin).
Qed.

Lemma garbageCollect_log_rooted fuel sname (s : St L W) :
  Forall (rooted (drv_Walk (st_world s)).1.1) (garbageCollect fuel sname s).2.
Proof.
  unfold garbageCollect, walkTree.
  destruct (drv_Walk (st_world s)) as [[infos [e|]] w1]; [by constructor|].
  cbn [fst snd].
  set (seen := mark (st_db s) sname).
  pose proof (shape_root seen infos) as Hroot.
  pose proof (shape_edge seen infos) as Hedge.
  pose proof (shape_marked seen infos) as Hmarked.
  destruct (foldl (walkTree_fn seen) ([], ∅) infos) as [roots nodes].
  cbn [fst snd] in *.
  pose proof (prune_each_invariant
                (fun st => Forall (rooted infos) st.2)
                (pruneBranch fuel nodes) roots (w1, [])) as Hlog.
  cbn [snd] in Hlog.
  assert (Forall (rooted infos)
            (prune_each (pruneBranch fuel nodes) roots (w1, [])).2.2) as Hall.
  { apply Hlog; [|by constructor].
    intros r st Hr Hst. apply (pruneBranch_log_reach nodes (rooted infos)).
    - intros p n c Hp Hn Hc. apply (rooted_child infos p); [done|].
      apply Hedge. by exists n.
    - intros p n Hn Hrm. by destruct (Hmarked p n Hn Hrm).
    - destruct (Hroot r Hr) as (i & Hi & Hin & Hip). exists r.
      split; [done|]. by exists i.
    - done. }
  destruct (prune_each _ _ _) as [[[e|]| |] [w2 log]]; simpl in *; try done.
  destruct drv_Cleanup as [cleanup|]; [|done].
  by destruct (cleanup w2) as [[e|] w3].
Qed.

(** X23: whatever the pass ends with, every name it called the driver's
    Remove on was reported by the driver's Walk, hangs by its chain of
    reported parents under a reported root, and is referenced by no record
    of any namespace.  A reported snapshot whose chain of parents does not
    end in a reported root is never removed. *)
Theorem X23_gc_removes_only_rooted fuel sname (s : St L W) :
  let infos := (drv_Walk (st_world s)).1.1 in
  Forall (fun k => rooted infos k ∧ (∃ i, i ∈ infos ∧ Name i = k) ∧
                   ¬ referenced (st_db s) sname k)
    (garbageCollect fuel sname s).2.
Proof.
  cbv zeta. apply Forall_and. split; [|apply Forall_and; split].
  - apply garbageCollect_log_rooted.
  - eapply Forall_impl; [apply garbageCollect_log_rooted|].
    intros k. apply rooted_reported.
  - apply garbageCollect_spares_live.
Qed.

(** A pass without error leaves nothing collectable behind. *)
Lemma garbageCollect_complete fuel sname (s s' : St L W) d log :
  garbageCollect fuel sname s = (Some (d, None), s', log) →
  ∀ k, rooted (drv_Walk (st_world s)).1.1 k →
       k ∉ mark (st_db s) sname → k ∈ log.
Proof.
  unfold garbageCollect, walkTree.
  destruct (drv_Walk (st_world s)) as [[infos [e|]] w1]; [done|].
  cbn [fst snd].
  set (seen := mark (st_db s) sname).
  pose proof (shape_root_of seen infos) as Hroot.
  pose proof (shape_reported seen infos) as Hrep.
  pose proof (rtc_parent_child seen infos) as Hpath.
  destruct (foldl (walkTree_fn seen) ([], ∅) infos) as [roots nodes].
  cbn [fst snd] in *.
  destruct (prune_each (pruneBranch fuel nodes) roots (w1, []))
    as [[[e|]| |] [w2 log']] eqn:Hsweep; try done.
  intros Hres k Hk Hlive.
  assert (log = log') as ->.
  { destruct drv_Cleanup as [cleanup|]; [|by injection Hres].
    destruct (cleanup w2) as [[e|] w3]; [done|by injection Hres]. }
  clear Hres.
  destruct (rooted_reported infos k Hk) as (i & Hi & <-).
  destruct Hk as (r & Hreach & i0 & Hi0 & <- & Hp0).
  destruct (Hrep i Hi) as (n & Hn & Hname & _ & Hrm).
  assert (Name i ∉ seen) as Hunseen by done.
  rewrite bool_decide_eq_false_2 in Hrm by done. cbn in Hrm.
  rewrite <-Hname.
  set (R := fun (c j : string) =>
              ∃ k n, rtc (child_edge nodes) c k ∧ nodes !! k = Some n ∧
                     node_remove n = true ∧ j = Name (node_info n)).
  assert (Hp : ∀ c (st st' : W * list string) j, c ∈ roots →
            pruneBranch fuel nodes c st = (Finished None, st') → R c j → j ∈ st'.2).
  { intros c st1 st1' j _ Hrun1 (k' & n' & Hr' & Hn' & Hrm' & ->).
    by eapply pruneBranch_complete. }
  apply (prune_each_complete (pruneBranch fuel nodes) R roots
           (fun n st k => pruneBranch_log_mono nodes fuel n st k) Hp
           (w1, []) (w2, log') Hsweep (Name i0)).
  - by apply Hroot.
  - exists (Name i), n. split_and!; try done. by apply Hpath.
Qed.

(** X24: a pass that returns without error has called the driver's
    Remove on every snapshot that the driver reported under a reported root
    and that no record of any namespace references: nothing collectable is
    left out. *)
Theorem X24_gc_sweep_complete fuel sname (s s' : St L W) d log :
  garbageCollect fuel sname s = (Some (d, None), s', log) →
  ∀ k, rooted (drv_Walk (st_world s)).1.1 k →
       ¬ referenced (st_db s) sname k → k ∈ log.
Proof.
  intros Hrun k Hrooted Hlive.
  apply (garbageCollect_complete fuel sname s s' d log Hrun k Hrooted).
  intros Hin. apply Hlive. by apply elem_of_mark.
Qed.
End gc_more.
(** ** Commit and Stat: refusals *)

Section commit_refusals.
Context {L W : Type}.
Context `{!Leases L, !Snapshotter W, !Clock W, !LabelValidator}.

Implicit Types (s : St L W).

(** X25: the refusals of Commit, once the namespace, the options and
    the labels are accepted: a snapshotter bucket that does not exist gives
    NotFound; a name that is taken gives AlreadyExists; a key without a
    record gives NotFound (for a name the store can create).  In each case the driver is not called and the
    whole state is as it was.  And whatever makes Commit fail, the driver's
    own Commit included, the store is the one the call started from. *)
Theorem X25_commit_refusals sname ctx ns name key opts s base :
  ctx_namespace ctx = Some ns → ns ≠ "" →
  apply_opts opts emptyInfo = Ok base → validateSnapshot base = None →
  (buckets (st_db s) !! (ns, sname) = None →
   Commit sname ctx name key opts s = (Err ErrNotFound, s)) ∧
  (∀ b, buckets (st_db s) !! (ns, sname) = Some b → is_Some (records b !! name) →
   Commit sname ctx name key opts s = (Err ErrAlreadyExists, s)) ∧
  (∀ b l', buckets (st_db s) !! (ns, sname) = Some b → records b !! name = None →
   addSnapshotLease ctx sname name (leases (st_db s)) = Ok l' →
   name ≠ "" → key ≠ name → records b !! key = None →
   Commit sname ctx name key opts s = (Err ErrNotFound, s)) ∧
  (∀ e s', Commit sname ctx name key opts s = (Err e, s') → st_db s' = st_db s).
Proof.
  intros Hctx Hne Hopts Hval.
  split_and!.
  - intros Hb. unfold Commit.
    rewrite (bind_run _ _ s ns s) by (by rewrite NamespaceRequired_run, Hctx, decide_False).
    rewrite (bind_run _ _ s base s) by (by unfold lift_result; rewrite Hopts).
    rewrite (bind_run _ _ s tt s) by (by unfold lift_err; rewrite Hval).
    apply (update_rollback _ s _ s); [|done..].
    rewrite (bind_run _ _ _ _ _ (getSnapshotterBucket_run _ _ _)). by rewrite Hb.
  - intros b Hb [r Hr]. unfold Commit.
    rewrite (bind_run _ _ s ns s) by (by rewrite NamespaceRequired_run, Hctx, decide_False).
    rewrite (bind_run _ _ s base s) by (by unfold lift_result; rewrite Hopts).
    rewrite (bind_run _ _ s tt s) by (by unfold lift_err; rewrite Hval).
    apply (update_rollback _ s _ s); [|done..].
    rewrite (bind_run _ _ _ _ _ (getSnapshotterBucket_run _ _ _)). rewrite Hb.
    apply bind_err. unfold exists_to_AlreadyExists, bkt_CreateBucket.
    by rewrite (the_bucket_lookup s ns sname b Hb), Hr.
  - intros b l' Hb Hfresh Hlease _ Hkn Hkey. unfold Commit.
    rewrite (bind_run _ _ s ns s) by (by rewrite NamespaceRequired_run, Hctx, decide_False).
    rewrite (bind_run _ _ s base s) by (by unfold lift_result; rewrite Hopts).
    rewrite (bind_run _ _ s tt s) by (by unfold lift_err; rewrite Hval).
    set (s1 := set_bucket s ns sname
                 (mkBucket (sequence b) (<[name := emptyRecord]> (records b)))).
    apply (update_rollback _ s _ (with_leases s1 l')); [|done..].
    rewrite (bind_run _ _ _ _ _ (getSnapshotterBucket_run _ _ _)). rewrite Hb.
    rewrite (bind_run _ _ s tt s1).
    2:{ unfold exists_to_AlreadyExists, bkt_CreateBucket.
        by rewrite (the_bucket_lookup s ns sname b Hb), Hfresh. }
    rewrite (bind_run _ _ _ _ _ (lease_run _ s1 l' Hlease)).
    rewrite (bind_run (bkt_Bucket _ _ _) _ _ _ _ eq_refl).
    subst s1. autorewrite with st_norm. cbn [records].
    by rewrite lookup_insert_ne, Hkey by done.
  - intros e s'. apply Commit_err_db.
Qed.

(** X26: Stat reads and asks, it never writes: whatever it returns,
    the store and the dirty set are the ones it started from; a name
    without a record gives NotFound without calling the driver; for a
    record, the driver is asked for its backend key, a driver error is
    passed on and a driver info is returned under the record's name,
    parent, labels and timestamps. *)
Theorem X26_stat_reads_only sname ctx key s :
  st_db (Stat sname ctx key s).2 = st_db s ∧
  st_dirty (Stat sname ctx key s).2 = st_dirty s ∧
  (∀ ns, ctx_namespace ctx = Some ns → ns ≠ "" →
     records (the_bucket s ns sname) !! key = None →
     Stat sname ctx key s = (Err ErrNotFound, s)) ∧
  (∀ ns r, ctx_namespace ctx = Some ns → ns ≠ "" →
     records (the_bucket s ns sname) !! key = Some r →
     Stat sname ctx key s =
     match drv_Stat (r_name r) (st_world s) with
     | (Ok info, w) =>
         (Ok (overlayInfo info
                (mkInfo 0%N key (r_parent r) (r_labels r)
                   (r_created r) (r_updated r))).1, with_world s w)
     | (Err e, w) => (Err e, with_world s w)
     end).
Proof.
  assert (Hfound : ∀ ns r, ctx_namespace ctx = Some ns → ns ≠ "" →
     records (the_bucket s ns sname) !! key = Some r →
     Stat sname ctx key s =
     match drv_Stat (r_name r) (st_world s) with
     | (Ok info, w) =>
         (Ok (overlayInfo info
                (mkInfo 0%N key (r_parent r) (r_labels r)
                   (r_created r) (r_updated r))).1, with_world s w)
     | (Err e, w) => (Err e, with_world s w)
     end).
  { intros ns r Hctx Hne Hr. unfold the_bucket in Hr.
    destruct (buckets (st_db s) !! (ns, sname)) as [b|] eqn:Hb;
      cbn [default from_option id] in Hr.
    - by apply (Stat_found sname ctx ns key s b r).
    - change (records emptyBucket) with (∅ : gmap string record) in Hr.
      by rewrite lookup_empty in Hr. }
  assert (Hsame : st_db (Stat sname ctx key s).2 = st_db s ∧
                  st_dirty (Stat sname ctx key s).2 = st_dirty s).
  { destruct (ctx_namespace ctx) as [ns|] eqn:Hctx.
    2:{ unfold Stat, mbind, M_bind. by rewrite NamespaceRequired_run, Hctx. }
    destruct (decide (ns = "")) as [Hns|Hns].
    { unfold Stat, mbind, M_bind.
      by rewrite NamespaceRequired_run, Hctx, decide_True. }
    destruct (records (the_bucket s ns sname) !! key) as [r|] eqn:Hr.
    - rewrite (Hfound ns r eq_refl Hns Hr).
      by destruct (drv_Stat (r_name r) (st_world s)) as [[info|e] w].
    - by rewrite (Stat_missing sname ctx ns key s Hctx Hns Hr). }
  destruct Hsame as [Hdb Hdirty]. split_and!; try done.
  intros ns Hctx Hne Hr. by apply (Stat_missing sname ctx ns).
Qed.
End commit_refusals.
(** ** Round trips: Prepare then Remove, Remove then collect *)

Section round_trips.
Context {L W : Type}.
Context `{!Leases L, !Snapshotter W, !Clock W, !LabelValidator}.

Implicit Types (s : St L W).

(** X27: Prepare (or View) followed by Remove of the same name gives
    the records back: every record other than the parent's is as it was
    before the Prepare (with no parent, the whole record map is), and the
    parent's record differs at most in its children sub-bucket, which now
    exists and holds its old entries without the removed name.  Only the
    sequence counter, one higher, remembers the pair of calls. *)
Theorem X27_create_remove_round_trip sname ctx key parent readonly opts s s1 s2 m u :
  createSnapshot sname ctx key parent readonly opts s = (Ok m, s1) →
  Remove sname ctx key s1 = (Ok u, s2) →
  ∃ ns, ctx_namespace ctx = Some ns ∧
    sequence (the_bucket s2 ns sname) = (sequence (the_bucket s ns sname) + 1)%N ∧
    (∀ k, k ≠ parent →
       records (the_bucket s2 ns sname) !! k = records (the_bucket s ns sname) !! k) ∧
    (parent = "" →
       records (the_bucket s2 ns sname) = records (the_bucket s ns sname)) ∧
    (parent ≠ "" →
       ∃ r0, records (the_bucket s ns sname) !! parent = Some r0 ∧
             records (the_bucket s2 ns sname) !! parent
             = Some (children_delete key (children_put key r0))) ∧
    (∀ p, p ≠ (ns, sname) → buckets (st_db s2) !! p = buckets (st_db s) !! p).
Proof.
  intros Hcreate Hremove.
  apply createSnapshot_ok_full in Hcreate
    as (ns & base & l' & w' & Hctx & Hne & _ & _ & Hfresh & _ & Hpar & _ & ->).
  exists ns. split; [done|].
  set (b := the_bucket s ns sname) in *.
  set (backend := createKey (sequence b + 1)%N ns key) in *.
  set (recs1 := create_records (records b) key parent backend
                  (now (st_world s)) (Labels base)) in *.
  rewrite Remove_cases, Hctx, decide_False in Hremove by done.
  autorewrite with st_norm in Hremove. cbn [records sequence] in Hremove.
  assert (Hnew := create_records_new (records b) key parent backend
                    (now (st_world s)) (Labels base)).
  fold recs1 in Hnew. rewrite Hnew in Hremove. cbn [r_children r_parent] in Hremove.
  destruct (decide (_ ∨ _)) as [Hc|]; [|done].
  destruct (decide (parent = "" ∨ is_Some (recs1 !! parent))); [|done].
  destruct (removeSnapshotLease _ _ _ _) as [l2|]; [|done].
  injection Hremove as _ <-.
  assert (Hpk : parent = "" ∨ parent ≠ key).
  { destruct (decide (parent = "")) as [|Hp]; [by left|]. right. intros ->.
    rewrite decide_True in Hc by done. destruct Hc as [|Hc]; [done|].
    apply (inj Some) in Hc.
    assert (key ∈ ({[key]} ∪ ∅ : gset string)) as Hin
      by (apply elem_of_union_l; by apply elem_of_singleton).
    rewrite Hc in Hin. by apply elem_of_empty in Hin. }
  assert (Hlk : ∀ k, records (the_bucket
             (mkSt (mkStore (<[(ns, sname) :=
                      mkBucket (sequence b + 1)%N
                        (remove_records recs1 key parent)]>
                     (<[(ns, sname) := mkBucket (sequence b + 1)%N recs1]>
                        (buckets (st_db s)))) l2) w' ({[sname]} ∪ st_dirty s)
              : St L W) ns sname) !! k
            = remove_records recs1 key parent !! k).
  { intros k. unfold the_bucket. cbn [st_db buckets].
    by rewrite lookup_insert_eq. }
  assert (Hseq : sequence (the_bucket
             (mkSt (mkStore (<[(ns, sname) :=
                      mkBucket (sequence b + 1)%N
                        (remove_records recs1 key parent)]>
                     (<[(ns, sname) := mkBucket (sequence b + 1)%N recs1]>
                        (buckets (st_db s)))) l2) w' ({[sname]} ∪ st_dirty s)
              : St L W) ns sname) = (sequence b + 1)%N).
  { unfold the_bucket. cbn [st_db buckets]. by rewrite lookup_insert_eq. }
  assert (Hother : ∀ k, k ≠ parent →
            remove_records recs1 key parent !! k = records b !! k).
  { intros k Hk. rewrite remove_records_lookup.
    destruct (decide (k = key)) as [->|Hkk]; [done|].
    rewrite decide_False by (by intros [_ ?]).
    unfold recs1. rewrite create_records_old by done.
    by rewrite decide_False by (by intros [_ ?]). }
  split_and!.
  - exact Hseq.
  - intros k Hk. rewrite Hlk. by apply Hother.
  - intros ->. apply map_eq. intros k. rewrite Hlk.
    rewrite remove_records_lookup.
    destruct (decide (k = key)) as [->|Hkk]; [done|].
    rewrite decide_False by (by intros [? _]).
    unfold recs1. rewrite create_records_old by done.
    by rewrite decide_False by (by intros [? _]).
  - intros Hp. destruct Hpk as [|Hpk]; [done|].
    destruct Hpar as [|[r0 Hr0]]; [done|].
    rewrite lookup_insert_ne in Hr0 by done.
    exists r0. split; [done|]. rewrite Hlk, remove_records_lookup.
    rewrite decide_False, decide_True by done.
    unfold recs1. rewrite create_records_old, decide_True by done.
    by rewrite Hr0.
  - intros p Hp. cbn [st_db buckets]. by rewrite !lookup_insert_ne.
Qed.
End round_trips.

Section remove_then_collect.
Context {L W : Type}.
Context `{!Leases L, !Snapshotter W, !Clock W, !LabelValidator}.

Implicit Types (s : St L W).

(** X28: Remove hands the snapshot to the collector.  On a store with
    well-formed backend keys, in namespaces without the separator, the
    backend key of a record is referenced before its Remove and by no
    record after it; so the next pass that returns without error calls the
    driver's Remove on that key, if the driver reports it under a root. *)
Theorem X28_removed_key_is_collectable sname ctx key s s' u :
  store_named s →
  (∀ ns sn, is_Some (buckets (st_db s) !! (ns, sn)) → no_slash ns = true) →
  Remove sname ctx key s = (Ok u, s') →
  ∃ ns, ctx_namespace ctx = Some ns ∧
    let backend := getKey s ns sname key in
    referenced (st_db s) sname backend ∧
    ¬ referenced (st_db s') sname backend ∧
    (∀ fuel s'' d log,
       garbageCollect fuel sname s' = (Some (d, None), s'', log) →
       rooted (drv_Walk (st_world s')).1.1 backend → backend ∈ log).
Proof.
  intros Hnamed Hslash. rewrite Remove_cases.
  destruct (ctx_namespace ctx) as [ns|] eqn:Hctx; [|done].
  destruct (decide (ns = "")) as [|Hne]; [done|].
  destruct (buckets (st_db s) !! (ns, sname)) as [b|] eqn:Hb; [|done].
  destruct (records b !! key) as [r|] eqn:Hr; [|done].
  destruct (decide (r_children r = None ∨ r_children r = Some ∅)); [|done].
  destruct (decide (r_parent r = "" ∨ is_Some (records b !! r_parent r)));
    [|done].
  destruct (removeSnapshotLease ctx sname key (leases (st_db s))) as [l'|e];
    [|done].
  intros [= <- <-]. exists ns. split; [done|]. cbv zeta.
  assert (getKey s ns sname key = r_name r) as ->.
  { unfold getKey. by rewrite Hb, Hr. }
  destruct (Hnamed ns sname b Hb key r Hr) as (id & Hid & _).
  assert (Hns : no_slash ns = true) by (apply (Hslash ns sname); by rewrite Hb).
  assert (Hbefore : referenced (st_db s) sname (r_name r)).
  { split; [|by exists ns, b, key, r].
    rewrite Hid. unfold createKey. destruct ns; [done|discriminate]. }
  assert (Hafter : ¬ referenced
            (mkStore (<[(ns, sname) :=
                          mkBucket (sequence b)
                            (remove_records (records b) key (r_parent r))]>
                        (buckets (st_db s))) l') sname (r_name r)).
  { intros (_ & ns2 & b2 & k2 & r2 & Hb2 & Hr2 & Heq). cbn [buckets] in Hb2.
    assert (∃ b0 r0, buckets (st_db s) !! (ns2, sname) = Some b0 ∧
                     records b0 !! k2 = Some r0 ∧ r_name r0 = r_name r ∧
                     (ns2 = ns → k2 ≠ key)) as (b0 & r0 & Hb0 & Hr0 & Hn0 & Hk0).
    { destruct (decide (ns2 = ns)) as [->|Hns2].
      - rewrite lookup_insert_eq in Hb2. injection Hb2 as <-. cbn [records] in Hr2.
        rewrite remove_records_lookup in Hr2.
        destruct (decide (k2 = key)) as [|Hk2]; [done|].
        exists b. destruct (decide (r_parent r ≠ "" ∧ k2 = r_parent r)).
        + apply fmap_Some_proj in Hr2 as (r0 & Hr0 & <-). by exists r0.
        + by exists r2.
      - rewrite lookup_insert_ne in Hb2 by congruence. by exists b2, r2. }
    destruct (Hnamed ns2 sname b0 Hb0 k2 r0 Hr0) as (id2 & Hid2 & _).
    assert (Hns2 : no_slash ns2 = true)
      by (apply (Hslash ns2 sname); by rewrite Hb0).
    rewrite Hid, Hid2 in Hn0.
    apply createKey_inj in Hn0 as (_ & -> & ->); [|done..]. by apply Hk0. }
  split_and!; [done..|].
  intros fuel s'' d log Hrun Hrooted.
  apply (garbageCollect_complete fuel sname _ s'' d log Hrun _ Hrooted).
  intros Hin. apply Hafter. by apply elem_of_mark in Hin.
Qed.
End remove_then_collect.
(** ** The properties above, on runs of the in-memory driver *)

Section more_examples.
Local Existing Instances memDriver memClock noLeases anyLabel memQuery.

Lemma X2_usage_mounts_forward_witness :
  (∀ r, records (the_bucket active_prepared "ns1" "ovl") !! "active" = Some r →
     r_name r ≠ "" →
     Usage "ovl" ns1 "active" active_prepared
       = ((drv_Usage (r_name r) (st_world active_prepared)).1,
          with_world active_prepared
            (drv_Usage (r_name r) (st_world active_prepared)).2) ∧
     Mounts "ovl" ns1 "active" active_prepared
       = ((drv_Mounts (r_name r) (st_world active_prepared)).1,
          with_world active_prepared
            (drv_Mounts (r_name r) (st_world active_prepared)).2)) ∧
  (records (the_bucket active_prepared "ns1" "ovl") !! "active" = None ∨
   (∃ r, records (the_bucket active_prepared "ns1" "ovl") !! "active" = Some r
         ∧ r_name r = "") →
     Usage "ovl" ns1 "active" active_prepared = (Err ErrNotFound, active_prepared) ∧
     Mounts "ovl" ns1 "active" active_prepared = (Err ErrNotFound, active_prepared)).
Proof.
  apply (X2_usage_mounts_forward "ovl" ns1 "ns1" "active" active_prepared);
    by vm_compute.
Defined.

Lemma X3_create_then_stat_witness :
  ∃ ns base, ctx_namespace ns1 = Some ns ∧ apply_opts [] emptyInfo = Ok base ∧
    let s := emptySt (mkWorld [] 10%Z) in
    let local := mkInfo 0%N "active" "" (Labels base)
                   (now (st_world s)) (now (st_world s)) in
    Stat "ovl" ns1 "active" active_prepared =
    match drv_Stat (createKey (sequence (the_bucket s ns "ovl") + 1)%N ns "active")
            (st_world active_prepared) with
    | (Ok info, w) => (Ok (overlayInfo info local).1, with_world active_prepared w)
    | (Err e, w) => (Err e, with_world active_prepared w)
    end.
Proof.
  apply (X3_create_then_stat "ovl" ns1 "active" "" false []
           (emptySt (mkWorld [] 10%Z)) active_prepared
           [mkMount "bind" "ns1/1/active" []]); by vm_compute.
Defined.

Lemma X4_create_calls_driver_witness :
  ∃ ns, ctx_namespace ns1 = Some ns ∧ ns ≠ "" ∧
    let backend := createKey (sequence (the_bucket active_prepared ns "ovl") + 1)%N
                     ns "child" in
    let bparent := if decide ("active" = "" ∨ "active" = "child") then ""
                   else getKey active_prepared ns "ovl" "active" in
    (if false then drv_View else drv_Prepare) backend bparent []
      (st_world active_prepared)
      = (Ok [mkMount "bind" "ns1/2/child" []], st_world child_prepared) ∧
    records (the_bucket active_prepared ns "ovl") !! "child" = None ∧
    getKey child_prepared ns "ovl" "child" = backend ∧
    sequence (the_bucket child_prepared ns "ovl")
      = (sequence (the_bucket active_prepared ns "ovl") + 1)%N ∧
    ("active" ≠ "" → "active" ≠ "child" →
     is_Some (records (the_bucket active_prepared ns "ovl") !! "active")).
Proof.
  apply (X4_create_calls_driver "ovl" ns1 "child" "active" false []
           active_prepared child_prepared [mkMount "bind" "ns1/2/child" []]);
    by vm_compute.
Defined.

Lemma X5_create_missing_parent_witness :
  ∃ e, createSnapshot "ovl" ns1 "child" "nope" false [] active_prepared
         = (Err e, active_prepared) ∧
       (∀ base l', "ns1" ≠ "" → "child" ≠ "" → apply_opts [] emptyInfo = Ok base →
          validateSnapshot base = None →
          records (the_bucket active_prepared "ns1" "ovl") !! "child" = None →
          addSnapshotLease ns1 "ovl" "child" (leases (st_db active_prepared)) = Ok l' →
          e = ErrNotFound).
Proof.
  apply (X5_create_missing_parent "ovl" ns1 "ns1" "child" "nope" false []
           active_prepared); by vm_compute.
Defined.

Lemma X6_create_then_mounts_witness :
  ∃ ns, ctx_namespace ns1 = Some ns ∧
    let backend := createKey (sequence (the_bucket active_prepared ns "ovl") + 1)%N
                     ns "child" in
    Mounts "ovl" ns1 "child" child_prepared
      = ((drv_Mounts backend (st_world child_prepared)).1,
         with_world child_prepared (drv_Mounts backend (st_world child_prepared)).2) ∧
    Usage "ovl" ns1 "child" child_prepared
      = ((drv_Usage backend (st_world child_prepared)).1,
         with_world child_prepared (drv_Usage backend (st_world child_prepared)).2).
Proof.
  apply (X6_create_then_mounts "ovl" ns1 "child" "active" false []
           active_prepared child_prepared [mkMount "bind" "ns1/2/child" []]);
    by vm_compute.
Defined.

Lemma X7_update_refusals_witness :
  let info := mkInfo 0%N "s1" "" None 0%Z 0%Z in
  let paths := ["labels.env"; "name"] in
  (Name info = "" →
   Update "ovl" ns1 info paths s1_labelled = (Err ErrInvalidArgument, s1_labelled)) ∧
  (Name info ≠ "" → records (the_bucket s1_labelled "ns1" "ovl") !! Name info = None →
   Update "ovl" ns1 info paths s1_labelled = (Err ErrNotFound, s1_labelled)) ∧
  (∀ p, Name info ≠ "" →
     is_Some (records (the_bucket s1_labelled "ns1" "ovl") !! Name info) →
     p ∈ paths → p ≠ "labels" → (∀ k, p ≠ "labels." +:+ k) →
     Update "ovl" ns1 info paths s1_labelled = (Err ErrInvalidArgument, s1_labelled)).
Proof.
  apply (X7_update_refusals "ovl" ns1 "ns1" (mkInfo 0%N "s1" "" None 0%Z 0%Z)
           ["labels.env"; "name"] s1_labelled); by vm_compute.
Defined.



Lemma X10_commit_effect_witness :
  ∃ ns b ob, ctx_namespace ns1 = Some ns ∧
    buckets (st_db active_updated) !! (ns, "ovl") = Some b ∧
    records b !! "active" = Some ob ∧ records b !! "release" = None ∧
    drv_Commit (createKey (sequence b + 1)%N ns "release") (r_name ob)
      (st_world active_updated) = (None, st_world release_committed) ∧
    sequence (the_bucket release_committed ns "ovl") = (sequence b + 1)%N ∧
    records (the_bucket release_committed ns "ovl") !! "active" = None ∧
    getKey release_committed ns "ovl" "release"
      = createKey (sequence b + 1)%N ns "release" ∧
    (∀ k, k ≠ "active" → k ≠ "release" →
       records (the_bucket release_committed ns "ovl") !! k
       = if decide (r_parent ob ≠ "" ∧ k = r_parent ob)
         then (fun r => children_put "release" (children_create_delete "active" r))
                <$> records b !! k
         else records b !! k) ∧
    (∀ p, p ≠ (ns, "ovl") →
          buckets (st_db release_committed) !! p = buckets (st_db active_updated) !! p).
Proof.
  apply (X10_commit_effect "ovl" ns1 "release" "active" [] active_updated
           release_committed tt); by vm_compute.
Defined.

Lemma X12_remove_refusals_witness :
  (records (the_bucket child_prepared "ns1" "ovl") !! "active" = None →
   Remove "ovl" ns1 "active" child_prepared = (Err ErrNotFound, child_prepared)) ∧
  (∀ r c, records (the_bucket child_prepared "ns1" "ovl") !! "active" = Some r →
     r_children r = Some c → c ≠ ∅ →
     Remove "ovl" ns1 "active" child_prepared
       = (Err ErrFailedPrecondition, child_prepared)) ∧
  (∀ r, records (the_bucket child_prepared "ns1" "ovl") !! "active" = Some r →
     (∀ c, r_children r = Some c → c = ∅) →
     r_parent r ≠ "" →
     records (the_bucket child_prepared "ns1" "ovl") !! r_parent r = None →
     Remove "ovl" ns1 "active" child_prepared = (Err ErrNotFound, child_prepared)).
Proof.
  apply (X12_remove_refusals "ovl" ns1 "ns1" "active" child_prepared);
    by vm_compute.
Defined.

Lemma X13_remove_effect_witness :
  ∃ ns b r, ctx_namespace ns1 = Some ns ∧
    buckets (st_db child_prepared) !! (ns, "ovl") = Some b ∧
    records b !! "child" = Some r ∧
    (∀ c, r_children r = Some c → c = ∅) ∧
    sequence (the_bucket child_removed ns "ovl") = sequence b ∧
    (∀ k, records (the_bucket child_removed ns "ovl") !! k
          = if decide (k = "child") then None
            else if decide (r_parent r ≠ "" ∧ k = r_parent r)
                 then children_delete "child" <$> records b !! k
                 else records b !! k) ∧
    (∀ p, p ≠ (ns, "ovl") →
          buckets (st_db child_removed) !! p = buckets (st_db child_prepared) !! p) ∧
    Stat "ovl" ns1 "child" child_removed = (Err ErrNotFound, child_removed).
Proof.
  apply (X13_remove_effect "ovl" ns1 "child" child_prepared child_removed tt);
    by vm_compute.
Defined.

Lemma X14_child_blocks_parent_witness :
  Remove "ovl" ns1 "loop" loop_prepared = (Err ErrFailedPrecondition, loop_prepared).
Proof.
  apply (X14_child_blocks_parent "ovl" ns1 "loop" "loop" false []
           (emptySt (mkWorld [] 10%Z)) loop_prepared
           [mkMount "bind" "ns1/1/loop" []]); by vm_compute.
Defined.

Lemma X18_refusal_has_live_child_witness :
  ∃ b child r, buckets (st_db child_prepared) !! ("ns1", "ovl") = Some b ∧
               records b !! child = Some r ∧ r_parent r = "active".
Proof.
  apply (X18_refusal_has_live_child "ovl" ns1 "ns1" "active" child_prepared
           child_prepared); [|by vm_compute..].
  apply createSnapshot_children_sound, createSnapshot_children_sound,
    empty_store_children_sound.
Defined.

Lemma X20_live_keys_resolve_and_differ_witness :
  (∀ sname ctx ns b key r,
     ctx_namespace ctx = Some ns → ns ≠ "" →
     buckets (st_db child_prepared) !! (ns, sname) = Some b →
     records b !! key = Some r →
     resolveKey sname ctx key child_prepared = (Ok (r_name r), child_prepared)) ∧
  (∀ sname ns1 ns2 b1 b2 k1 k2 r1 r2,
     no_slash ns1 = true → no_slash ns2 = true →
     buckets (st_db child_prepared) !! (ns1, sname) = Some b1 →
     records b1 !! k1 = Some r1 →
     buckets (st_db child_prepared) !! (ns2, sname) = Some b2 →
     records b2 !! k2 = Some r2 →
     r_name r1 = r_name r2 → ns1 = ns2 ∧ k1 = k2).
Proof.
  apply (X20_live_keys_resolve_and_differ child_prepared).
  apply createSnapshot_named, createSnapshot_named, empty_store_named.
Defined.

Lemma X21_gc_error_skips_cleanup_witness :
  garbageCollect (Snapshotter0 := brokenWalkDriver) 4 "ovl" unreferenced_st
  = (Some (0%Z, Some ErrUnknown),
     with_world unreferenced_st (mkWorld lineage 1%Z), []).
Proof.
  apply (proj1 (X21_gc_error_skips_cleanup (Snapshotter0 := brokenWalkDriver)
                  4 "ovl" unreferenced_st)
           (take 2 lineage) ErrUnknown (mkWorld lineage 1%Z)).
  by vm_compute.
Defined.

Lemma X22_walkTree_forest_witness :
  let seen : gset string := {["B"]} in
  ∃ roots nodes,
    walkTree seen (mkWorld lineage 0%Z) = (Ok (roots, nodes), mkWorld lineage 1%Z) ∧
    roots = Name <$> filter (fun i => Parent i = "") lineage ∧
    (∀ p n, nodes !! p = Some n →
       node_children n
         = Name <$> filter (fun i => Parent i ≠ "" ∧ Parent i = p) lineage) ∧
    (∀ i, i ∈ lineage →
       ∃ n, nodes !! Name i = Some n ∧ Name (node_info n) = Name i ∧
            node_info n ∈ lineage ∧
            node_remove n = negb (bool_decide (Name i ∈ seen))) ∧
    (∀ p n, nodes !! p = Some n → (∀ i, i ∈ lineage → Name i ≠ p) →
       node_remove n = false).
Proof.
  apply (X22_walkTree_forest {["B"]} (mkWorld lineage 0%Z) lineage
           (mkWorld lineage 1%Z)).
  by vm_compute.
Defined.

Lemma X24_gc_sweep_complete_witness :
  "C" ∈ ["C"; "B"; "A"].
Proof.
  apply (X24_gc_sweep_complete 4 "ovl" unreferenced_st
           (mkSt (mkStore ∅ tt) (mkWorld [] 4%Z) ∅) 4%Z ["C"; "B"; "A"]).
  - by vm_compute.
  - exists "A". split.
    + apply (rtc_l _ _ "B"); [|apply rtc_once].
      * exists (mkInfo 3%N "C" "B" None 0%Z 0%Z).
        split; [|done]. unfold lineage. cbn. set_solver.
      * exists (mkInfo 3%N "B" "A" None 0%Z 0%Z).
        split; [|done]. unfold lineage. cbn. set_solver.
    + exists (mkInfo 3%N "A" "" None 0%Z 0%Z). split; [|done].
      unfold lineage. cbn. set_solver.
  - intros (_ & ns & b & key & r & Hb & _). by vm_compute in Hb.
Defined.
Lemma X25_commit_refusals_witness :
  (buckets (st_db active_prepared) !! ("ns1", "ovl") = None →
   Commit "ovl" ns1 "release" "nokey" [] active_prepared
     = (Err ErrNotFound, active_prepared)) ∧
  (∀ b, buckets (st_db active_prepared) !! ("ns1", "ovl") = Some b →
   is_Some (records b !! "release") →
   Commit "ovl" ns1 "release" "nokey" [] active_prepared
     = (Err ErrAlreadyExists, active_prepared)) ∧
  (∀ b l', buckets (st_db active_prepared) !! ("ns1", "ovl") = Some b →
   records b !! "release" = None →
   addSnapshotLease ns1 "ovl" "release" (leases (st_db active_prepared)) = Ok l' →
   "release" ≠ "" → "nokey" ≠ "release" → records b !! "nokey" = None →
   Commit "ovl" ns1 "release" "nokey" [] active_prepared
     = (Err ErrNotFound, active_prepared)) ∧
  (∀ e s', Commit "ovl" ns1 "release" "nokey" [] active_prepared = (Err e, s') →
           st_db s' = st_db active_prepared).
Proof.
  apply (X25_commit_refusals "ovl" ns1 "ns1" "release" "nokey" [] active_prepared
           emptyInfo); by vm_compute.
Defined.
Lemma X27_create_remove_round_trip_witness :
  ∃ ns, ctx_namespace ns1 = Some ns ∧
    sequence (the_bucket child_removed ns "ovl")
      = (sequence (the_bucket active_prepared ns "ovl") + 1)%N ∧
    (∀ k, k ≠ "active" →
       records (the_bucket child_removed ns "ovl") !! k
       = records (the_bucket active_prepared ns "ovl") !! k) ∧
    ("active" = "" →
       records (the_bucket child_removed ns "ovl")
       = records (the_bucket active_prepared ns "ovl")) ∧
    ("active" ≠ "" →
       ∃ r0, records (the_bucket active_prepared ns "ovl") !! "active" = Some r0 ∧
             records (the_bucket child_removed ns "ovl") !! "active"
             = Some (children_delete "child" (children_put "child" r0))) ∧
    (∀ p, p ≠ (ns, "ovl") →
          buckets (st_db child_removed) !! p = buckets (st_db active_prepared) !! p).
Proof.
  apply (X27_create_remove_round_trip "ovl" ns1 "child" "active" false []
           active_prepared child_prepared child_removed
           [mkMount "bind" "ns1/2/child" []] tt); by vm_compute.
Defined.

Lemma X28_removed_key_is_collectable_witness :
  ∃ ns, ctx_namespace ns1 = Some ns ∧
    let backend := getKey child_prepared ns "ovl" "child" in
    referenced (st_db child_prepared) "ovl" backend ∧
    ¬ referenced (st_db child_removed) "ovl" backend ∧
    (∀ fuel s'' d log,
       garbageCollect fuel "ovl" child_removed = (Some (d, None), s'', log) →
       rooted (drv_Walk (st_world child_removed)).1.1 backend → backend ∈ log).
Proof.
  apply (X28_removed_key_is_collectable "ovl" ns1 "child" child_prepared
           child_removed tt).
  - apply createSnapshot_named, createSnapshot_named, empty_store_named.
  - intros ns sn [b Hb].
    assert (Hall : map_Forall (fun p _ => no_slash p.1 = true)
                     (buckets (st_db child_prepared))).
    { assert (buckets (st_db child_prepared)
              = {[("ns1", "ovl") := the_bucket child_prepared "ns1" "ovl"]}) as ->
        by (by vm_compute).
      by apply map_Forall_singleton. }
    exact (Hall (ns, sn) b Hb).
  - by vm_compute.
Defined.

Lemma X29_create_decided_by_driver_witness :
  let b := the_bucket active_prepared "ns1" "ovl" in
  let backend := createKey (sequence b + 1)%N "ns1" "child" in
  let bparent := if decide ("active" = "" ∨ "active" = "child") then ""
                 else getKey active_prepared "ns1" "ovl" "active" in
  createSnapshot "ovl" ns1 "child" "active" false [] active_prepared =
  match (if false then drv_View else drv_Prepare) backend bparent []
          (st_world active_prepared) with
  | (Ok m, w') =>
      (Ok m, with_world (with_leases (set_bucket active_prepared "ns1" "ovl"
               (mkBucket (sequence b + 1)%N
                  (create_records (records b) "child" "active" backend
                     (now (st_world active_prepared)) (Labels emptyInfo)))) tt) w')
  | (Err e, w') => (Err e, with_world active_prepared w')
  end.
Proof.
  apply (X29_create_decided_by_driver "ovl" ns1 "ns1" "child" "active" false []
           active_prepared emptyInfo tt); try by vm_compute.
  right; right. vm_compute. by eexists.
Defined.
End more_examples.
